(** * The gVCF aggregator of starling

    A shallow embedding of [starka/src/lib/starling_common/gvcf_aggregator.cpp]:
    the aggregator that merges site calls and indel calls into one stream of
    VCF records, buffers overlapping indels together with the sites they
    cover, and compresses non-variant sites into blocks.

    Conventions of the embedding.
    - [pos_t] and the [int] quality values are [Z]; they stay far inside the
      range of the machine type, so signed arithmetic is written without
      wrap-around.  Values of type [unsigned] are [N]; where the code converts
      a signed difference to [unsigned] the wrap is written out
      ([to_unsigned]).
    - [double] is the kernel's binary64 [float].
    - [std::bitset<VCF_FILTERS::SIZE>] is an [N] read bit by bit.
    - A failed [assert] ends the run, and an access outside a vector is
      undefined in C++: the functions that can reach either return [option],
      and [None] stands for both, a run without a defined result.
    - The output stream is the list of lines written so far, each tagged with
      the function that wrote it. *)

From Stdlib Require Import ZArith NArith List String Ascii Bool Lia.
From Stdlib Require Import Floats Uint63.
From Stdlib Require DecimalString.
Import ListNotations.
Local Open Scope Z_scope.

(** ** Small monad for runs that may have no result *)

Definition bind {A B : Type} (m : option A) (k : A -> option B) : option B :=
  match m with
  | Some a => k a
  | None => None
  end.

Notation "x <- m ;; k" := (bind m (fun x => k))
  (at level 61, m at next level, right associativity).

(** [assert(b)]: the run goes on only when [b] holds. *)
Definition assert_ok (b : bool) : option unit := if b then Some tt else None.

(** ** Machine integers and text *)

Definition pos_t := Z.

Definition to_unsigned (z : Z) : N := Z.to_N (z mod 2 ^ 32).

Definition unsigned_add (a b : N) : N := ((a + b) mod 2 ^ 32)%N.

Definition to_double (n : N) : float :=
  PrimFloat.of_uint63 (Uint63.of_Z (Z.of_N n)).

(** [os << n] for an integer. *)
Definition show_Z (z : Z) : string :=
  DecimalString.NilZero.string_of_int (Z.to_int z).

Definition show_N (n : N) : string := show_Z (Z.of_N n).

Definition show_char (c : ascii) : string := String c EmptyString.

Definition TAB : string := show_char "009"%char.
Definition NL : string := show_char "010"%char.

(** ** Filters *)

(** The four filters the code sets.  Their indices in the bitset come from a
    header outside this source file; the numbering below is one injective
    choice, and nothing depends on which. *)
Module VCF_FILTERS.

Inductive index_t := IndelConflict | SiteConflict | LowGQX | HighDepth.

Definition bit (f : index_t) : N :=
  match f with
  | IndelConflict => 0
  | SiteConflict => 1
  | LowGQX => 2
  | HighDepth => 3
  end%N.

End VCF_FILTERS.

Definition filter_set := N.

Definition set_filter (f : VCF_FILTERS.index_t) (fs : filter_set) : filter_set :=
  N.setbit fs (VCF_FILTERS.bit f).

Definition test_filter (f : VCF_FILTERS.index_t) (fs : filter_set) : bool :=
  N.testbit fs (VCF_FILTERS.bit f).

(** ** Sites *)

(** The output-genotype override of a site: [UNKNOWN], [ZERO] and [ONE] are
    the values the code assigns, [NONE] is a site with no override. *)
Module MODIFIED_SITE_GT.
Inductive index_t := NONE | UNKNOWN | ZERO | ONE.
End MODIFIED_SITE_GT.

Record result_set := {
  max_gt : N;
  max_gt_qphred : Z;
  snp_qphred : Z
}.

Record diploid_genotype := {
  is_snp : bool;
  ref_gt : N;
  genome : result_set;
  poly : result_set
}.

Record site_modifiers := {
  smod_is_unknown : bool;
  smod_is_covered : bool;
  smod_is_used_covered : bool;
  smod_is_zero_ploidy : bool;
  smod_is_block : bool;
  smod_modified_gt : MODIFIED_SITE_GT.index_t;
  smod_max_gt : N;
  smod_gqx : Z;
  smod_filters : filter_set
}.

Record site_info := {
  si_pos : pos_t;
  si_ref : ascii;
  n_used_calls : N;
  n_unused_calls : N;
  known_counts : list N;
  dgt : diploid_genotype;
  smod : site_modifiers
}.

Definition with_smod (si : site_info) (m : site_modifiers) : site_info :=
  {| si_pos := si_pos si; si_ref := si_ref si;
     n_used_calls := n_used_calls si; n_unused_calls := n_unused_calls si;
     known_counts := known_counts si; dgt := dgt si; smod := m |}.

Definition with_pos (si : site_info) (p : pos_t) : site_info :=
  {| si_pos := p; si_ref := si_ref si;
     n_used_calls := n_used_calls si; n_unused_calls := n_unused_calls si;
     known_counts := known_counts si; dgt := dgt si; smod := smod si |}.

Definition with_genome_snp_qphred (si : site_info) (q : Z) : site_info :=
  let d := dgt si in
  let g := genome d in
  {| si_pos := si_pos si; si_ref := si_ref si;
     n_used_calls := n_used_calls si; n_unused_calls := n_unused_calls si;
     known_counts := known_counts si;
     dgt := {| is_snp := is_snp d; ref_gt := ref_gt d;
               genome := {| max_gt := max_gt g;
                            max_gt_qphred := max_gt_qphred g;
                            snp_qphred := q |};
               poly := poly d |};
     smod := smod si |}.

Definition smod_with_filters (m : site_modifiers) (fs : filter_set) : site_modifiers :=
  {| smod_is_unknown := smod_is_unknown m; smod_is_covered := smod_is_covered m;
     smod_is_used_covered := smod_is_used_covered m;
     smod_is_zero_ploidy := smod_is_zero_ploidy m;
     smod_is_block := smod_is_block m;
     smod_modified_gt := smod_modified_gt m;
     smod_max_gt := smod_max_gt m; smod_gqx := smod_gqx m;
     smod_filters := fs |}.

Definition smod_with_gt (m : site_modifiers) (gt : N) (q : Z) : site_modifiers :=
  {| smod_is_unknown := smod_is_unknown m; smod_is_covered := smod_is_covered m;
     smod_is_used_covered := smod_is_used_covered m;
     smod_is_zero_ploidy := smod_is_zero_ploidy m;
     smod_is_block := smod_is_block m;
     smod_modified_gt := smod_modified_gt m;
     smod_max_gt := gt; smod_gqx := q;
     smod_filters := smod_filters m |}.

Definition smod_with_gqx (m : site_modifiers) (q : Z) : site_modifiers :=
  smod_with_gt m (smod_max_gt m) q.

Definition smod_with_modified_gt (m : site_modifiers)
  (g : MODIFIED_SITE_GT.index_t) : site_modifiers :=
  {| smod_is_unknown := smod_is_unknown m; smod_is_covered := smod_is_covered m;
     smod_is_used_covered := smod_is_used_covered m;
     smod_is_zero_ploidy := smod_is_zero_ploidy m;
     smod_is_block := smod_is_block m;
     smod_modified_gt := g;
     smod_max_gt := smod_max_gt m; smod_gqx := smod_gqx m;
     smod_filters := smod_filters m |}.

Definition smod_with_zero_ploidy (m : site_modifiers) (b : bool) : site_modifiers :=
  {| smod_is_unknown := smod_is_unknown m; smod_is_covered := smod_is_covered m;
     smod_is_used_covered := smod_is_used_covered m;
     smod_is_zero_ploidy := b;
     smod_is_block := smod_is_block m;
     smod_modified_gt := smod_modified_gt m;
     smod_max_gt := smod_max_gt m; smod_gqx := smod_gqx m;
     smod_filters := smod_filters m |}.

Definition smod_with_block (m : site_modifiers) (b : bool) : site_modifiers :=
  {| smod_is_unknown := smod_is_unknown m; smod_is_covered := smod_is_covered m;
     smod_is_used_covered := smod_is_used_covered m;
     smod_is_zero_ploidy := smod_is_zero_ploidy m;
     smod_is_block := b;
     smod_modified_gt := smod_modified_gt m;
     smod_max_gt := smod_max_gt m; smod_gqx := smod_gqx m;
     smod_filters := smod_filters m |}.

Definition smod_set_filter (f : VCF_FILTERS.index_t) (si : site_info) : site_info :=
  with_smod si (smod_with_filters (smod si) (set_filter f (smod_filters (smod si)))).

(** Modelled from the spec: [site_modifiers::clear], which gvcf_aggregator.hh
    declares and gvcf_aggregator.cpp only calls.  The derived fields start from
    no filter, no flag, no output-genotype override and zero quality. *)
Definition smod_clear : site_modifiers :=
  {| smod_is_unknown := false; smod_is_covered := false;
     smod_is_used_covered := false; smod_is_zero_ploidy := false;
     smod_is_block := false; smod_modified_gt := MODIFIED_SITE_GT.NONE;
     smod_max_gt := 0%N; smod_gqx := 0; smod_filters := 0%N |}.

(** ** Options *)

Record starling_options := {
  is_gvcf_min_gqx : bool;
  gvcf_min_gqx : Z;
  is_gvcf_max_depth : bool;
  gvcf_max_depth : Z;
  gvcf_block_max_nonref : float;
  gvcf_block_label : string
}.

(** ** Site modifiers: [set_site_gt], [set_site_filters], [add_site_modifiers] *)

Definition set_site_gt (rs : result_set) (m : site_modifiers) : site_modifiers :=
  smod_with_gt m (max_gt rs) (max_gt_qphred rs).

Definition set_site_filters (opt : starling_options) (si : site_info) : site_info :=
  let si1 :=
    if is_gvcf_min_gqx opt then
      if smod_gqx (smod si) <? gvcf_min_gqx opt
      then smod_set_filter VCF_FILTERS.LowGQX si else si
    else si in
  if is_gvcf_max_depth opt then
    if Z.of_N (unsigned_add (n_used_calls si1) (n_unused_calls si1))
         >? gvcf_max_depth opt
    then smod_set_filter VCF_FILTERS.HighDepth si1 else si1
  else si1.

Definition add_site_modifiers (opt : starling_options) (si : site_info) : site_info :=
  let m0 := smod_clear in
  let is_unknown := Ascii.eqb (si_ref si) "N"%char in
  let is_used_covered := negb (n_used_calls si =? 0)%N in
  let is_covered := is_used_covered || negb (n_unused_calls si =? 0)%N in
  let m1 :=
    {| smod_is_unknown := is_unknown; smod_is_covered := is_covered;
       smod_is_used_covered := is_used_covered;
       smod_is_zero_ploidy := smod_is_zero_ploidy m0;
       smod_is_block := smod_is_block m0;
       smod_modified_gt := smod_modified_gt m0;
       smod_max_gt := smod_max_gt m0; smod_gqx := smod_gqx m0;
       smod_filters := smod_filters m0 |} in
  let m2 :=
    if is_unknown then smod_with_gt m1 0%N 0
    else if negb (max_gt (genome (dgt si)) =? max_gt (poly (dgt si)))%N then
      (* if these two disagree then GQX should be 0 and GT should be genome *)
      smod_with_gt m1 (max_gt (genome (dgt si))) 0
    else if max_gt_qphred (genome (dgt si)) <? max_gt_qphred (poly (dgt si))
      then set_site_gt (genome (dgt si)) m1
      else set_site_gt (poly (dgt si)) m1 in
  set_site_filters opt (with_smod si m2).

(** ** Block eligibility: [is_site_record_blockable]

    [known_counts] has one entry per base; [ref_gt] indexes it. *)

Definition is_site_record_blockable (opt : starling_options) (si : site_info) : bool :=
  if is_snp (dgt si) then false
  else if negb (Ascii.eqb (si_ref si) "N"%char) then
    let reffrac :=
      PrimFloat.div
        (to_double (nth (N.to_nat (ref_gt (dgt si))) (known_counts si) 0%N))
        (to_double (n_used_calls si)) in
    if PrimFloat.leb (PrimFloat.add reffrac (gvcf_block_max_nonref opt)) 1%float
    then false else true
  else true.

(** ** Indels *)

(** The diploid indel genotypes: the code tests for [NOINDEL] and [HET];
    [HOM] is the remaining call. *)
Module STAR_DIINDEL.
Inductive index_t := NOINDEL | HOM | HET.

Definition eqb (a b : index_t) : bool :=
  match a, b with
  | NOINDEL, NOINDEL | HOM, HOM | HET, HET => true
  | _, _ => false
  end.
End STAR_DIINDEL.

(** The indel key is read through four accessors only; the record keeps
    what each of them returns. *)
Record indel_key := {
  is_breakpoint : bool;
  right_pos : pos_t;
  delete_length : N;
  insert_length : N
}.

Record starling_diploid_indel_core := {
  dindel_max_gt : STAR_DIINDEL.index_t;
  indel_qphred : Z;
  dindel_max_gt_qphred : Z
}.

Record starling_indel_report_info := {
  vcf_ref_seq : string;
  vcf_indel_seq : string
}.

Record starling_indel_sample_report_info := {
  depth : N
}.

Module ALIGNPATH.

Inductive align_t := MATCH | INSERT | DELETE.

Record path_segment := {
  type : align_t;
  length : N
}.

Definition path_t := list path_segment.

End ALIGNPATH.

Record indel_modifiers := {
  imod_gqx : Z;
  imod_filters : filter_set;
  cigar : ALIGNPATH.path_t;
  ploidy : list N;
  is_overlap : bool
}.

Record indel_info := {
  ii_pos : pos_t;
  ik : indel_key;
  dindel : starling_diploid_indel_core;
  iri : starling_indel_report_info;
  isri : starling_indel_sample_report_info;
  imod : indel_modifiers
}.

Definition with_imod (ii : indel_info) (m : indel_modifiers) : indel_info :=
  {| ii_pos := ii_pos ii; ik := ik ii; dindel := dindel ii; iri := iri ii;
     isri := isri ii; imod := m |}.

Definition with_dindel (ii : indel_info) (d : starling_diploid_indel_core) : indel_info :=
  {| ii_pos := ii_pos ii; ik := ik ii; dindel := d; iri := iri ii;
     isri := isri ii; imod := imod ii |}.

Definition with_iri (ii : indel_info) (r : starling_indel_report_info) : indel_info :=
  {| ii_pos := ii_pos ii; ik := ik ii; dindel := dindel ii; iri := r;
     isri := isri ii; imod := imod ii |}.

Definition imod_with_gqx (m : indel_modifiers) (q : Z) : indel_modifiers :=
  {| imod_gqx := q; imod_filters := imod_filters m; cigar := cigar m;
     ploidy := ploidy m; is_overlap := is_overlap m |}.

Definition imod_with_filters (m : indel_modifiers) (fs : filter_set) : indel_modifiers :=
  {| imod_gqx := imod_gqx m; imod_filters := fs; cigar := cigar m;
     ploidy := ploidy m; is_overlap := is_overlap m |}.

Definition imod_with_cigar (m : indel_modifiers) (c : ALIGNPATH.path_t) : indel_modifiers :=
  {| imod_gqx := imod_gqx m; imod_filters := imod_filters m; cigar := c;
     ploidy := ploidy m; is_overlap := is_overlap m |}.

Definition imod_with_ploidy (m : indel_modifiers) (p : list N) : indel_modifiers :=
  {| imod_gqx := imod_gqx m; imod_filters := imod_filters m; cigar := cigar m;
     ploidy := p; is_overlap := is_overlap m |}.

Definition imod_with_overlap (m : indel_modifiers) (b : bool) : indel_modifiers :=
  {| imod_gqx := imod_gqx m; imod_filters := imod_filters m; cigar := cigar m;
     ploidy := ploidy m; is_overlap := b |}.

Definition imod_set_filter (f : VCF_FILTERS.index_t) (ii : indel_info) : indel_info :=
  with_imod ii (imod_with_filters (imod ii) (set_filter f (imod_filters (imod ii)))).

(** Modelled from the spec: the modifiers of a record that
    [indel_info::init] has just stored ([init] is declared in
    gvcf_aggregator.hh and only called here): no filter, no alignment
    descriptor, no ploidy vector, not an overlap. *)
Definition imod_clear : indel_modifiers :=
  {| imod_gqx := 0; imod_filters := 0%N; cigar := []; ploidy := [];
     is_overlap := false |}.

(** Modelled from the spec: [indel_info::init] stores the call's five inputs
    and starts the derived modifiers over. *)
Definition init (pos : pos_t) (k : indel_key) (d : starling_diploid_indel_core)
  (r : starling_indel_report_info) (sr : starling_indel_sample_report_info)
  : indel_info :=
  {| ii_pos := pos; ik := k; dindel := d; iri := r; isri := sr;
     imod := imod_clear |}.

Definition is_het_indel (d : starling_diploid_indel_core) : bool :=
  STAR_DIINDEL.eqb (dindel_max_gt d) STAR_DIINDEL.HET.

Definition is_no_indel (d : starling_diploid_indel_core) : bool :=
  STAR_DIINDEL.eqb (dindel_max_gt d) STAR_DIINDEL.NOINDEL.

Definition is_simple_indel_overlap (indel_buffer : list indel_info) (size : nat) : bool :=
  match indel_buffer with
  | a :: b :: _ =>
      Nat.eqb size 2 && is_het_indel (dindel a) && is_het_indel (dindel b)
  | _ => false
  end.

(** ** Alignment descriptors and the ploidy vector *)

Definition path_segment_of (t : ALIGNPATH.align_t) (n : N) : ALIGNPATH.path_segment :=
  {| ALIGNPATH.type := t; ALIGNPATH.length := n |}.

Definition get_hap_cigar (k : indel_key) (lead trail : N) : ALIGNPATH.path_t :=
  (if (lead =? 0)%N then [] else [path_segment_of ALIGNPATH.MATCH lead])
  ++ (if (delete_length k =? 0)%N then []
      else [path_segment_of ALIGNPATH.DELETE (delete_length k)])
  ++ (if (insert_length k =? 0)%N then []
      else [path_segment_of ALIGNPATH.INSERT (insert_length k)])
  ++ (if (trail =? 0)%N then [] else [path_segment_of ALIGNPATH.MATCH trail]).

(** [v[i]++] on a vector of [unsigned]; an index past the end is an access
    outside the vector, which C++ leaves undefined: no result. *)
Fixpoint incr_at (i : nat) (v : list N) : option (list N) :=
  match v, i with
  | [], _ => None
  | x :: v', O => Some (unsigned_add x 1 :: v')
  | x :: v', S i' => v'' <- incr_at i' v' ;; Some (x :: v'')
  end.

(** The inner loop of [add_cigar_to_ploidy] over one match segment of length
    [j]: returns the offset and the vector after the segment. *)
Fixpoint add_match_to_ploidy (j : nat) (offset : Z) (pl : list N)
  : option (Z * list N) :=
  match j with
  | O => Some (offset, pl)
  | S j' =>
      pl' <- (if 0 <=? offset then incr_at (Z.to_nat offset) pl else Some pl) ;;
      add_match_to_ploidy j' (offset + 1) pl'
  end.

(** The outer loop of [add_cigar_to_ploidy], from segment [apath[i]] on with
    the running [offset].  The code's [offset] is an [int]; it is written
    without wrap-around, which it reaches only past 2^31 positions. *)
Fixpoint add_cigar_from (apath : ALIGNPATH.path_t) (offset : Z) (pl : list N)
  : option (list N) :=
  match apath with
  | [] => Some pl
  | ps :: rest =>
      match ALIGNPATH.type ps with
      | ALIGNPATH.MATCH =>
          r <- add_match_to_ploidy (N.to_nat (ALIGNPATH.length ps)) offset pl ;;
          add_cigar_from rest (fst r) (snd r)
      | ALIGNPATH.DELETE =>
          add_cigar_from rest (offset + Z.of_N (ALIGNPATH.length ps)) pl
      | ALIGNPATH.INSERT => add_cigar_from rest offset pl
      end
  end.

Definition add_cigar_to_ploidy (apath : ALIGNPATH.path_t) (pl : list N)
  : option (list N) :=
  add_cigar_from apath (-1) pl.

Definition add_indel_modifiers (opt : starling_options) (ii : indel_info) : indel_info :=
  let ii1 :=
    with_imod ii
      (imod_with_gqx (imod ii)
         (Z.min (indel_qphred (dindel ii)) (dindel_max_gt_qphred (dindel ii)))) in
  let ii2 :=
    if is_gvcf_min_gqx opt then
      if imod_gqx (imod ii1) <? gvcf_min_gqx opt
      then imod_set_filter VCF_FILTERS.LowGQX ii1 else ii1
    else ii1 in
  if is_gvcf_max_depth opt then
    if Z.of_N (depth (isri ii2)) >? gvcf_max_depth opt
    then imod_set_filter VCF_FILTERS.HighDepth ii2 else ii2
  else ii2.

(** ** The reference, the block and the aggregator's state *)

(** Modelled from the spec: the reference-sequence accessor
    [reference_contig_segment], which gvcf_aggregator.cpp only calls.  It
    supplies the substring of a given start and length. *)
Definition reference_contig_segment := pos_t -> ascii.

(** Modelled from the spec: [reference_contig_segment::get_substring], the
    [len] bases from [pos] on. *)
Definition get_substring (ref : reference_contig_segment) (pos len : Z) : string :=
  string_of_list_ascii
    (map (fun k => ref (pos + Z.of_nat k)) (seq 0 (Z.to_nat len))).

(** Modelled from the spec: the block accumulator [gvcf_block_site_record],
    which gvcf_aggregator.hh declares and gvcf_aggregator.cpp only uses: a run
    length, a frozen copy of the first member flagged as a block, and the
    running minimum of the members' quality.  A site is compatible with an
    open block when it has the genotype and filter signature of the first
    member and its position immediately follows the block's current end;
    joining increments the run length and folds the quality into the
    minimum. *)
Record gvcf_block_site_record := {
  count : Z;
  record : site_info;
  block_gqx : option Z
}.

(** Modelled from the spec: [gvcf_block_site_record::reset]. *)
Definition block_reset (b : gvcf_block_site_record) : gvcf_block_site_record :=
  {| count := 0; record := record b; block_gqx := None |}.

(** Modelled from the spec: [gvcf_block_site_record::test]. *)
Definition block_test (b : gvcf_block_site_record) (si : site_info) : bool :=
  (count b =? 0)
  || ((si_pos (record b) + count b =? si_pos si)
      && (smod_filters (smod (record b)) =? smod_filters (smod si))%N
      && (smod_max_gt (smod (record b)) =? smod_max_gt (smod si))%N).

(** Modelled from the spec: [gvcf_block_site_record::join]. *)
Definition block_join (b : gvcf_block_site_record) (si : site_info)
  : gvcf_block_site_record :=
  {| count := count b + 1;
     record := if count b =? 0
               then with_smod si (smod_with_block (smod si) true)
               else record b;
     block_gqx := Some (match block_gqx b with
                        | None => smod_gqx (smod si)
                        | Some m => Z.min m (smod_gqx (smod si))
                        end) |}.

(** Modelled from the spec: [block_gqx.min()], the minimum quality of the
    members. *)
Definition block_gqx_min (b : gvcf_block_site_record) : Z :=
  match block_gqx b with
  | Some m => m
  | None => 0
  end.

Definition block_with_count (b : gvcf_block_site_record) (c : Z)
  : gvcf_block_site_record :=
  {| count := c; record := record b; block_gqx := block_gqx b |}.

(** One line of the output stream, tagged with its writer:
    [write_site_record], [write_indel_record], or [process_overlaps]
    itself. *)
Inductive vcf_line :=
| SiteLine (text : string)
| IndelLine (text : string)
| OtherLine (text : string).

Definition line_text (l : vcf_line) : string :=
  match l with
  | SiteLine t | IndelLine t | OtherLine t => t
  end.

Definition is_indel_line (l : vcf_line) : bool :=
  match l with
  | IndelLine _ => true
  | _ => false
  end.

(** The members of the aggregator.  Each buffer is kept at its logical
    length: [_indel_buffer_size] and [_site_buffer_size] are the lengths of
    the two lists, and the storage past them, which the code only ever
    overwrites before reading, is left out. *)
Record gvcf_aggregator := {
  _opt : starling_options;
  _report_range : pos_t * pos_t;
  _ref : reference_contig_segment;
  _os : list vcf_line;
  _chrom : string;
  _indel_end_pos : pos_t;
  _indel_buffer : list indel_info;
  _site_buffer : list site_info;
  _block : gvcf_block_site_record;
  _head_pos : pos_t;
  _empty_site : site_info
}.

Definition _indel_buffer_size (s : gvcf_aggregator) : nat :=
  List.length (_indel_buffer s).

Definition _site_buffer_size (s : gvcf_aggregator) : nat :=
  List.length (_site_buffer s).

Definition with_os (s : gvcf_aggregator) (o : list vcf_line) : gvcf_aggregator :=
  {| _opt := _opt s; _report_range := _report_range s; _ref := _ref s;
     _os := o; _chrom := _chrom s; _indel_end_pos := _indel_end_pos s;
     _indel_buffer := _indel_buffer s; _site_buffer := _site_buffer s;
     _block := _block s; _head_pos := _head_pos s;
     _empty_site := _empty_site s |}.

Definition with_indel_end_pos (s : gvcf_aggregator) (p : pos_t) : gvcf_aggregator :=
  {| _opt := _opt s; _report_range := _report_range s; _ref := _ref s;
     _os := _os s; _chrom := _chrom s; _indel_end_pos := p;
     _indel_buffer := _indel_buffer s; _site_buffer := _site_buffer s;
     _block := _block s; _head_pos := _head_pos s;
     _empty_site := _empty_site s |}.

Definition with_indel_buffer (s : gvcf_aggregator) (b : list indel_info)
  : gvcf_aggregator :=
  {| _opt := _opt s; _report_range := _report_range s; _ref := _ref s;
     _os := _os s; _chrom := _chrom s; _indel_end_pos := _indel_end_pos s;
     _indel_buffer := b; _site_buffer := _site_buffer s;
     _block := _block s; _head_pos := _head_pos s;
     _empty_site := _empty_site s |}.

Definition with_site_buffer (s : gvcf_aggregator) (b : list site_info)
  : gvcf_aggregator :=
  {| _opt := _opt s; _report_range := _report_range s; _ref := _ref s;
     _os := _os s; _chrom := _chrom s; _indel_end_pos := _indel_end_pos s;
     _indel_buffer := _indel_buffer s; _site_buffer := b;
     _block := _block s; _head_pos := _head_pos s;
     _empty_site := _empty_site s |}.

Definition with_block (s : gvcf_aggregator) (b : gvcf_block_site_record)
  : gvcf_aggregator :=
  {| _opt := _opt s; _report_range := _report_range s; _ref := _ref s;
     _os := _os s; _chrom := _chrom s; _indel_end_pos := _indel_end_pos s;
     _indel_buffer := _indel_buffer s; _site_buffer := _site_buffer s;
     _block := b; _head_pos := _head_pos s;
     _empty_site := _empty_site s |}.

Definition with_head_pos (s : gvcf_aggregator) (p : pos_t) : gvcf_aggregator :=
  {| _opt := _opt s; _report_range := _report_range s; _ref := _ref s;
     _os := _os s; _chrom := _chrom s; _indel_end_pos := _indel_end_pos s;
     _indel_buffer := _indel_buffer s; _site_buffer := _site_buffer s;
     _block := _block s; _head_pos := p;
     _empty_site := _empty_site s |}.

Definition with_chrom (s : gvcf_aggregator) (c : string) : gvcf_aggregator :=
  {| _opt := _opt s; _report_range := _report_range s; _ref := _ref s;
     _os := _os s; _chrom := c; _indel_end_pos := _indel_end_pos s;
     _indel_buffer := _indel_buffer s; _site_buffer := _site_buffer s;
     _block := _block s; _head_pos := _head_pos s;
     _empty_site := _empty_site s |}.

(** [os << ...]: one more line at the end of the stream. *)
Definition emit (s : gvcf_aggregator) (l : vcf_line) : gvcf_aggregator :=
  with_os s (_os s ++ [l]).

(** Modelled from the spec: a default-constructed [site_info], declared in
    gvcf_aggregator.hh.  The synthesized site has an unknown reference base
    and no evidence. *)
Definition default_site_info : site_info :=
  {| si_pos := 0; si_ref := "N"%char; n_used_calls := 0%N;
     n_unused_calls := 0%N; known_counts := [0; 0; 0; 0]%N;
     dgt := {| is_snp := false; ref_gt := 0%N;
               genome := {| max_gt := 0%N; max_gt_qphred := 0; snp_qphred := 0 |};
               poly := {| max_gt := 0%N; max_gt_qphred := 0; snp_qphred := 0 |} |};
     smod := smod_clear |}.

(** Modelled from the spec: [get_empty_site], declared in
    gvcf_aggregator.hh, hands out the aggregator's empty site at the asked
    position. *)
Definition get_empty_site (s : gvcf_aggregator) (pos : pos_t) : site_info :=
  with_pos (_empty_site s) pos.

(** The constructor.  [_chrom] starts unset: a null pointer in the code, the
    empty name here; the runs below name the chromosome before anything is
    written. *)
Definition construct (opt : starling_options) (report_range : pos_t * pos_t)
  (ref : reference_contig_segment) : gvcf_aggregator :=
  {| _opt := opt; _report_range := report_range; _ref := ref; _os := [];
     _chrom := EmptyString; _indel_end_pos := 0; _indel_buffer := [];
     _site_buffer := [];
     _block := {| count := 0; record := default_site_info; block_gqx := None |};
     _head_pos := fst report_range;
     _empty_site := add_site_modifiers opt default_site_info |}.

(** ** What the aggregator calls from headers outside this source file

    [DIGT::is_het], [DIGT::expect2], [id_to_base] and [N_BASE] of the
    genotype library, the members [is_qual], [is_gqx], [write_filters],
    [get_gt] and [get_ploidy] of gvcf_aggregator.hh, and [operator<<] of an
    alignment path.  The aggregator is modelled over any implementation of
    them. *)
Class gvcf_header := {
  N_BASE : nat;
  DIGT_is_het : N -> bool;
  DIGT_expect2 : N -> N -> bool;
  id_to_base : N -> ascii;
  is_qual : site_modifiers -> bool;
  is_gqx : site_modifiers -> bool;
  write_filters : filter_set -> string;
  site_get_gt : site_info -> string;
  indel_get_gt : indel_info -> string;
  show_path : ALIGNPATH.path_t -> string;
  get_ploidy : indel_info -> Z -> N
}.

Section Aggregator.

Context {hdr : gvcf_header}.

(** *** Writing sites and blocks *)

Definition print_vcf_alt_step (gt ref_gt : N) (acc : string * bool) (b : nat)
  : string * bool :=
  let '(os, is_print) := acc in
  if (N.of_nat b =? ref_gt)%N then acc
  else if DIGT_expect2 (N.of_nat b) gt then
    ((os ++ (if is_print then "," else "") ++ show_char (id_to_base (N.of_nat b)))%string,
     true)
  else acc.

Definition print_vcf_alt (gt ref_gt : N) : string :=
  let '(os, is_print) :=
    fold_left (print_vcf_alt_step gt ref_gt) (seq 0 N_BASE) (EmptyString, false) in
  if is_print then os else (os ++ ".")%string.

(** The sample column of a site record, as [write_site_record] writes it. *)
Definition site_sample_field (s : gvcf_aggregator) (si : site_info) : string :=
  (site_get_gt si ++ ";"
   ++ (if is_gqx (smod si) then
         if smod_is_block (smod si) then show_Z (block_gqx_min (_block s))
         else show_Z (smod_gqx (smod si))
       else "."))%string.

Definition site_record_text (s : gvcf_aggregator) (si : site_info) : string :=
  (_chrom s ++ TAB                                   (* CHROM *)
   ++ show_Z (si_pos si + 1) ++ TAB                  (* POS *)
   ++ "." ++ TAB                                     (* ID *)
   ++ show_char (si_ref si) ++ TAB                   (* REF *)
   ++ (if smod_is_unknown (smod si) || smod_is_block (smod si) then "."
       else print_vcf_alt (smod_max_gt (smod si)) (ref_gt (dgt si)))
   ++ TAB                                            (* ALT *)
   ++ (if is_qual (smod si) then show_Z (snp_qphred (genome (dgt si))) else ".")
   ++ TAB                                            (* QUAL *)
   ++ write_filters (smod_filters (smod si)) ++ TAB  (* FILTER *)
   ++ (if smod_is_block (smod si)
       then "END=" ++ show_Z (si_pos si + count (_block s)) ++ ";"
            ++ gvcf_block_label (_opt s)
       else ".")
   ++ TAB                                            (* INFO *)
   ++ "GT:GQX" ++ TAB                                (* FORMAT *)
   ++ site_sample_field s si ++ NL)%string.          (* SAMPLE *)

Definition write_site_record (s : gvcf_aggregator) (si : site_info) : gvcf_aggregator :=
  emit s (SiteLine (site_record_text s si)).

(** Modelled from the spec: [write_block_site_record], which
    gvcf_aggregator.hh declares and gvcf_aggregator.cpp only calls.  An open
    block is written as one record and the block starts over; with no open
    block nothing happens. *)
Definition write_block_site_record (s : gvcf_aggregator) : gvcf_aggregator :=
  if count (_block s) <=? 0 then s
  else
    let s1 := write_site_record s (record (_block s)) in
    with_block s1 (block_reset (_block s1)).

Definition queue_site_record (s : gvcf_aggregator) (si : site_info) : gvcf_aggregator :=
  let s1 :=
    if negb (is_site_record_blockable (_opt s) si)
    then write_site_record (write_block_site_record s) si
    else s in
  let s2 :=
    if negb (block_test (_block s1) si)
    then write_block_site_record s1
    else s1 in
  with_block s2 (block_join (_block s2) si).

(** *** Adjusting the buffered indels *)

Definition modify_single_indel_record (s : gvcf_aggregator) : option gvcf_aggregator :=
  _ <- assert_ok (Nat.eqb (_indel_buffer_size s) 1) ;;
  match _indel_buffer s with
  | ii :: rest =>
      let ii1 := with_imod ii (imod_with_cigar (imod ii) (get_hap_cigar (ik ii) 1 0)) in
      Some (with_indel_buffer s (add_indel_modifiers (_opt s) ii1 :: rest))
  | [] => None
  end.

(** [v.resize(n,0)]; a negative [n] is no size the vector can take. *)
Definition resize (n : Z) (v : list N) : option (list N) :=
  if n <? 0 then None
  else Some (firstn (Z.to_nat n) v ++ repeat 0%N (Z.to_nat n - List.length v)).

(** The two [if]s that reduce the first record's qualities to the lowest of
    the set. *)
Definition reduce_qual (ii other : indel_info) : indel_info :=
  let d := dindel ii in
  let q :=
    if indel_qphred d >? indel_qphred (dindel other)
    then indel_qphred (dindel other) else indel_qphred d in
  let g :=
    if dindel_max_gt_qphred d >? dindel_max_gt_qphred (dindel other)
    then dindel_max_gt_qphred (dindel other) else dindel_max_gt_qphred d in
  with_dindel ii
    {| dindel_max_gt := dindel_max_gt d; indel_qphred := q;
       dindel_max_gt_qphred := g |}.

(** The per-haplotype part of [modify_overlap_indel_record] that rewrites
    [_indel_buffer[hap]] itself: its extended allele and its descriptor. *)
Definition extend_haplotype (s : gvcf_aggregator) (indel_begin_pos : pos_t)
  (h : indel_info) : indel_info :=
  let leading_seq :=
    get_substring (_ref s) indel_begin_pos ((ii_pos h - indel_begin_pos) - 1) in
  let trail_len := to_unsigned (_indel_end_pos s - right_pos (ik h)) in
  let trailing_seq :=
    get_substring (_ref s) (_indel_end_pos s - Z.of_N trail_len) (Z.of_N trail_len) in
  let h1 :=
    with_iri h
      {| vcf_ref_seq := vcf_ref_seq (iri h);
         vcf_indel_seq :=
           (leading_seq ++ vcf_indel_seq (iri h) ++ trailing_seq)%string |} in
  with_imod h1
    (imod_with_cigar (imod h1)
       (get_hap_cigar (ik h1)
          (to_unsigned (Z.of_nat (String.length leading_seq) + 1))
          (to_unsigned (Z.of_nat (String.length trailing_seq))))).

Definition modify_overlap_indel_record (s : gvcf_aggregator) : option gvcf_aggregator :=
  _ <- assert_ok (Nat.eqb (_indel_buffer_size s) 2) ;;
  match _indel_buffer s with
  | ii :: other :: rest =>
      let ii1 := with_imod ii (imod_with_overlap (imod ii) true) in
      let indel_begin_pos := ii_pos ii1 - 1 in
      let ii2 :=
        with_iri ii1
          {| vcf_ref_seq :=
               get_substring (_ref s) indel_begin_pos
                 (_indel_end_pos s - indel_begin_pos);
             vcf_indel_seq := vcf_indel_seq (iri ii1) |} in
      pl <- resize (_indel_end_pos s - ii_pos ii2) (ploidy (imod ii2)) ;;
      let ii3 := with_imod ii2 (imod_with_ploidy (imod ii2) pl) in
      (* hap 0 *)
      let ii4 := extend_haplotype s indel_begin_pos ii3 in
      pl0 <- add_cigar_to_ploidy (cigar (imod ii4)) (ploidy (imod ii4)) ;;
      let ii5 := with_imod ii4 (imod_with_ploidy (imod ii4) pl0) in
      (* hap 1 *)
      let ii6 := reduce_qual ii5 other in
      let other1 := extend_haplotype s indel_begin_pos other in
      pl1 <- add_cigar_to_ploidy (cigar (imod other1)) (ploidy (imod ii6)) ;;
      let ii7 := with_imod ii6 (imod_with_ploidy (imod ii6) pl1) in
      Some (with_indel_buffer s (add_indel_modifiers (_opt s) ii7 :: other1 :: rest))
  | _ => None
  end.

Definition conflict_indel_record (opt : starling_options) (ii : indel_info) : indel_info :=
  let ii1 := with_imod ii (imod_with_cigar (imod ii) (get_hap_cigar (ik ii) 1 0)) in
  add_indel_modifiers opt (imod_set_filter VCF_FILTERS.IndelConflict ii1).

Definition modify_conflict_indel_record (s : gvcf_aggregator) : option gvcf_aggregator :=
  _ <- assert_ok (Nat.ltb 1 (_indel_buffer_size s)) ;;
  Some (with_indel_buffer s (map (conflict_indel_record (_opt s)) (_indel_buffer s))).

(** *** Adjusting the buffered sites *)

Definition modify_indel_overlap_site (opt : starling_options) (ii : indel_info)
  (ploidy : N) (si : site_info) : option site_info :=
  (* inherit any filters from the indel *)
  let si0 :=
    with_smod si
      (smod_with_filters (smod si)
         (N.land (smod_filters (smod si)) (imod_filters (imod ii)))) in
  si1 <-
    (if (ploidy =? 1)%N then
       (* limit qual and gq values to those of the indel *)
       let sa :=
         with_genome_snp_qphred si0
           (Z.min (snp_qphred (genome (dgt si0))) (indel_qphred (dindel ii))) in
       let sb :=
         with_smod sa
           (smod_with_gqx (smod sa)
              (Z.min (smod_gqx (smod sa)) (dindel_max_gt_qphred (dindel ii)))) in
       if DIGT_is_het (smod_max_gt (smod sb)) then
         let sc := smod_set_filter VCF_FILTERS.SiteConflict sb in
         Some (with_smod sc (smod_with_modified_gt (smod sc) MODIFIED_SITE_GT.UNKNOWN))
       else if (smod_max_gt (smod sb) =? ref_gt (dgt sb))%N then
         Some (with_smod sb (smod_with_modified_gt (smod sb) MODIFIED_SITE_GT.ZERO))
       else
         Some (with_smod sb (smod_with_modified_gt (smod sb) MODIFIED_SITE_GT.ONE))
     else if (ploidy =? 0)%N then
       let sa := with_smod si0 (smod_with_modified_gt (smod si0) MODIFIED_SITE_GT.UNKNOWN) in
       Some (with_smod sa (smod_with_zero_ploidy (smod sa) true))
     else None) ;;
  (* after all those changes we need to rerun the site filters *)
  Some (set_site_filters opt si1).

Definition modify_indel_conflict_site (si : site_info) : site_info :=
  smod_set_filter VCF_FILTERS.IndelConflict si.

(** The loop of [process_overlaps] over the site buffer, against the first
    buffered indel [ii0]. *)
Fixpoint adjust_sites (opt : starling_options) (is_conflict_print : bool)
  (ii0 : indel_info) (sites : list site_info) : option (list site_info) :=
  match sites with
  | [] => Some []
  | si :: rest =>
      let offset := si_pos si - ii_pos ii0 in
      _ <- assert_ok (0 <=? offset) ;;
      si' <-
        (if negb is_conflict_print
         then modify_indel_overlap_site opt ii0 (get_ploidy ii0 offset) si
         else Some (modify_indel_conflict_site si)) ;;
      rest' <- adjust_sites opt is_conflict_print ii0 rest ;;
      Some (si' :: rest')
  end.

(** *** Writing indels *)

(** [_indel_buffer[i]] for [i] from [write_index] to [end_index]. *)
Fixpoint indel_range (buf : list indel_info) (i n : nat) : option (list indel_info) :=
  match n with
  | O => Some []
  | S n' =>
      x <- nth_error buf i ;;
      l <- indel_range buf (S i) n' ;;
      Some (x :: l)
  end.

Definition indel_record_text (chrom : string) (ii : indel_info)
  (members : list indel_info) : string :=
  (chrom ++ TAB                                               (* CHROM *)
   ++ show_Z (ii_pos ii) ++ TAB                               (* POS *)
   ++ "." ++ TAB                                              (* ID *)
   ++ vcf_ref_seq (iri ii) ++ TAB                             (* REF *)
   ++ String.concat "," (map (fun m => vcf_indel_seq (iri m)) members)
   ++ TAB                                                     (* ALT *)
   ++ show_Z (indel_qphred (dindel ii)) ++ TAB                (* QUAL *)
   ++ write_filters (imod_filters (imod ii)) ++ TAB           (* FILTER *)
   ++ "CIGAR="
   ++ String.concat "," (map (fun m => show_path (cigar (imod m))) members)
   ++ TAB                                                     (* INFO *)
   ++ "GT:GQX" ++ TAB                                         (* FORMAT *)
   ++ indel_get_gt ii ++ ":" ++ show_Z (imod_gqx (imod ii)) ++ NL)%string.

(** The records are read from the buffer at its logical length.  An index
    at or past [_indel_buffer_size], which [process_overlaps] never asks
    for, would read storage that is left out here: no result. *)
Definition write_indel_record (s : gvcf_aggregator) (write_index : nat)
  : option gvcf_aggregator :=
  _ <- assert_ok (Nat.ltb 0 (_indel_buffer_size s)) ;;
  (* flush any non-variant block before starting *)
  let s1 := write_block_site_record s in
  ii <- nth_error (_indel_buffer s1) write_index ;;
  let end_index := if is_overlap (imod ii) then S write_index else write_index in
  members <- indel_range (_indel_buffer s1) write_index (S end_index - write_index) ;;
  Some (emit s1 (IndelLine (indel_record_text (_chrom s1) ii members))).

(** *** [process_overlaps] *)

(** The [while(true)] loop that merges indels and sites by position.  Every
    round advances one of the two indices, so [_indel_buffer_size +
    _site_buffer_size] rounds are enough: from there on the result does not
    depend on the fuel ([write_merged_fuel]). *)
Fixpoint write_merged (fuel : nat) (is_conflict_print : bool)
  (indel_index site_index : nat) (s : gvcf_aggregator) : option gvcf_aggregator :=
  let is_indel := Nat.ltb indel_index (_indel_buffer_size s) in
  let is_site := Nat.ltb site_index (_site_buffer_size s) in
  if negb (is_indel || is_site) then Some s
  else
    match fuel with
    | O => None
    | S fuel' =>
        let indel_first :=
          is_indel
          && (negb is_site
              || match nth_error (_indel_buffer s) indel_index,
                       nth_error (_site_buffer s) site_index with
                 | Some ii, Some si => ii_pos ii <=? si_pos si
                 | _, _ => false
                 end) in
        if indel_first then
          (* print indel *)
          s1 <- write_indel_record s indel_index ;;
          write_merged fuel' is_conflict_print
            (if is_conflict_print then S indel_index else _indel_buffer_size s1)
            site_index s1
        else
          (* print site *)
          si <- nth_error (_site_buffer s) site_index ;;
          write_merged fuel' is_conflict_print indel_index (S site_index)
            (queue_site_record s si)
    end.

Definition process_overlaps (s : gvcf_aggregator) : option gvcf_aggregator :=
  if Nat.eqb (_indel_buffer_size s) 0 then Some s
  else
    (* do the overlap processing *)
    r <-
      (if Nat.eqb (_indel_buffer_size s) 1 then
         s1 <- modify_single_indel_record s ;; Some (s1, false)
       else if is_simple_indel_overlap (_indel_buffer s) (_indel_buffer_size s) then
         s1 <- modify_overlap_indel_record s ;; Some (s1, false)
       else
         s1 <- modify_conflict_indel_record s ;; Some (s1, true)) ;;
    let '(s1, is_conflict_print) := r in
    let s2 :=
      emit s1
        (OtherLine ("INDEL_SIZE: " ++ show_Z (Z.of_nat (_indel_buffer_size s1)) ++ NL)%string) in
    (* process sites to be consistent with overlapping indels *)
    ii0 <- nth_error (_indel_buffer s2) 0 ;;
    sites <- adjust_sites (_opt s2) is_conflict_print ii0 (_site_buffer s2) ;;
    let s3 := with_site_buffer s2 sites in
    s4 <- write_merged (_indel_buffer_size s3 + _site_buffer_size s3)
            is_conflict_print 0 0 s3 ;;
    Some (with_site_buffer (with_indel_buffer s4 []) []).

(** *** Submitting sites and indels *)

Definition add_site_internal (s : gvcf_aggregator) (si : site_info)
  : option gvcf_aggregator :=
  let s0 := with_head_pos s (si_pos si + 1) in
  if negb (Nat.eqb (_indel_buffer_size s0) 0) then
    if si_pos si >=? _indel_end_pos s0 then
      s1 <- process_overlaps s0 ;;
      Some (queue_site_record s1 si)
    else Some (with_site_buffer s0 (_site_buffer s0 ++ [si]))
  else Some (queue_site_record s0 si).

(** The [while] loop of [skip_to_pos].  Every round moves [_head_pos] up by
    at least one, so [target_pos - _head_pos] rounds are enough: from there
    on the result does not depend on the fuel ([skip_to_pos_loop_fuel]). *)
Fixpoint skip_to_pos_loop (fuel : nat) (s : gvcf_aggregator) (target_pos : pos_t)
  : option gvcf_aggregator :=
  if _head_pos s <? target_pos then
    match fuel with
    | O => None
    | S fuel' =>
        s1 <- add_site_internal s (get_empty_site s (_head_pos s)) ;;
        if negb (Nat.eqb (_indel_buffer_size s1) 0)
        then skip_to_pos_loop fuel' s1 target_pos
        else
          _ <- assert_ok (negb (count (_block s1) =? 0)) ;;
          let s2 :=
            with_block s1
              (block_with_count (_block s1)
                 (count (_block s1) + (target_pos - _head_pos s1))) in
          skip_to_pos_loop fuel' (with_head_pos s2 target_pos) target_pos
    end
  else Some s.

Definition skip_to_pos (s : gvcf_aggregator) (target_pos : pos_t)
  : option gvcf_aggregator :=
  skip_to_pos_loop (Z.to_nat (target_pos - _head_pos s)) s target_pos.

Definition add_site (s : gvcf_aggregator) (si : site_info) : option gvcf_aggregator :=
  s1 <- skip_to_pos s (si_pos si) ;;
  add_site_internal s1 (add_site_modifiers (_opt s1) si).

Definition add_indel (s : gvcf_aggregator) (pos : pos_t) (k : indel_key)
  (d : starling_diploid_indel_core) (r : starling_indel_report_info)
  (sr : starling_indel_sample_report_info) : option gvcf_aggregator :=
  (* we can't handle breakends at all right now *)
  if is_breakpoint k then Some s
  (* don't handle max_gt=="ref" cases for now *)
  else if is_no_indel d then Some s
  else
    s1 <- skip_to_pos s pos ;;
    (* check to see if we add this indel to the buffer *)
    s2 <-
      (if negb (Nat.eqb (_indel_buffer_size s1) 0) then
         (* check if this indel overlaps the buffer *)
         if pos <=? _indel_end_pos s1
         then Some (with_indel_end_pos s1 (Z.max (_indel_end_pos s1) (right_pos k)))
         else process_overlaps s1
       else Some s1) ;;
    let s3 := with_indel_buffer s2 (_indel_buffer s2 ++ [init pos k d r sr]) in
    Some (with_indel_end_pos s3 (right_pos k)).

(** The destructor: the end-of-stream finalization. *)
Definition destruct_aggregator (s : gvcf_aggregator) : option gvcf_aggregator :=
  s1 <- skip_to_pos s (snd (_report_range s) + 1) ;;
  process_overlaps s1.

End Aggregator.

(** ** An implementation of the interface

    Modelled from the spec: one implementation of [gvcf_header], used to run
    the model on concrete inputs; the general theorems hold for every
    implementation.  The filter column is "." when no filter is set and the
    names joined by semicolons otherwise; quality columns are "." where not
    applicable; a site's genotype label is its output-genotype override when
    there is one; the ploidy of a position is read from the first record's
    vector and, where the vector has no entry, from the indel's own
    genotype.  Genotypes 0 to 3 are the homozygous ones and 4 to 9 the
    heterozygous ones. *)

Definition sample_show_segment (ps : ALIGNPATH.path_segment) : string :=
  (show_N (ALIGNPATH.length ps)
   ++ match ALIGNPATH.type ps with
      | ALIGNPATH.MATCH => "M"
      | ALIGNPATH.INSERT => "I"
      | ALIGNPATH.DELETE => "D"
      end)%string.

Definition sample_filter_names (fs : filter_set) : list string :=
  (if test_filter VCF_FILTERS.IndelConflict fs then ["IndelConflict"%string] else [])
  ++ (if test_filter VCF_FILTERS.SiteConflict fs then ["SiteConflict"%string] else [])
  ++ (if test_filter VCF_FILTERS.LowGQX fs then ["LowGQX"%string] else [])
  ++ (if test_filter VCF_FILTERS.HighDepth fs then ["HighDepth"%string] else []).

Definition sample_site_gt (si : site_info) : string :=
  match smod_modified_gt (smod si) with
  | MODIFIED_SITE_GT.UNKNOWN => "."
  | MODIFIED_SITE_GT.ZERO => "0"
  | MODIFIED_SITE_GT.ONE => "1"
  | MODIFIED_SITE_GT.NONE =>
      if (smod_max_gt (smod si) =? ref_gt (dgt si))%N then "0/0"
      else if (smod_max_gt (smod si) <? 4)%N then "1/1" else "0/1"
  end.

Definition sample_indel_gt (ii : indel_info) : string :=
  match dindel_max_gt (dindel ii) with
  | STAR_DIINDEL.NOINDEL => "0/0"
  | STAR_DIINDEL.HOM => "1/1"
  | STAR_DIINDEL.HET => if is_overlap (imod ii) then "1/2" else "0/1"
  end.

Definition sample_get_ploidy (ii : indel_info) (offset : Z) : N :=
  match nth_error (ploidy (imod ii)) (Z.to_nat offset) with
  | Some p => p
  | None =>
      match dindel_max_gt (dindel ii) with
      | STAR_DIINDEL.HOM => 0
      | STAR_DIINDEL.HET => 1
      | STAR_DIINDEL.NOINDEL => 2
      end%N
  end.

#[export] Instance sample_header : gvcf_header := {|
  N_BASE := 4;
  DIGT_is_het := fun gt => (4 <=? gt)%N;
  DIGT_expect2 := fun b gt =>
    if (gt <? 4)%N then (b =? gt)%N
    else existsb (fun pr => (fst pr =? gt)%N && ((fst (snd pr) =? b) || (snd (snd pr) =? b))%N)
           [(4, (0, 1)); (5, (0, 2)); (6, (0, 3)); (7, (1, 2)); (8, (1, 3)); (9, (2, 3))]%N;
  id_to_base := fun b => nth (N.to_nat b) ["A"; "C"; "G"; "T"]%char "N"%char;
  is_qual := fun m => negb (smod_is_unknown m) && smod_is_used_covered m
                      && negb (smod_is_zero_ploidy m) && negb (smod_is_block m);
  is_gqx := fun m => negb (smod_is_unknown m) && smod_is_used_covered m
                     && negb (smod_is_zero_ploidy m);
  write_filters := fun fs =>
    match sample_filter_names fs with
    | [] => "."%string
    | l => String.concat ";" l
    end;
  site_get_gt := sample_site_gt;
  indel_get_gt := sample_indel_gt;
  show_path := fun p => String.concat "" (map sample_show_segment p);
  get_ploidy := sample_get_ploidy
|}.


(** ** Reference readings used in the statements *)

(** The filters that [modify_indel_overlap_site] can add to a site after it
    has intersected the site's filters with the indel's: the site-conflict
    filter of a heterozygous site at ploidy 1, and the two filters of the
    re-run site rules, on the adjusted quality [gqx']. *)
Definition added_after_inherit {hdr : gvcf_header} (opt : starling_options)
  (p : N) (si : site_info) (gqx' : Z) (f : VCF_FILTERS.index_t) : bool :=
  match f with
  | VCF_FILTERS.IndelConflict => false
  | VCF_FILTERS.SiteConflict => (p =? 1)%N && DIGT_is_het (smod_max_gt (smod si))
  | VCF_FILTERS.LowGQX => is_gvcf_min_gqx opt && (gqx' <? gvcf_min_gqx opt)
  | VCF_FILTERS.HighDepth =>
      is_gvcf_max_depth opt
      && (Z.of_N (unsigned_add (n_used_calls si) (n_unused_calls si))
            >? gvcf_max_depth opt)
  end.

(** The ploidy [process_overlaps] looks up for a buffered site, against the
    first buffered indel. *)
Definition site_ploidy {hdr : gvcf_header} (ii0 : indel_info) (si : site_info) : N :=
  get_ploidy ii0 (si_pos si - ii_pos ii0).

(** A buffered site that the loop over the site buffer can adjust without
    failing an assertion: it is not before the first indel and its ploidy is
    0 or 1. *)
Definition adjustable {hdr : gvcf_header} (ii0 : indel_info) (si : site_info) : Prop :=
  0 <= si_pos si - ii_pos ii0 /\ (site_ploidy ii0 si = 0 \/ site_ploidy ii0 si = 1)%N.

(** Whether reference offset [k] lies under a match segment of [apath] when
    the path is laid out from [offset] on: match and delete segments take up
    reference positions, insert segments none. *)
Fixpoint matched_at (apath : ALIGNPATH.path_t) (offset k : Z) : bool :=
  match apath with
  | [] => false
  | ps :: rest =>
      match ALIGNPATH.type ps with
      | ALIGNPATH.MATCH =>
          ((offset <=? k) && (k <? offset + Z.of_N (ALIGNPATH.length ps)))
          || matched_at rest (offset + Z.of_N (ALIGNPATH.length ps)) k
      | ALIGNPATH.DELETE =>
          matched_at rest (offset + Z.of_N (ALIGNPATH.length ps)) k
      | ALIGNPATH.INSERT => matched_at rest offset k
      end
  end.

(** The reference positions a path takes up. *)
Fixpoint ref_length (apath : ALIGNPATH.path_t) : Z :=
  match apath with
  | [] => 0
  | ps :: rest =>
      match ALIGNPATH.type ps with
      | ALIGNPATH.INSERT => ref_length rest
      | _ => Z.of_N (ALIGNPATH.length ps) + ref_length rest
      end
  end.

(** What one haplotype adds to the ploidy at offset [k] of the vector: the
    descriptor starts one position before the vector does. *)
Definition hap_ploidy (apath : ALIGNPATH.path_t) (k : Z) : N :=
  if matched_at apath (-1) k then 1%N else 0%N.

(** The reference positions an indel deletes. *)
Definition in_deletion (ii : indel_info) (p : pos_t) : bool :=
  (ii_pos ii <=? p) && (p <? right_pos (ik ii)).

(** A buffered pair that [modify_overlap_indel_record] can merge: the two
    records as [add_indel] stored them, in position order, each reaching its
    right boundary by its deletion, and [_indel_end_pos] at or past both
    right boundaries. *)
Definition overlap_pair (s : gvcf_aggregator) (a b : indel_info) : Prop :=
  _indel_buffer s = [a; b]
  /\ ploidy (imod a) = []
  /\ ii_pos a <= ii_pos b
  /\ right_pos (ik a) = ii_pos a + Z.of_N (delete_length (ik a))
  /\ right_pos (ik b) = ii_pos b + Z.of_N (delete_length (ik b))
  /\ right_pos (ik a) <= _indel_end_pos s
  /\ right_pos (ik b) <= _indel_end_pos s
  /\ _indel_end_pos s - ii_pos a + 1 < 2 ^ 32.

(** The indel records of the output stream, in the order written. *)
Definition indel_lines (s : gvcf_aggregator) : list vcf_line :=
  filter is_indel_line (_os s).

(** [s'] differs from [s] by site lines and the block only. *)
Definition same_group (s s' : gvcf_aggregator) : Prop :=
  _indel_buffer s' = _indel_buffer s
  /\ _site_buffer s' = _site_buffer s
  /\ _chrom s' = _chrom s
  /\ _opt s' = _opt s
  /\ indel_lines s' = indel_lines s.

(** [s'] has the buffers and the cursor of [s]. *)
Definition same_buffers (s s' : gvcf_aggregator) : Prop :=
  _indel_buffer s' = _indel_buffer s
  /\ _site_buffer s' = _site_buffer s
  /\ _head_pos s' = _head_pos s.

(** The indels and the sites of a group in one sequence by position, an
    indel before a site of the same position. *)
Fixpoint merge_order (indels : list indel_info) (sites : list site_info)
  : list (indel_info + site_info) :=
  match indels with
  | [] => map inr sites
  | ii :: indels' =>
      (fix merge_sites (sites : list site_info) : list (indel_info + site_info) :=
         match sites with
         | [] => inl ii :: merge_order indels' []
         | si :: sites' =>
             if ii_pos ii <=? si_pos si
             then inl ii :: merge_order indels' sites
             else inr si :: merge_sites sites'
         end) sites
  end.

(** One emission of a conflict group: an indel is written as a record of its
    own, after the open block; a site is queued. *)
Definition emit_conflict_event {hdr : gvcf_header} (s : gvcf_aggregator)
  (x : indel_info + site_info) : gvcf_aggregator :=
  match x with
  | inl ii =>
      emit (write_block_site_record s)
        (IndelLine (indel_record_text (_chrom s) ii [ii]))
  | inr si => queue_site_record s si
  end.

Fixpoint lefts {A B : Type} (l : list (A + B)) : list A :=
  match l with
  | [] => []
  | inl a :: l' => a :: lefts l'
  | inr _ :: l' => lefts l'
  end.

(** [adjustable] as a test. *)
Definition adjustableb {hdr : gvcf_header} (ii0 : indel_info) (si : site_info) : bool :=
  (0 <=? si_pos si - ii_pos ii0)
  && ((site_ploidy ii0 si =? 0)%N || (site_ploidy ii0 si =? 1)%N).

(** ** Inputs for running the model *)

Definition ex_opt : starling_options :=
  {| is_gvcf_min_gqx := true; gvcf_min_gqx := 30;
     is_gvcf_max_depth := false; gvcf_max_depth := 0;
     gvcf_block_max_nonref := 0.25%float;
     gvcf_block_label := "BLOCKAVG_min30p3a" |}.

Definition ex_ref : reference_contig_segment := fun _ => "A"%char.

(** An aggregator over the region [0, 10]. *)
Definition ex_aggregator : gvcf_aggregator :=
  with_chrom (construct ex_opt (0, 10) ex_ref) "chr1".

(** A covered site at [pos] with reference base A, both models choosing
    genotype [gt] with quality [q]; [nref] of its ten calls support the
    reference. *)
Definition ex_site (pos : pos_t) (gt : N) (q : Z) (nref : N) : site_info :=
  {| si_pos := pos; si_ref := "A"%char; n_used_calls := 10%N;
     n_unused_calls := 0%N; known_counts := [nref; 10 - nref; 0; 0]%N;
     dgt := {| is_snp := negb (gt =? 0)%N; ref_gt := 0%N;
               genome := {| max_gt := gt; max_gt_qphred := q; snp_qphred := q |};
               poly := {| max_gt := gt; max_gt_qphred := q; snp_qphred := q |} |};
     smod := smod_clear |}.

(** A deletion of [len] bases at [pos], or an insertion of one base there
    when [len] is 0. *)
Definition ex_key (pos : pos_t) (len : N) : indel_key :=
  {| is_breakpoint := false; right_pos := pos + Z.of_N len;
     delete_length := len; insert_length := if (len =? 0)%N then 1%N else 0%N |}.

Definition ex_dindel (gt : STAR_DIINDEL.index_t) (q g : Z) : starling_diploid_indel_core :=
  {| dindel_max_gt := gt; indel_qphred := q; dindel_max_gt_qphred := g |}.

Definition ex_iri (alt : string) : starling_indel_report_info :=
  {| vcf_ref_seq := "AAAA"; vcf_indel_seq := alt |}.

Definition ex_isri : starling_indel_sample_report_info := {| depth := 20%N |}.

Definition ex_het (q g : Z) : starling_diploid_indel_core :=
  ex_dindel STAR_DIINDEL.HET q g.

(** The state a run ends in, or [d] when the run has no result. *)
Definition run_or (d : gvcf_aggregator) (r : option gvcf_aggregator) : gvcf_aggregator :=
  match r with
  | Some s => s
  | None => d
  end.


(** Two heterozygous deletions, of positions 5 to 7 and 6 to 8, and a
    heterozygous site at position 8, all pending. *)
Definition ex_a : indel_info := init 5 (ex_key 5 3) (ex_het 60 50) (ex_iri "A") ex_isri.
Definition ex_b : indel_info := init 6 (ex_key 6 3) (ex_het 45 70) (ex_iri "A") ex_isri.

Definition ex_pair_state : gvcf_aggregator :=
  run_or ex_aggregator
    (s1 <- add_indel ex_aggregator 5 (ex_key 5 3) (ex_het 60 50) (ex_iri "A") ex_isri ;;
     s2 <- add_indel s1 6 (ex_key 6 3) (ex_het 45 70) (ex_iri "A") ex_isri ;;
     add_site s2 (ex_site 8 4 50 5)).

(** The first record of that pair after the merge. *)
Definition ex_merged : indel_info :=
  match modify_overlap_indel_record ex_pair_state with
  | Some s => hd ex_a (_indel_buffer s)
  | None => ex_a
  end.

(** A first record whose ploidy vector holds a 2. *)
Definition ex_diploid : indel_info :=
  with_imod ex_a (imod_with_ploidy (imod ex_a) [2%N]).

(** The same calls with the first deletion homozygous: a conflict. *)
Definition ex_hom : indel_info :=
  init 5 (ex_key 5 3) (ex_dindel STAR_DIINDEL.HOM 60 50) (ex_iri "A") ex_isri.

Definition ex_conflict_state : gvcf_aggregator :=
  run_or ex_aggregator
    (s1 <- add_indel ex_aggregator 5 (ex_key 5 3) (ex_dindel STAR_DIINDEL.HOM 60 50)
             (ex_iri "A") ex_isri ;;
     s2 <- add_indel s1 6 (ex_key 6 3) (ex_het 45 70) (ex_iri "A") ex_isri ;;
     add_site s2 (ex_site 8 4 50 5)).

(** A line of the given columns. *)
Definition tsv (columns : list string) : string :=
  (String.concat TAB columns ++ NL)%string.

(** What a run shows at its end: the pending indels, the stream, and the
    start and the length of the open block. *)
Definition observe (r : option gvcf_aggregator)
  : option (list indel_info * list vcf_line * pos_t * Z) :=
  match r with
  | Some s => Some (_indel_buffer s, _os s, si_pos (record (_block s)), count (_block s))
  | None => None
  end.

(** The state after a deletion of positions 2 to 9 and a deletion of
    position 4, both heterozygous, have been submitted. *)
Definition ex_short_state : gvcf_aggregator :=
  run_or ex_aggregator
    (s1 <- add_indel ex_aggregator 2 (ex_key 2 8) (ex_het 60 50) (ex_iri "A") ex_isri ;;
     add_indel s1 4 (ex_key 4 1) (ex_het 60 50) (ex_iri "A") ex_isri).


(** ** Readings used in the properties of the whole aggregator *)

(** The two buffers go together: sites are only ever buffered behind a
    pending indel. *)
Definition buffers_consistent (s : gvcf_aggregator) : Prop :=
  _indel_buffer s = [] -> _site_buffer s = [].

(** [s'] has the settings of [s]: what the aggregator was built with, the
    chromosome, and the right bound of the pending indels. *)
Definition same_config (s s' : gvcf_aggregator) : Prop :=
  _opt s' = _opt s
  /\ _report_range s' = _report_range s
  /\ _ref s' = _ref s
  /\ _chrom s' = _chrom s
  /\ _indel_end_pos s' = _indel_end_pos s
  /\ _empty_site s' = _empty_site s.

(** The positions from [from] up to, not including, [to]. *)
Definition positions (from to : pos_t) : list pos_t :=
  map (fun k => from + Z.of_nat k) (seq 0 (Z.to_nat (to - from))).

(** The record of a group of one indel as [modify_single_indel_record]
    leaves it. *)
Definition single_indel_record (opt : starling_options) (ii : indel_info) : indel_info :=
  add_indel_modifiers opt
    (with_imod ii (imod_with_cigar (imod ii) (get_hap_cigar (ik ii) 1 0))).

(** The positions of the read a path takes up: match and insert segments. *)
Fixpoint query_length (apath : ALIGNPATH.path_t) : Z :=
  match apath with
  | [] => 0
  | ps :: rest =>
      match ALIGNPATH.type ps with
      | ALIGNPATH.DELETE => query_length rest
      | _ => Z.of_N (ALIGNPATH.length ps) + query_length rest
      end
  end.

(** The bases [print_vcf_alt] lists: those the genotype expects, the
    reference base left out, in the order of their codes. *)
Definition alt_bases {hdr : gvcf_header} (gt ref_gt : N) : list ascii :=
  map (fun b => id_to_base (N.of_nat b))
    (filter (fun b => negb (N.of_nat b =? ref_gt)%N && DIGT_expect2 (N.of_nat b) gt)
       (seq 0 N_BASE)).

(** The bases after the first in the ALT column, each behind its comma. *)
Fixpoint alt_tail (l : list ascii) : string :=
  match l with
  | [] => EmptyString
  | c :: r => ("," ++ show_char c ++ alt_tail r)%string
  end.

(** The merging loop of [process_overlaps] from the indices [i] and [j] on,
    with the rounds that are left of it. *)
Definition merge_loop {hdr : gvcf_header} (c : bool) (i j : nat) (s : gvcf_aggregator)
  : option gvcf_aggregator :=
  write_merged ((_indel_buffer_size s - i) + (_site_buffer_size s - j)) c i j s.

(** A site without any call, its reference base known. *)
Definition ex_uncovered : site_info :=
  {| si_pos := 3; si_ref := "A"%char; n_used_calls := 0%N;
     n_unused_calls := 0%N; known_counts := [0; 0; 0; 0]%N;
     dgt := {| is_snp := false; ref_gt := 0%N;
               genome := {| max_gt := 0%N; max_gt_qphred := 0; snp_qphred := 0 |};
               poly := {| max_gt := 0%N; max_gt_qphred := 0; snp_qphred := 0 |} |};
     smod := smod_clear |}.

(** The state after one heterozygous deletion of positions 5 to 7 has been
    submitted. *)
Definition ex_single_state : gvcf_aggregator :=
  run_or ex_aggregator
    (add_indel ex_aggregator 5 (ex_key 5 3) (ex_het 60 50) (ex_iri "A") ex_isri).

(** That state at the end of the stream, and after its group has been
    processed. *)
Definition ex_single_final : gvcf_aggregator :=
  run_or ex_aggregator (destruct_aggregator ex_single_state).

Definition ex_single_processed : gvcf_aggregator :=
  run_or ex_aggregator (process_overlaps ex_single_state).

(** The same state with a homozygous-reference site at position 6
    submitted, and with one at position 8. *)
Definition ex_single_inside : gvcf_aggregator :=
  run_or ex_aggregator (add_site ex_single_state (ex_site 6 0 40 10)).

Definition ex_single_past : gvcf_aggregator :=
  run_or ex_aggregator (add_site ex_single_state (ex_site 8 0 40 10)).

(** The same state with a second deletion, of positions 6 to 8,
    submitted. *)
Definition ex_single_joined : gvcf_aggregator :=
  run_or ex_aggregator
    (add_indel ex_single_state 6 (ex_key 6 3) (ex_het 45 70) (ex_iri "A") ex_isri).

(** The same state with a site at position 3, behind the pending deletion,
    submitted. *)
Definition ex_single_behind : gvcf_aggregator :=
  run_or ex_aggregator (add_site ex_single_state (ex_site 3 0 40 10)).


(** ** Readings used for the records of a finalized group *)

(** The ten columns of an indel record, as [write_indel_record] writes them
    for the record [ii] and the members it lists in the ALT column and in
    the descriptor. *)
Definition indel_columns {hdr : gvcf_header} (chrom : string) (ii : indel_info)
  (members : list indel_info) : list string :=
  [chrom;                                                        (* CHROM *)
   show_Z (ii_pos ii);                                           (* POS *)
   ".";                                                          (* ID *)
   vcf_ref_seq (iri ii);                                         (* REF *)
   String.concat "," (map (fun m => vcf_indel_seq (iri m)) members);   (* ALT *)
   show_Z (indel_qphred (dindel ii));                            (* QUAL *)
   write_filters (imod_filters (imod ii));                       (* FILTER *)
   "CIGAR=" ++ String.concat "," (map (fun m => show_path (cigar (imod m))) members);
   "GT:GQX";                                                     (* FORMAT *)
   indel_get_gt ii ++ ":" ++ show_Z (imod_gqx (imod ii))]%string.  (* SAMPLE *)

(** The ten columns of a site record, as [write_site_record] writes them in
    the state [s]. *)
Definition site_columns {hdr : gvcf_header} (s : gvcf_aggregator) (si : site_info)
  : list string :=
  [_chrom s;                                                     (* CHROM *)
   show_Z (si_pos si + 1);                                       (* POS *)
   ".";                                                          (* ID *)
   show_char (si_ref si);                                        (* REF *)
   if smod_is_unknown (smod si) || smod_is_block (smod si) then "."
   else print_vcf_alt (smod_max_gt (smod si)) (ref_gt (dgt si));  (* ALT *)
   if is_qual (smod si) then show_Z (snp_qphred (genome (dgt si))) else ".";
   write_filters (smod_filters (smod si));                       (* FILTER *)
   if smod_is_block (smod si)
   then "END=" ++ show_Z (si_pos si + count (_block s)) ++ ";"
        ++ gvcf_block_label (_opt s)
   else ".";                                                     (* INFO *)
   "GT:GQX";                                                     (* FORMAT *)
   site_get_gt si ++ ";"
   ++ (if is_gqx (smod si) then
         if smod_is_block (smod si) then show_Z (block_gqx_min (_block s))
         else show_Z (smod_gqx (smod si))
       else ".")]%string.                                        (* SAMPLE *)

(** [process_overlaps] has taken [s] down one of its two routes that are not
    the conflict route, and the adjustment of the buffered indels has
    returned [s1]: one indel is buffered, or the two buffered indels are a
    simple overlap. *)
Definition adjusted_group (s s1 : gvcf_aggregator) : Prop :=
  (_indel_buffer_size s = 1%nat /\ modify_single_indel_record s = Some s1)
  \/ (is_simple_indel_overlap (_indel_buffer s) (_indel_buffer_size s) = true
      /\ modify_overlap_indel_record s = Some s1).

(** The aggregator once the first record [ii0] of such a group is out: the
    line [process_overlaps] writes ahead of the records, the block that was
    open, and the record of [ii0] with the members it lists; [sites'] are
    the buffered sites after their adjustment. *)
Definition group_head {hdr : gvcf_header} (s1 : gvcf_aggregator) (ii0 : indel_info)
  (rest : list indel_info) (sites' : list site_info) : gvcf_aggregator :=
  let s3 :=
    with_site_buffer
      (emit s1
         (OtherLine ("INDEL_SIZE: " ++ show_Z (Z.of_nat (_indel_buffer_size s1)) ++ NL)%string))
      sites' in
  emit (write_block_site_record s3)
    (IndelLine
       (tsv (indel_columns (_chrom s1) ii0
               (ii0 :: if is_overlap (imod ii0) then firstn 1 rest else [])))).

(** The aggregator at the end of [process_overlaps] for such a group: the
    adjusted sites queued one after the other behind the record, and both
    buffers emptied. *)
Definition group_result {hdr : gvcf_header} (s1 : gvcf_aggregator) (ii0 : indel_info)
  (rest : list indel_info) (sites' : list site_info) : gvcf_aggregator :=
  with_site_buffer
    (with_indel_buffer
       (fold_left queue_site_record sites' (group_head s1 ii0 rest sites')) []) [].

(** One emission of a conflict group, with the columns of the record: an
    indel is written as a record of its own, listing itself alone, after
    the open block; a site is queued. *)
Definition write_conflict_event {hdr : gvcf_header} (s : gvcf_aggregator)
  (x : indel_info + site_info) : gvcf_aggregator :=
  match x with
  | inl ii =>
      emit (write_block_site_record s)
        (IndelLine (tsv (indel_columns (_chrom s) ii [ii])))
  | inr si => queue_site_record s si
  end.

(** A group that goes down the conflict route by what it holds: three or
    more indels, or two of which one is not heterozygous. *)
Definition conflict_group (s : gvcf_aggregator) : Prop :=
  (2 <= _indel_buffer_size s)%nat
  /\ ((3 <= _indel_buffer_size s)%nat
      \/ Exists (fun ii => is_het_indel (dindel ii) = false) (_indel_buffer s)).

(** ** Inputs for the records of a group *)

(** The pending pair with its indels adjusted. *)
Definition ex_pair_adjusted : gvcf_aggregator :=
  run_or ex_aggregator (modify_overlap_indel_record ex_pair_state).

(** A pending pair whose first record carries the site-conflict filter, and
    behind it one buffered site at position 8, homozygous for the base C,
    that carries the site-conflict and the high-depth filter. *)
Definition ex_filtered_site : site_info :=
  let si := add_site_modifiers ex_opt (ex_site 8 1 40 0) in
  with_smod si
    (smod_with_filters (smod si)
       (set_filter VCF_FILTERS.SiteConflict (set_filter VCF_FILTERS.HighDepth 0%N))).

Definition ex_filtered_state : gvcf_aggregator :=
  with_site_buffer
    (with_indel_buffer ex_pair_state
       [with_imod ex_a
          (imod_with_filters (imod ex_a) (set_filter VCF_FILTERS.SiteConflict 0%N));
        ex_b])
    [ex_filtered_site].

Definition ex_filtered_adjusted : gvcf_aggregator :=
  run_or ex_aggregator (modify_overlap_indel_record ex_filtered_state).

(** One pending deletion whose ploidy vector holds a 2, and a site on it. *)
Definition ex_diploid_state : gvcf_aggregator :=
  with_site_buffer (with_indel_buffer ex_single_state [ex_diploid])
    [add_site_modifiers ex_opt (ex_site 5 4 50 5)].

Definition ex_diploid_adjusted : gvcf_aggregator :=
  run_or ex_aggregator (modify_single_indel_record ex_diploid_state).

(** * Properties *)

(** ** Site modifiers *)

Lemma set_site_filters_smod (opt : starling_options) (si : site_info) :
  smod (set_site_filters opt si)
  = smod_with_filters (smod si) (smod_filters (smod (set_site_filters opt si))).
Proof.
  unfold set_site_filters.
  destruct (is_gvcf_min_gqx opt); [destruct (_ <? _)|];
    (destruct (is_gvcf_max_depth opt); [destruct (_ >? _)|]);
    cbn; try reflexivity; destruct (smod si); reflexivity.
Qed.

Lemma set_site_filters_gqx (opt : starling_options) (si : site_info) :
  smod_gqx (smod (set_site_filters opt si)) = smod_gqx (smod si).
Proof. rewrite set_site_filters_smod. reflexivity. Qed.



(** ** Sites under a finalized group *)

Section SiteAdjustment.

Context {hdr : gvcf_header}.

Lemma test_set_filter (f g : VCF_FILTERS.index_t) (fs : filter_set) :
  test_filter f (set_filter g fs)
  = (N.eqb (VCF_FILTERS.bit g) (VCF_FILTERS.bit f)) || test_filter f fs.
Proof. unfold test_filter, set_filter. apply N.setbit_eqb. Qed.

Lemma test_filter_land (f : VCF_FILTERS.index_t) (a b : filter_set) :
  test_filter f (N.land a b) = test_filter f a && test_filter f b.
Proof. unfold test_filter. apply N.land_spec. Qed.

Lemma set_site_filters_test (opt : starling_options) (si : site_info)
  (f : VCF_FILTERS.index_t) :
  test_filter f (smod_filters (smod (set_site_filters opt si)))
  = test_filter f (smod_filters (smod si))
    || match f with
       | VCF_FILTERS.LowGQX =>
           is_gvcf_min_gqx opt && (smod_gqx (smod si) <? gvcf_min_gqx opt)
       | VCF_FILTERS.HighDepth =>
           is_gvcf_max_depth opt
           && (Z.of_N (unsigned_add (n_used_calls si) (n_unused_calls si))
                 >? gvcf_max_depth opt)
       | _ => false
       end.
Proof.
  unfold set_site_filters.
  destruct (is_gvcf_min_gqx opt); [destruct (_ <? _)|];
    (destruct (is_gvcf_max_depth opt); [destruct (_ >? _)|]);
    cbn [smod_set_filter with_smod smod smod_with_filters smod_filters
         n_used_calls n_unused_calls andb];
    rewrite ?test_set_filter; destruct f; cbn;
    rewrite ?orb_false_r, ?orb_true_r; reflexivity.
Qed.

Lemma set_site_filters_dgt (opt : starling_options) (si : site_info) :
  dgt (set_site_filters opt si) = dgt si.
Proof.
  unfold set_site_filters.
  destruct (is_gvcf_min_gqx opt); [destruct (_ <? _)|];
    (destruct (is_gvcf_max_depth opt); [destruct (_ >? _)|]); reflexivity.
Qed.

(** At ploidy 1 a heterozygous site ends as "unknown" with the site-conflict
    filter and with both qualities capped by the indel's. *)
Lemma modify_indel_overlap_site_ploidy1_het (opt : starling_options)
  (ii : indel_info) (si : site_info) :
  DIGT_is_het (smod_max_gt (smod si)) = true ->
  exists si',
    modify_indel_overlap_site opt ii 1 si = Some si'
    /\ smod_modified_gt (smod si') = MODIFIED_SITE_GT.UNKNOWN
    /\ test_filter VCF_FILTERS.SiteConflict (smod_filters (smod si')) = true
    /\ snp_qphred (genome (dgt si'))
       = Z.min (snp_qphred (genome (dgt si))) (indel_qphred (dindel ii))
    /\ smod_gqx (smod si')
       = Z.min (smod_gqx (smod si)) (dindel_max_gt_qphred (dindel ii)).
Proof.
  intros Het. unfold modify_indel_overlap_site. cbn -[set_site_filters Z.min].
  rewrite Het. cbn -[set_site_filters Z.min].
  eexists; split; [reflexivity |].
  rewrite set_site_filters_test, set_site_filters_dgt, set_site_filters_gqx.
  rewrite set_site_filters_smod. cbn. repeat split.
  rewrite test_set_filter. reflexivity.
Qed.

Lemma modify_indel_overlap_site_ploidy0 (opt : starling_options)
  (ii : indel_info) (si : site_info) :
  exists si',
    modify_indel_overlap_site opt ii 0 si = Some si'
    /\ smod_modified_gt (smod si') = MODIFIED_SITE_GT.UNKNOWN
    /\ smod_is_zero_ploidy (smod si') = true.
Proof.
  unfold modify_indel_overlap_site. cbn -[set_site_filters].
  eexists; split; [reflexivity |].
  rewrite set_site_filters_smod. cbn. split; reflexivity.
Qed.

Lemma modify_indel_overlap_site_other_ploidy (opt : starling_options)
  (ii : indel_info) (p : N) (si : site_info) :
  p <> 0%N -> p <> 1%N -> modify_indel_overlap_site opt ii p si = None.
Proof.
  intros P0 P1. unfold modify_indel_overlap_site.
  apply N.eqb_neq in P0, P1. rewrite P0, P1. reflexivity.
Qed.

End SiteAdjustment.

Section SiteLoop.

Context {hdr : gvcf_header}.

Lemma modify_indel_overlap_site_filters (opt : starling_options)
  (ii : indel_info) (p : N) (si si' : site_info) :
  modify_indel_overlap_site opt ii p si = Some si' ->
  forall f : VCF_FILTERS.index_t,
    test_filter f (smod_filters (smod si'))
    = (test_filter f (smod_filters (smod si))
       && test_filter f (imod_filters (imod ii)))
      || added_after_inherit opt p si (smod_gqx (smod si')) f.
Proof.
  unfold modify_indel_overlap_site.
  destruct (N.eqb_spec p 1) as [-> | P1].
  - cbn -[set_site_filters Z.min].
    destruct (DIGT_is_het (smod_max_gt (smod si))) eqn:Het.
    + intros [= <-] f.
      rewrite set_site_filters_test, set_site_filters_gqx.
      cbn -[Z.min]. rewrite test_set_filter, test_filter_land.
      destruct f; cbn -[Z.min]; rewrite ?Het, ?orb_false_r, ?orb_true_r;
        reflexivity.
    + destruct (smod_max_gt (smod si) =? ref_gt (dgt si))%N;
        (intros [= <-] f;
         rewrite set_site_filters_test, set_site_filters_gqx;
         cbn -[Z.min]; rewrite test_filter_land;
         destruct f; cbn -[Z.min]; rewrite ?Het, ?orb_false_r; reflexivity).
  - destruct (N.eqb_spec p 0) as [-> | P0]; cbn -[set_site_filters Z.min];
      [| discriminate].
    intros [= <-] f.
    rewrite set_site_filters_test, set_site_filters_gqx.
    cbn. rewrite test_filter_land.
    destruct f; cbn; rewrite ?orb_false_r; reflexivity.
Qed.

Lemma modify_indel_overlap_site_total (opt : starling_options)
  (ii : indel_info) (p : N) (si : site_info) :
  (p = 0 \/ p = 1)%N ->
  exists si', modify_indel_overlap_site opt ii p si = Some si'.
Proof.
  intros [-> | ->]; unfold modify_indel_overlap_site;
    cbn -[set_site_filters Z.min].
  - eexists; reflexivity.
  - destruct (DIGT_is_het _); [| destruct (_ =? _)%N]; eexists; reflexivity.
Qed.

(** The loop over the site buffer of a group that is not a conflict applies
    [modify_indel_overlap_site] to every site, and goes through when every
    site is adjustable. *)
Lemma adjust_sites_overlap_each (opt : starling_options) (ii0 : indel_info)
  (sites : list site_info) :
  Forall (adjustable ii0) sites ->
  exists sites',
    adjust_sites opt false ii0 sites = Some sites'
    /\ Forall2
         (fun si si' =>
            modify_indel_overlap_site opt ii0 (site_ploidy ii0 si) si = Some si')
         sites sites'.
Proof.
  induction 1 as [| si rest [Off Pl] _ IH].
  - exists []. split; [reflexivity | constructor].
  - destruct IH as (rest' & Erest & Frest).
    destruct (modify_indel_overlap_site_total opt ii0 _ si Pl) as (si' & Esi).
    exists (si' :: rest'). split; [| constructor; assumption].
    cbn [adjust_sites]. apply Z.leb_le in Off. rewrite Off.
    cbn [assert_ok bind negb]. unfold site_ploidy in Esi. rewrite Esi.
    cbn [bind]. rewrite Erest. reflexivity.
Qed.

Lemma adjust_sites_overlap_abort (opt : starling_options) (ii0 : indel_info)
  (sites : list site_info) :
  Exists (fun si => site_ploidy ii0 si <> 0%N /\ site_ploidy ii0 si <> 1%N) sites ->
  adjust_sites opt false ii0 sites = None.
Proof.
  induction 1 as [si rest [P0 P1] | si rest _ IH]; cbn [adjust_sites].
  - destruct (assert_ok _); [| reflexivity]. cbn [bind negb].
    unfold site_ploidy in P0, P1.
    rewrite (modify_indel_overlap_site_other_ploidy opt ii0 _ si P0 P1).
    reflexivity.
  - destruct (assert_ok _); [| reflexivity]. cbn [bind].
    destruct (if negb false then _ else _); [| reflexivity]. cbn [bind].
    rewrite IH. reflexivity.
Qed.

(** The site loop on its own, against any record and any sites: a site
    whose looked-up ploidy is 1 and whose own genotype is heterozygous leaves
    the adjustment with output genotype "unknown", the site-conflict filter,
    and quality and genotype quality no higher than the indel's; at ploidy 0
    it leaves it with output genotype "unknown" and the zero-ploidy flag; and
    a site with any other ploidy fails the assertion. *)
Theorem adjust_sites_ploidy (opt : starling_options) (ii0 : indel_info)
  (sites : list site_info) :
  (Exists (fun si => site_ploidy ii0 si <> 0%N /\ site_ploidy ii0 si <> 1%N) sites ->
   adjust_sites opt false ii0 sites = None)
  /\ (Forall (adjustable ii0) sites ->
      exists sites',
        adjust_sites opt false ii0 sites = Some sites'
        /\ Forall2
             (fun si si' =>
                (site_ploidy ii0 si = 1%N ->
                 DIGT_is_het (smod_max_gt (smod si)) = true ->
                 smod_modified_gt (smod si') = MODIFIED_SITE_GT.UNKNOWN
                 /\ test_filter VCF_FILTERS.SiteConflict (smod_filters (smod si')) = true
                 /\ snp_qphred (genome (dgt si')) <= indel_qphred (dindel ii0)
                 /\ snp_qphred (genome (dgt si')) <= snp_qphred (genome (dgt si))
                 /\ smod_gqx (smod si') <= dindel_max_gt_qphred (dindel ii0)
                 /\ smod_gqx (smod si') <= smod_gqx (smod si))
                /\ (site_ploidy ii0 si = 0%N ->
                    smod_modified_gt (smod si') = MODIFIED_SITE_GT.UNKNOWN
                    /\ smod_is_zero_ploidy (smod si') = true))
             sites sites').
Proof.
  split; [apply adjust_sites_overlap_abort |].
  intros Ok. destruct (adjust_sites_overlap_each opt ii0 sites Ok) as (sites' & E & F).
  exists sites'. split; [exact E |].
  clear E Ok. induction F as [| si si' rest rest' Esi _ IH]; constructor; [| exact IH].
  split.
  - intros P Het. rewrite P in Esi.
    destruct (modify_indel_overlap_site_ploidy1_het opt ii0 si Het)
      as (sj & Ej & M & C & Q & G).
    rewrite Ej in Esi. injection Esi as <-.
    repeat split; try assumption; lia.
  - intros P. rewrite P in Esi.
    destruct (modify_indel_overlap_site_ploidy0 opt ii0 si) as (sj & Ej & M & Zp).
    rewrite Ej in Esi. injection Esi as <-. split; assumption.
Qed.

(** The site loop on its own, bit by bit: every site keeps a filter of its
    own only if the record carries it too (the bitwise AND of the two sets);
    the site-conflict filter and the filters of the re-run quality and depth
    rules are added after that intersection, whatever the record carries. *)
Theorem adjust_sites_inherits_filters (opt : starling_options) (ii0 : indel_info)
  (sites : list site_info) :
  Forall (adjustable ii0) sites ->
  exists sites',
    adjust_sites opt false ii0 sites = Some sites'
    /\ Forall2
         (fun si si' =>
            forall f : VCF_FILTERS.index_t,
              test_filter f (smod_filters (smod si'))
              = (test_filter f (smod_filters (smod si))
                 && test_filter f (imod_filters (imod ii0)))
                || added_after_inherit opt (site_ploidy ii0 si) si
                     (smod_gqx (smod si')) f)
         sites sites'.
Proof.
  intros Ok. destruct (adjust_sites_overlap_each opt ii0 sites Ok) as (sites' & E & F).
  exists sites'. split; [exact E |].
  clear E Ok. induction F as [| si si' rest rest' Esi _ IH]; constructor; [| exact IH].
  apply (modify_indel_overlap_site_filters opt ii0 _ si si' Esi).
Qed.

End SiteLoop.

(** ** The ploidy vector of an overlap *)

Section Ploidy.

Lemma incr_at_spec (i : nat) (v : list N) :
  (i < List.length v)%nat ->
  exists v',
    incr_at i v = Some v'
    /\ List.length v' = List.length v
    /\ forall k, nth k v' 0%N
                 = if Nat.eqb k i then unsigned_add (nth k v 0%N) 1 else nth k v 0%N.
Proof.
  revert i. induction v as [| x v IH]; intros i Hi; [cbn in Hi; lia |].
  destruct i as [| i]; cbn [incr_at].
  - eexists; split; [reflexivity |]. split; [reflexivity |].
    intros [| k]; reflexivity.
  - destruct (IH i) as (v' & E & L & Hn); [cbn in Hi; lia |].
    rewrite E. cbn [bind]. eexists; split; [reflexivity |].
    split; [cbn; lia |].
    intros [| k]; [reflexivity |]. cbn [nth]. rewrite Hn. reflexivity.
Qed.

Lemma add_match_to_ploidy_spec (j : nat) (offset : Z) (pl : list N) :
  offset + Z.of_nat j <= Z.of_nat (List.length pl) ->
  exists pl',
    add_match_to_ploidy j offset pl = Some (offset + Z.of_nat j, pl')
    /\ List.length pl' = List.length pl
    /\ forall k : nat,
         nth k pl' 0%N
         = if (offset <=? Z.of_nat k) && (Z.of_nat k <? offset + Z.of_nat j)
           then unsigned_add (nth k pl 0%N) 1 else nth k pl 0%N.
Proof.
  revert offset pl. induction j as [| j IH]; intros offset pl Hr.
  - exists pl. cbn [add_match_to_ploidy]. rewrite Z.add_0_r.
    split; [reflexivity |]. split; [reflexivity |].
    intros k. destruct (Z.leb_spec offset (Z.of_nat k));
      destruct (Z.ltb_spec (Z.of_nat k) offset); cbn; try reflexivity; lia.
  - cbn [add_match_to_ploidy].
    destruct (Z.leb_spec 0 offset) as [Pos | Neg].
    + destruct (incr_at_spec (Z.to_nat offset) pl) as (p1 & E1 & L1 & N1); [lia |].
      rewrite E1. cbn [bind].
      destruct (IH (offset + 1) p1) as (p2 & E2 & L2 & N2); [lia |].
      exists p2. rewrite E2.
      split; [f_equal; f_equal; lia |]. split; [lia |].
      intros k. rewrite N2, N1.
      destruct (Nat.eqb_spec k (Z.to_nat offset));
        destruct (Z.leb_spec (offset + 1) (Z.of_nat k));
        destruct (Z.ltb_spec (Z.of_nat k) (offset + 1 + Z.of_nat j));
        destruct (Z.leb_spec offset (Z.of_nat k));
        destruct (Z.ltb_spec (Z.of_nat k) (offset + Z.of_nat (S j)));
        cbn [andb]; try reflexivity; lia.
    + cbn [bind].
      destruct (IH (offset + 1) pl) as (p2 & E2 & L2 & N2); [lia |].
      exists p2. rewrite E2.
      split; [f_equal; f_equal; lia |]. split; [lia |].
      intros k. rewrite N2.
      destruct (Z.leb_spec (offset + 1) (Z.of_nat k));
        destruct (Z.ltb_spec (Z.of_nat k) (offset + 1 + Z.of_nat j));
        destruct (Z.leb_spec offset (Z.of_nat k));
        destruct (Z.ltb_spec (Z.of_nat k) (offset + Z.of_nat (S j)));
        cbn [andb]; try reflexivity; lia.
Qed.

Lemma ref_length_nonneg (apath : ALIGNPATH.path_t) : 0 <= ref_length apath.
Proof.
  induction apath as [| ps rest IH]; cbn [ref_length]; [lia |].
  destruct (ALIGNPATH.type ps); lia.
Qed.

Lemma matched_at_before (apath : ALIGNPATH.path_t) (offset k : Z) :
  k < offset -> matched_at apath offset k = false.
Proof.
  revert offset. induction apath as [| ps rest IH]; intros offset Hk; [reflexivity |].
  cbn [matched_at]. destruct (ALIGNPATH.type ps).
  - rewrite IH by lia.
    destruct (Z.leb_spec offset k); [lia | reflexivity].
  - apply IH; lia.
  - apply IH; lia.
Qed.

(** Folding a descriptor into the vector adds one exactly at the offsets that
    lie under its match segments. *)
Lemma add_cigar_from_spec (apath : ALIGNPATH.path_t) (offset : Z) (pl : list N) :
  offset + ref_length apath <= Z.of_nat (List.length pl) ->
  exists pl',
    add_cigar_from apath offset pl = Some pl'
    /\ List.length pl' = List.length pl
    /\ forall k : nat,
         nth k pl' 0%N
         = if matched_at apath offset (Z.of_nat k)
           then unsigned_add (nth k pl 0%N) 1 else nth k pl 0%N.
Proof.
  revert offset pl. induction apath as [| ps rest IH]; intros offset pl Hr.
  - exists pl. repeat split; reflexivity.
  - cbn [add_cigar_from matched_at]. cbn [ref_length] in Hr.
    pose proof (ref_length_nonneg rest) as Hn.
    destruct (ALIGNPATH.type ps).
    + destruct (add_match_to_ploidy_spec (N.to_nat (ALIGNPATH.length ps)) offset pl)
        as (p1 & E1 & L1 & N1); [lia |].
      rewrite E1. cbn [bind fst snd].
      destruct (IH (offset + Z.of_nat (N.to_nat (ALIGNPATH.length ps))) p1)
        as (p2 & E2 & L2 & N2); [lia |].
      exists p2. split; [exact E2 |]. split; [lia |].
      intros k. rewrite N2, N1.
      replace (Z.of_nat (N.to_nat (ALIGNPATH.length ps)))
        with (Z.of_N (ALIGNPATH.length ps)) by lia.
      destruct (Z.leb_spec offset (Z.of_nat k));
        destruct (Z.ltb_spec (Z.of_nat k) (offset + Z.of_N (ALIGNPATH.length ps)));
        cbn [andb orb]; try reflexivity.
      rewrite matched_at_before by lia. reflexivity.
    + apply IH. lia.
    + apply IH. lia.
Qed.

Lemma ref_length_hap_cigar (k : indel_key) (lead trail : N) :
  ref_length (get_hap_cigar k lead trail)
  = Z.of_N lead + Z.of_N (delete_length k) + Z.of_N trail.
Proof.
  unfold get_hap_cigar.
  destruct (N.eqb_spec lead 0); destruct (N.eqb_spec (delete_length k) 0);
    destruct (N.eqb_spec (insert_length k) 0); destruct (N.eqb_spec trail 0);
    cbn; lia.
Qed.

(** A haplotype's descriptor matches before and after its deletion. *)
Lemma matched_at_hap_cigar (k : indel_key) (lead trail : N) (j : Z) :
  matched_at (get_hap_cigar k lead trail) (-1) j
  = ((-1 <=? j) && (j <? Z.of_N lead - 1))
    || ((Z.of_N lead - 1 + Z.of_N (delete_length k) <=? j)
        && (j <? Z.of_N lead - 1 + Z.of_N (delete_length k) + Z.of_N trail)).
Proof.
  unfold get_hap_cigar.
  destruct (N.eqb_spec lead 0); destruct (N.eqb_spec (delete_length k) 0);
    destruct (N.eqb_spec (insert_length k) 0); destruct (N.eqb_spec trail 0);
    cbn [app matched_at path_segment_of ALIGNPATH.type ALIGNPATH.length];
    repeat match goal with
      | |- context [Z.leb ?x ?y] => destruct (Z.leb_spec x y)
      | |- context [Z.ltb ?x ?y] => destruct (Z.ltb_spec x y)
      end; cbn [andb orb]; try reflexivity; lia.
Qed.

Lemma length_string_of_list_ascii (l : list ascii) :
  String.length (string_of_list_ascii l) = List.length l.
Proof. induction l as [| c l IH]; cbn; [reflexivity | rewrite IH; reflexivity]. Qed.

Lemma get_substring_length (r : reference_contig_segment) (p len : Z) :
  String.length (get_substring r p len) = Z.to_nat len.
Proof.
  unfold get_substring.
  rewrite length_string_of_list_ascii, length_map, length_seq. reflexivity.
Qed.

Lemma to_unsigned_small (z : Z) : 0 <= z < 2 ^ 32 -> to_unsigned z = Z.to_N z.
Proof. intros H. unfold to_unsigned. rewrite Z.mod_small by exact H. reflexivity. Qed.

End Ploidy.

Section Overlap.

Context {hdr : gvcf_header}.

Lemma add_indel_modifiers_imod (opt : starling_options) (ii : indel_info) :
  cigar (imod (add_indel_modifiers opt ii)) = cigar (imod ii)
  /\ ploidy (imod (add_indel_modifiers opt ii)) = ploidy (imod ii)
  /\ is_overlap (imod (add_indel_modifiers opt ii)) = is_overlap (imod ii)
  /\ imod_gqx (imod (add_indel_modifiers opt ii))
     = Z.min (indel_qphred (dindel ii)) (dindel_max_gt_qphred (dindel ii)).
Proof.
  unfold add_indel_modifiers.
  destruct (is_gvcf_min_gqx opt); [destruct (_ <? _)|];
    (destruct (is_gvcf_max_depth opt); [destruct (_ >? _)|]);
    repeat split; reflexivity.
Qed.

Lemma add_indel_modifiers_fields (opt : starling_options) (ii : indel_info) :
  ii_pos (add_indel_modifiers opt ii) = ii_pos ii
  /\ ik (add_indel_modifiers opt ii) = ik ii
  /\ dindel (add_indel_modifiers opt ii) = dindel ii
  /\ iri (add_indel_modifiers opt ii) = iri ii
  /\ isri (add_indel_modifiers opt ii) = isri ii.
Proof.
  unfold add_indel_modifiers.
  destruct (is_gvcf_min_gqx opt); [destruct (_ <? _)|];
    (destruct (is_gvcf_max_depth opt); [destruct (_ >? _)|]);
    repeat split; reflexivity.
Qed.

Lemma extend_haplotype_cigar (s : gvcf_aggregator) (begin_pos : pos_t) (h : indel_info) :
  0 <= ii_pos h - begin_pos - 1 ->
  ii_pos h - begin_pos < 2 ^ 32 ->
  0 <= _indel_end_pos s - right_pos (ik h) < 2 ^ 32 ->
  cigar (imod (extend_haplotype s begin_pos h))
  = get_hap_cigar (ik h) (Z.to_N (ii_pos h - begin_pos))
      (Z.to_N (_indel_end_pos s - right_pos (ik h))).
Proof.
  intros H1 H2 H3. unfold extend_haplotype.
  cbn [cigar imod with_imod imod_with_cigar ik with_iri].
  rewrite !get_substring_length.
  rewrite (to_unsigned_small (_indel_end_pos s - right_pos (ik h))) by exact H3.
  f_equal; rewrite to_unsigned_small by lia; lia.
Qed.

Lemma reduce_qual_min (ii other : indel_info) :
  indel_qphred (dindel (reduce_qual ii other))
  = Z.min (indel_qphred (dindel ii)) (indel_qphred (dindel other))
  /\ dindel_max_gt_qphred (dindel (reduce_qual ii other))
     = Z.min (dindel_max_gt_qphred (dindel ii)) (dindel_max_gt_qphred (dindel other))
  /\ dindel_max_gt (dindel (reduce_qual ii other)) = dindel_max_gt (dindel ii).
Proof.
  unfold reduce_qual. cbn [dindel with_dindel indel_qphred dindel_max_gt_qphred dindel_max_gt].
  repeat split.
  - destruct (Z.gtb_spec (indel_qphred (dindel ii)) (indel_qphred (dindel other))); lia.
  - destruct (Z.gtb_spec (dindel_max_gt_qphred (dindel ii))
                (dindel_max_gt_qphred (dindel other))); lia.
Qed.

(** What [modify_overlap_indel_record] leaves in the buffer for a pair it
    can merge. *)
Lemma modify_overlap_indel_record_result (s : gvcf_aggregator) (a b : indel_info) :
  overlap_pair s a b ->
  exists a' b',
    modify_overlap_indel_record s = Some (with_indel_buffer s [a'; b'])
    /\ b' = extend_haplotype s (ii_pos a - 1) b
    /\ ii_pos a' = ii_pos a
    /\ vcf_ref_seq (iri a')
       = get_substring (_ref s) (ii_pos a - 1) (_indel_end_pos s - (ii_pos a - 1))
    /\ vcf_indel_seq (iri a')
       = vcf_indel_seq (iri (extend_haplotype s (ii_pos a - 1) a))
    /\ is_overlap (imod a') = true
    /\ indel_qphred (dindel a')
       = Z.min (indel_qphred (dindel a)) (indel_qphred (dindel b))
    /\ dindel_max_gt_qphred (dindel a')
       = Z.min (dindel_max_gt_qphred (dindel a)) (dindel_max_gt_qphred (dindel b))
    /\ imod_gqx (imod a')
       = Z.min (indel_qphred (dindel a')) (dindel_max_gt_qphred (dindel a'))
    /\ cigar (imod a')
       = get_hap_cigar (ik a) 1 (Z.to_N (_indel_end_pos s - right_pos (ik a)))
    /\ cigar (imod b')
       = get_hap_cigar (ik b) (Z.to_N (ii_pos b - ii_pos a + 1))
           (Z.to_N (_indel_end_pos s - right_pos (ik b)))
    /\ List.length (ploidy (imod a')) = Z.to_nat (_indel_end_pos s - ii_pos a)
    /\ forall k : nat,
         (k < Z.to_nat (_indel_end_pos s - ii_pos a))%nat ->
         nth k (ploidy (imod a')) 0%N
         = (hap_ploidy (cigar (imod a')) (Z.of_nat k)
            + hap_ploidy (cigar (imod b')) (Z.of_nat k))%N.
Proof.
  intros (Hbuf & Hpl & Hord & Ra & Rb & Ea & Eb & Hrange).
  unfold modify_overlap_indel_record, _indel_buffer_size. rewrite Hbuf.
  cbn [List.length Nat.eqb assert_ok bind].
  cbn [ii_pos with_imod with_iri imod imod_with_overlap imod_with_ploidy ploidy].
  rewrite Hpl. unfold resize.
  destruct (Z.ltb_spec (_indel_end_pos s - ii_pos a) 0) as [Neg | Pos]; [lia |].
  cbn [bind]. rewrite firstn_nil. cbn [app List.length]. rewrite Nat.sub_0_r.
  set (n := Z.to_nat (_indel_end_pos s - ii_pos a)).
  set (a3 := with_imod _ _).
  assert (Ca : cigar (imod (extend_haplotype s (ii_pos a - 1) a3))
               = get_hap_cigar (ik a) 1 (Z.to_N (_indel_end_pos s - right_pos (ik a)))).
  { rewrite extend_haplotype_cigar; subst a3; cbn [ii_pos ik with_imod with_iri]; try lia.
    f_equal. lia. }
  assert (Cb : cigar (imod (extend_haplotype s (ii_pos a - 1) b))
               = get_hap_cigar (ik b) (Z.to_N (ii_pos b - ii_pos a + 1))
                   (Z.to_N (_indel_end_pos s - right_pos (ik b)))).
  { rewrite extend_haplotype_cigar; try lia. f_equal. lia. }
  assert (Pa : ploidy (imod (extend_haplotype s (ii_pos a - 1) a3)) = repeat 0%N n).
  { reflexivity. }
  rewrite Pa. unfold add_cigar_to_ploidy.
  destruct (add_cigar_from_spec (cigar (imod (extend_haplotype s (ii_pos a - 1) a3)))
              (-1) (repeat 0%N n)) as (p0 & E0 & L0 & N0).
  { rewrite Ca, ref_length_hap_cigar, repeat_length. subst n. lia. }
  rewrite E0. cbn [bind].
  set (a5 := with_imod (extend_haplotype s (ii_pos a - 1) a3) _).
  assert (P6 : ploidy (imod (reduce_qual a5 b)) = p0) by reflexivity.
  rewrite P6.
  destruct (add_cigar_from_spec (cigar (imod (extend_haplotype s (ii_pos a - 1) b)))
              (-1) p0) as (p1 & E1 & L1 & N1).
  { rewrite Cb, ref_length_hap_cigar, L0, repeat_length. subst n. lia. }
  rewrite E1. cbn [bind].
  set (a7 := with_imod (reduce_qual a5 b) _).
  destruct (add_indel_modifiers_imod (_opt s) a7) as (Ac & Ap & Ao & Ag).
  destruct (add_indel_modifiers_fields (_opt s) a7) as (Fp & Fk & Fd & Fi & Fs).
  destruct (reduce_qual_min a5 b) as (Qi & Qg & _).
  exists (add_indel_modifiers (_opt s) a7), (extend_haplotype s (ii_pos a - 1) b).
  split; [reflexivity |]. split; [reflexivity |].
  split; [rewrite Fp; reflexivity |].
  split; [rewrite Fi; reflexivity |].
  split; [rewrite Fi; reflexivity |].
  split; [rewrite Ao; reflexivity |].
  split; [rewrite Fd; exact Qi |].
  split; [rewrite Fd; exact Qg |].
  split; [rewrite Ag, Fd; reflexivity |].
  split; [rewrite Ac; exact Ca |].
  split; [exact Cb |].
  split; [rewrite Ap; subst a7; cbn [ploidy imod with_imod imod_with_ploidy];
          rewrite L1, L0, repeat_length; reflexivity |].
  intros k Hk. rewrite Ap, Ac.
  subst a7. cbn [ploidy cigar imod with_imod imod_with_ploidy].
  change (cigar (imod (reduce_qual a5 b)))
    with (cigar (imod (extend_haplotype s (ii_pos a - 1) a3))).
  rewrite N1, N0, nth_repeat. unfold hap_ploidy.
  destruct (matched_at (cigar (imod (extend_haplotype s (ii_pos a - 1) a3))) (-1) (Z.of_nat k));
    destruct (matched_at (cigar (imod (extend_haplotype s (ii_pos a - 1) b))) (-1) (Z.of_nat k));
    reflexivity.
Qed.

Lemma hap_ploidy_hap_cigar (k : indel_key) (lead trail j : Z) :
  1 <= lead -> 0 <= trail -> 0 <= j ->
  j < lead - 1 + Z.of_N (delete_length k) + trail ->
  hap_ploidy (get_hap_cigar k (Z.to_N lead) (Z.to_N trail)) j
  = if (lead - 1 <=? j) && (j <? lead - 1 + Z.of_N (delete_length k))
    then 0%N else 1%N.
Proof.
  intros Hl Ht Hj Hr. unfold hap_ploidy. rewrite matched_at_hap_cigar.
  rewrite !Z2N.id by lia.
  repeat match goal with
    | |- context [Z.leb ?x ?y] => destruct (Z.leb_spec x y)
    | |- context [Z.ltb ?x ?y] => destruct (Z.ltb_spec x y)
    end; cbn [andb orb]; try reflexivity; lia.
Qed.

(** X24. For two buffered indels whose right bound is at or past the right
    boundary of both (and which are stored as [add_indel] stores them),
    [modify_overlap_indel_record] returns: the ploidy vector of the first
    record has one entry per position from the first member's position to
    the right bound, and each entry counts the haplotypes whose descriptor
    has a match segment there, delete segments taking up positions without
    counting and insert segments taking up none: an entry is 1 per haplotype
    that does not delete the position, hence 1 inside a deletion of one
    haplotype only and 2 where both match. *)
Theorem modify_overlap_indel_record_ploidy (s : gvcf_aggregator) (a b : indel_info) :
  overlap_pair s a b ->
  exists a' b',
    modify_overlap_indel_record s = Some (with_indel_buffer s [a'; b'])
    /\ cigar (imod a')
       = get_hap_cigar (ik a) 1 (Z.to_N (_indel_end_pos s - right_pos (ik a)))
    /\ cigar (imod b')
       = get_hap_cigar (ik b) (Z.to_N (ii_pos b - ii_pos a + 1))
           (Z.to_N (_indel_end_pos s - right_pos (ik b)))
    /\ List.length (ploidy (imod a')) = Z.to_nat (_indel_end_pos s - ii_pos a)
    /\ forall p : pos_t,
         ii_pos a <= p < _indel_end_pos s ->
         nth (Z.to_nat (p - ii_pos a)) (ploidy (imod a')) 0%N
         = (hap_ploidy (cigar (imod a')) (p - ii_pos a)
            + hap_ploidy (cigar (imod b')) (p - ii_pos a))%N
         /\ hap_ploidy (cigar (imod a')) (p - ii_pos a)
            = (if in_deletion a p then 0%N else 1%N)
         /\ hap_ploidy (cigar (imod b')) (p - ii_pos a)
            = (if in_deletion b p then 0%N else 1%N).
Proof.
  intros Hp.
  destruct (modify_overlap_indel_record_result s a b Hp)
    as (a' & b' & E & _ & _ & _ & _ & _ & _ & _ & _ & Ca & Cb & L & Hn).
  destruct Hp as (Hbuf & Hpl & Hord & Ra & Rb & Ea & Eb & Hrange).
  exists a', b'. split; [exact E |]. split; [exact Ca |]. split; [exact Cb |].
  split; [exact L |].
  intros p Hr. split; [| split].
  - rewrite Hn by lia. rewrite Z2Nat.id by lia. reflexivity.
  - rewrite Ca.
    change 1%N with (Z.to_N 1).
    rewrite hap_ploidy_hap_cigar by lia.
    unfold in_deletion. rewrite Ra.
    repeat match goal with
      | |- context [Z.leb ?x ?y] => destruct (Z.leb_spec x y)
      | |- context [Z.ltb ?x ?y] => destruct (Z.ltb_spec x y)
      end; cbn [andb]; try reflexivity; lia.
  - rewrite Cb.
    rewrite hap_ploidy_hap_cigar by lia.
    unfold in_deletion. rewrite Rb.
    repeat match goal with
      | |- context [Z.leb ?x ?y] => destruct (Z.leb_spec x y)
      | |- context [Z.ltb ?x ?y] => destruct (Z.ltb_spec x y)
      end; cbn [andb]; try reflexivity; lia.
Qed.

End Overlap.

(** ** Emission of a finalized group *)

Section Emission.

Context {hdr : gvcf_header}.

Lemma same_group_refl (s : gvcf_aggregator) : same_group s s.
Proof. repeat split. Qed.

Lemma same_group_trans (s1 s2 s3 : gvcf_aggregator) :
  same_group s1 s2 -> same_group s2 s3 -> same_group s1 s3.
Proof.
  intros (A1 & B1 & C1 & D1 & E1) (A2 & B2 & C2 & D2 & E2).
  repeat split; congruence.
Qed.

Lemma write_site_record_same (s : gvcf_aggregator) (si : site_info) :
  same_group s (write_site_record s si).
Proof.
  unfold write_site_record, emit, same_group, indel_lines. cbn.
  repeat split. rewrite filter_app. cbn. apply app_nil_r.
Qed.

Lemma write_block_site_record_same (s : gvcf_aggregator) :
  same_group s (write_block_site_record s).
Proof.
  unfold write_block_site_record.
  destruct (count (_block s) <=? 0); [apply same_group_refl |].
  eapply same_group_trans; [apply write_site_record_same |].
  repeat split.
Qed.

Lemma queue_site_record_same (s : gvcf_aggregator) (si : site_info) :
  same_group s (queue_site_record s si).
Proof.
  unfold queue_site_record.
  remember (if negb (is_site_record_blockable (_opt s) si)
            then write_site_record (write_block_site_record s) si else s)
    as s1 eqn:E1.
  assert (H1 : same_group s s1).
  { subst s1. destruct (negb _); [| apply same_group_refl].
    eapply same_group_trans;
      [apply write_block_site_record_same | apply write_site_record_same]. }
  clear E1.
  remember (if negb (block_test (_block s1) si)
            then write_block_site_record s1 else s1) as s2 eqn:E2.
  assert (H2 : same_group s1 s2).
  { subst s2. destruct (negb _);
      [apply write_block_site_record_same | apply same_group_refl]. }
  clear E2.
  eapply same_group_trans; [exact H1 |].
  eapply same_group_trans; [exact H2 |]. repeat split.
Qed.

(** [write_indel_record] on a record that is not an overlap writes that
    record alone; on the first record of an overlap it writes the pair. *)
Lemma write_indel_record_line (s : gvcf_aggregator) (i : nat) (ii : indel_info) :
  nth_error (_indel_buffer s) i = Some ii ->
  (if is_overlap (imod ii) then nth_error (_indel_buffer s) (S i) <> None else True) ->
  exists s',
    write_indel_record s i = Some s'
    /\ _indel_buffer s' = _indel_buffer s
    /\ _site_buffer s' = _site_buffer s
    /\ _chrom s' = _chrom s
    /\ _opt s' = _opt s
    /\ indel_lines s'
       = indel_lines s
         ++ [IndelLine
               (indel_record_text (_chrom s) ii
                  (ii :: if is_overlap (imod ii)
                         then firstn 1 (skipn (S i) (_indel_buffer s)) else []))].
Proof.
  intros Hi Hnext. unfold write_indel_record.
  assert (Hlen : Nat.ltb 0 (_indel_buffer_size s) = true).
  { apply Nat.ltb_lt. unfold _indel_buffer_size.
    destruct (_indel_buffer s); [destruct i; discriminate | cbn; lia]. }
  rewrite Hlen. cbn [assert_ok bind]. cbv zeta.
  destruct (write_block_site_record_same s) as (Hb & Hs & Hc & Ho & Hl).
  rewrite Hb, Hi. cbn [bind].
  destruct (is_overlap (imod ii)).
  - replace (S (S i) - i)%nat with 2%nat by lia. cbn [indel_range].
    rewrite Hi. cbn [bind].
    destruct (nth_error (_indel_buffer s) (S i)) as [jj |] eqn:Ej; [| contradiction].
    cbn [bind]. eexists; split; [reflexivity |].
    unfold emit, indel_lines. cbn. rewrite filter_app. cbn.
    repeat split; try assumption.
    fold (indel_lines (write_block_site_record s)). rewrite Hl, Hc.
    repeat f_equal.
    clear - Ej. revert i Ej. induction (_indel_buffer s) as [| x l IH]; intros i Ej.
    + destruct i; discriminate.
    + destruct i as [| i]; cbn in Ej |- *.
      * destruct l; [discriminate | injection Ej as ->; reflexivity].
      * apply (IH i). exact Ej.
  - replace (S i - i)%nat with 1%nat by lia. cbn [indel_range].
    rewrite Hi. cbn [bind].
    eexists; split; [reflexivity |].
    unfold emit, indel_lines. cbn. rewrite filter_app. cbn.
    repeat split; try assumption.
    fold (indel_lines (write_block_site_record s)). rewrite Hl, Hc. reflexivity.
Qed.

Lemma write_indel_record_exact (s : gvcf_aggregator) (i : nat) (ii : indel_info)
  (Hi : nth_error (_indel_buffer s) i = Some ii)
  (Hov : is_overlap (imod ii) = false) (s' : gvcf_aggregator) :
  write_indel_record s i = Some s' ->
  s' = emit (write_block_site_record s)
         (IndelLine (indel_record_text (_chrom s) ii [ii])).
Proof.
  unfold write_indel_record.
  destruct (assert_ok _); [| discriminate]. cbn [bind]. cbv zeta.
  destruct (write_block_site_record_same s) as (Hb & _ & Hc & _).
  rewrite Hb, Hi. cbn [bind]. rewrite Hov.
  replace (S i - i)%nat with 1%nat by lia. cbn [indel_range].
  rewrite Hi. cbn [bind]. rewrite Hc. intros [= <-]. reflexivity.
Qed.

Lemma write_merged_step (fuel : nat) (c : bool) (i j : nat) (s : gvcf_aggregator) :
  write_merged (S fuel) c i j s
  = if negb (Nat.ltb i (_indel_buffer_size s) || Nat.ltb j (_site_buffer_size s))
    then Some s
    else if Nat.ltb i (_indel_buffer_size s)
            && (negb (Nat.ltb j (_site_buffer_size s))
                || match nth_error (_indel_buffer s) i, nth_error (_site_buffer s) j with
                   | Some ii, Some si => ii_pos ii <=? si_pos si
                   | _, _ => false
                   end)
    then s1 <- write_indel_record s i ;;
         write_merged fuel c (if c then S i else _indel_buffer_size s1) j s1
    else si <- nth_error (_site_buffer s) j ;;
         write_merged fuel c i (S j) (queue_site_record s si).
Proof. reflexivity. Qed.

(** Once the indels are out, the loop queues the remaining sites and ends. *)
Lemma write_merged_sites_only (fuel : nat) (c : bool) (i j : nat) (s : gvcf_aggregator) :
  (_indel_buffer_size s <= i)%nat ->
  (_site_buffer_size s - j <= fuel)%nat ->
  exists s', write_merged fuel c i j s = Some s' /\ same_group s s'.
Proof.
  revert j s. induction fuel as [| fuel IH]; intros j s Hi Hf.
  - cbn [write_merged].
    replace (Nat.ltb i (_indel_buffer_size s)) with false
      by (symmetry; apply Nat.ltb_ge; lia).
    replace (Nat.ltb j (_site_buffer_size s)) with false
      by (symmetry; apply Nat.ltb_ge; lia).
    cbn. exists s. split; [reflexivity | apply same_group_refl].
  - cbn [write_merged].
    replace (Nat.ltb i (_indel_buffer_size s)) with false
      by (symmetry; apply Nat.ltb_ge; lia).
    destruct (Nat.ltb_spec j (_site_buffer_size s)) as [Lt | Ge]; cbn [orb negb andb].
    + unfold _site_buffer_size in Lt.
      destruct (nth_error (_site_buffer s) j) as [si |] eqn:Ej;
        [| apply nth_error_None in Ej; lia].
      cbn [bind].
      pose proof (queue_site_record_same s si) as Hq.
      destruct (IH (S j) (queue_site_record s si)) as (s' & E & Hs).
      * unfold _indel_buffer_size in *. destruct Hq as (-> & _). exact Hi.
      * unfold _site_buffer_size in *. destruct Hq as (_ & -> & _). lia.
      * exists s'. split; [exact E |]. eapply same_group_trans; eassumption.
    + exists s. split; [reflexivity | apply same_group_refl].
Qed.

Lemma set_site_filters_pos (opt : starling_options) (si : site_info) :
  si_pos (set_site_filters opt si) = si_pos si.
Proof.
  unfold set_site_filters.
  destruct (is_gvcf_min_gqx opt); [destruct (_ <? _)|];
    (destruct (is_gvcf_max_depth opt); [destruct (_ >? _)|]); reflexivity.
Qed.

Lemma modify_indel_overlap_site_pos (opt : starling_options) (ii : indel_info)
  (p : N) (si si' : site_info) :
  modify_indel_overlap_site opt ii p si = Some si' -> si_pos si' = si_pos si.
Proof.
  unfold modify_indel_overlap_site.
  destruct (p =? 1)%N; [| destruct (p =? 0)%N; [| discriminate]].
  - destruct (DIGT_is_het _); [| destruct (_ =? _)%N];
      cbn [bind]; intros [= <-]; rewrite set_site_filters_pos; reflexivity.
  - cbn [bind]. intros [= <-]. rewrite set_site_filters_pos. reflexivity.
Qed.

Lemma adjust_sites_pos (opt : starling_options) (c : bool) (ii0 : indel_info)
  (sites sites' : list site_info) :
  adjust_sites opt c ii0 sites = Some sites' ->
  map si_pos sites' = map si_pos sites.
Proof.
  revert sites'. induction sites as [| si rest IH]; intros sites'; cbn [adjust_sites].
  - intros [= <-]. reflexivity.
  - destruct (assert_ok _); [| discriminate]. cbn [bind].
    destruct (if negb c then _ else _) as [si' |] eqn:Esi; [| discriminate].
    cbn [bind].
    destruct (adjust_sites opt c ii0 rest) as [rest' |]; [| discriminate].
    cbn [bind]. intros [= <-]. cbn [map]. f_equal; [| apply IH; reflexivity].
    destruct c; cbn [negb] in Esi.
    + injection Esi as <-. reflexivity.
    + eapply modify_indel_overlap_site_pos; eassumption.
Qed.

Lemma merge_order_nil_r (indels : list indel_info) :
  merge_order indels [] = map inl indels.
Proof.
  induction indels as [| ii rest IH]; [reflexivity |].
  cbn. rewrite IH. reflexivity.
Qed.

Lemma merge_order_cons (ii : indel_info) (indels : list indel_info)
  (si : site_info) (sites : list site_info) :
  merge_order (ii :: indels) (si :: sites)
  = if ii_pos ii <=? si_pos si
    then inl ii :: merge_order indels (si :: sites)
    else inr si :: merge_order (ii :: indels) sites.
Proof. reflexivity. Qed.

Lemma lefts_merge_order (indels : list indel_info) (sites : list site_info) :
  lefts (merge_order indels sites) = indels.
Proof.
  revert sites. induction indels as [| ii rest IH]; intros sites.
  - cbn. induction sites; [reflexivity | assumption].
  - induction sites as [| si sites IHs].
    + cbn. rewrite IH. reflexivity.
    + cbn [merge_order]. destruct (ii_pos ii <=? si_pos si).
      * cbn [lefts]. rewrite IH. reflexivity.
      * cbn [lefts]. exact IHs.
Qed.

Lemma skipn_nth_error {A : Type} (l : list A) (i : nat) (x : A) :
  nth_error l i = Some x -> skipn i l = x :: skipn (S i) l.
Proof.
  revert i. induction l as [| y l IH]; intros [| i] H; try discriminate.
  - injection H as ->. reflexivity.
  - cbn in H. apply (IH i H).
Qed.

Lemma skipn_past {A : Type} (l : list A) (i : nat) :
  (List.length l <= i)%nat -> skipn i l = [].
Proof. apply skipn_all2. Qed.

Lemma emit_conflict_event_same (s : gvcf_aggregator) (x : indel_info + site_info) :
  _indel_buffer (emit_conflict_event s x) = _indel_buffer s
  /\ _site_buffer (emit_conflict_event s x) = _site_buffer s
  /\ _chrom (emit_conflict_event s x) = _chrom s.
Proof.
  destruct x as [ii | si]; cbn [emit_conflict_event].
  - destruct (write_block_site_record_same s) as (B & S & C & _).
    unfold emit. cbn. repeat split; assumption.
  - destruct (queue_site_record_same s si) as (B & S & C & _).
    repeat split; assumption.
Qed.

(** In the conflict case the loop writes the indels and queues the sites in
    the merged order. *)
Lemma write_merged_conflict (fuel i j : nat) (s : gvcf_aggregator) :
  Forall (fun ii => is_overlap (imod ii) = false) (_indel_buffer s) ->
  ((_indel_buffer_size s - i) + (_site_buffer_size s - j) <= fuel)%nat ->
  write_merged fuel true i j s
  = Some (fold_left emit_conflict_event
            (merge_order (skipn i (_indel_buffer s)) (skipn j (_site_buffer s))) s).
Proof.
  revert i j s. induction fuel as [| fuel IH]; intros i j s Hov Hf.
  - unfold _indel_buffer_size, _site_buffer_size in Hf.
    cbn [write_merged].
    replace (Nat.ltb i (_indel_buffer_size s)) with false
      by (symmetry; apply Nat.ltb_ge; unfold _indel_buffer_size; lia).
    replace (Nat.ltb j (_site_buffer_size s)) with false
      by (symmetry; apply Nat.ltb_ge; unfold _site_buffer_size; lia).
    rewrite !skipn_past by lia. reflexivity.
  - rewrite write_merged_step.
    unfold _indel_buffer_size, _site_buffer_size in *.
    destruct (nth_error (_indel_buffer s) i) as [ii |] eqn:Ei;
      destruct (nth_error (_site_buffer s) j) as [si |] eqn:Ej.
    + (* an indel and a site are left *)
      assert (Li : (i < List.length (_indel_buffer s))%nat)
        by (apply nth_error_Some; congruence).
      assert (Lj : (j < List.length (_site_buffer s))%nat)
        by (apply nth_error_Some; congruence).
      apply Nat.ltb_lt in Li as Li', Lj as Lj'. rewrite Li', Lj'. cbn [orb negb andb].
      rewrite (skipn_nth_error _ _ _ Ei), (skipn_nth_error _ _ _ Ej).
      rewrite merge_order_cons. destruct (ii_pos ii <=? si_pos si).
      * destruct (write_indel_record_line s i ii Ei) as (s1 & E1 & B1 & S1 & C1 & _ & _).
        { rewrite (proj1 (Forall_forall _ _) Hov ii (nth_error_In _ _ Ei)). exact I. }
        assert (Hs1 : s1 = emit_conflict_event s (inl ii)).
        { apply (write_indel_record_exact s i ii Ei); [| exact E1].
          apply (proj1 (Forall_forall _ _) Hov ii (nth_error_In _ _ Ei)). }
        rewrite E1. cbn [bind]. rewrite IH.
        -- rewrite B1, S1, <- (skipn_nth_error _ _ _ Ej). cbn [fold_left].
           rewrite Hs1. reflexivity.
        -- rewrite B1. exact Hov.
        -- rewrite B1, S1. lia.
      * cbn [bind]. destruct (queue_site_record_same s si) as (B1 & S1 & _).
        rewrite IH.
        -- rewrite B1, S1, <- (skipn_nth_error _ _ _ Ei). reflexivity.
        -- rewrite B1. exact Hov.
        -- rewrite B1, S1. lia.
    + (* indels only *)
      assert (Li : (i < List.length (_indel_buffer s))%nat)
        by (apply nth_error_Some; congruence).
      apply nth_error_None in Ej as Lj.
      apply Nat.ltb_lt in Li as Li'. apply Nat.ltb_ge in Lj as Lj'.
      rewrite Li', Lj'. cbn [orb negb andb].
      rewrite (skipn_nth_error _ _ _ Ei), (skipn_past _ _ Lj).
      destruct (write_indel_record_line s i ii Ei) as (s1 & E1 & B1 & S1 & C1 & _ & _).
      { rewrite (proj1 (Forall_forall _ _) Hov ii (nth_error_In _ _ Ei)). exact I. }
      assert (Hs1 : s1 = emit_conflict_event s (inl ii)).
      { apply (write_indel_record_exact s i ii Ei); [| exact E1].
        apply (proj1 (Forall_forall _ _) Hov ii (nth_error_In _ _ Ei)). }
      rewrite E1. cbn [bind]. rewrite IH.
      * rewrite B1, S1, (skipn_past _ _ Lj). cbn [merge_order fold_left].
        rewrite Hs1. reflexivity.
      * rewrite B1. exact Hov.
      * rewrite B1, S1. lia.
    + (* sites only *)
      apply nth_error_None in Ei as Li.
      assert (Lj : (j < List.length (_site_buffer s))%nat)
        by (apply nth_error_Some; congruence).
      apply Nat.ltb_ge in Li as Li'. apply Nat.ltb_lt in Lj as Lj'.
      rewrite Li', Lj'. cbn [orb negb andb bind].
      rewrite (skipn_past _ _ Li), (skipn_nth_error _ _ _ Ej).
      destruct (queue_site_record_same s si) as (B1 & S1 & _).
      rewrite IH.
      * rewrite B1, S1, (skipn_past _ _ Li). reflexivity.
      * rewrite B1. exact Hov.
      * rewrite B1, S1. lia.
    + (* nothing is left *)
      apply nth_error_None in Ei as Li. apply nth_error_None in Ej as Lj.
      apply Nat.ltb_ge in Li as Li'. apply Nat.ltb_ge in Lj as Lj'.
      rewrite Li', Lj'. cbn [orb negb].
      rewrite (skipn_past _ _ Li), (skipn_past _ _ Lj). reflexivity.
Qed.

Lemma fold_conflict_indel_lines (evs : list (indel_info + site_info))
  (s : gvcf_aggregator) :
  indel_lines (fold_left emit_conflict_event evs s)
  = indel_lines s
    ++ map (fun ii => IndelLine (indel_record_text (_chrom s) ii [ii])) (lefts evs).
Proof.
  revert s. induction evs as [| x evs IH]; intros s; cbn [fold_left lefts map].
  - symmetry. apply app_nil_r.
  - rewrite IH. destruct (emit_conflict_event_same s x) as (_ & _ & ->).
    destruct x as [ii | si]; cbn [emit_conflict_event lefts map].
    + unfold indel_lines at 1, emit. cbn. rewrite filter_app. cbn.
      fold (indel_lines (write_block_site_record s)).
      destruct (write_block_site_record_same s) as (_ & _ & _ & _ & ->).
      rewrite <- app_assoc. reflexivity.
    + destruct (queue_site_record_same s si) as (_ & _ & _ & _ & ->). reflexivity.
Qed.

Lemma add_indel_modifiers_keeps_filter (opt : starling_options) (ii : indel_info)
  (f : VCF_FILTERS.index_t) :
  test_filter f (imod_filters (imod ii)) = true ->
  test_filter f (imod_filters (imod (add_indel_modifiers opt ii))) = true.
Proof.
  intros H. unfold add_indel_modifiers.
  destruct (is_gvcf_min_gqx opt); [destruct (_ <? _)|];
    (destruct (is_gvcf_max_depth opt); [destruct (_ >? _)|]);
    cbn; rewrite ?test_set_filter, ?H, ?orb_true_r; reflexivity.
Qed.

Lemma conflict_indel_record_fields (opt : starling_options) (ii : indel_info) :
  ii_pos (conflict_indel_record opt ii) = ii_pos ii
  /\ is_overlap (imod (conflict_indel_record opt ii)) = is_overlap (imod ii)
  /\ test_filter VCF_FILTERS.IndelConflict
       (imod_filters (imod (conflict_indel_record opt ii))) = true
  /\ cigar (imod (conflict_indel_record opt ii)) = get_hap_cigar (ik ii) 1 0.
Proof.
  unfold conflict_indel_record.
  destruct (add_indel_modifiers_imod opt
              (imod_set_filter VCF_FILTERS.IndelConflict
                 (with_imod ii (imod_with_cigar (imod ii) (get_hap_cigar (ik ii) 1 0)))))
    as (C & _ & O & _).
  destruct (add_indel_modifiers_fields opt
              (imod_set_filter VCF_FILTERS.IndelConflict
                 (with_imod ii (imod_with_cigar (imod ii) (get_hap_cigar (ik ii) 1 0)))))
    as (P & _).
  rewrite C, O, P. repeat split.
  apply add_indel_modifiers_keeps_filter. cbn.
  rewrite test_set_filter. reflexivity.
Qed.

Lemma adjust_sites_conflict (opt : starling_options) (ii0 : indel_info)
  (sites : list site_info) :
  Forall (fun si => ii_pos ii0 <= si_pos si) sites ->
  adjust_sites opt true ii0 sites = Some (map modify_indel_conflict_site sites).
Proof.
  induction 1 as [| si rest Hsi _ IH]; [reflexivity |].
  cbn [adjust_sites map].
  replace (0 <=? si_pos si - ii_pos ii0) with true by (symmetry; apply Z.leb_le; lia).
  cbn [assert_ok bind negb]. rewrite IH. reflexivity.
Qed.

(** The conflict route in terms of the writer: a group of two or more
    indels that is not a simple overlap is written member by member, in the
    merged position order of the indels and the sites with an indel before a
    site of the same position; every member carries the indel-conflict
    filter and the descriptor built from its own key; every buffered site
    gets the indel-conflict filter and keeps its genotype and its
    qualities. *)
Theorem process_overlaps_conflict (s : gvcf_aggregator) (ii0 : indel_info) :
  hd_error (_indel_buffer s) = Some ii0 ->
  (2 <= _indel_buffer_size s)%nat ->
  is_simple_indel_overlap (_indel_buffer s) (_indel_buffer_size s) = false ->
  Forall (fun ii => is_overlap (imod ii) = false) (_indel_buffer s) ->
  Forall (fun si => ii_pos ii0 <= si_pos si) (_site_buffer s) ->
  let members := map (conflict_indel_record (_opt s)) (_indel_buffer s) in
  let sites := map modify_indel_conflict_site (_site_buffer s) in
  let s3 :=
    with_site_buffer
      (emit (with_indel_buffer s members)
         (OtherLine ("INDEL_SIZE: " ++ show_Z (Z.of_nat (List.length members)) ++ NL)%string))
      sites in
  exists s',
    process_overlaps s = Some s'
    /\ s' = with_site_buffer
              (with_indel_buffer
                 (fold_left emit_conflict_event (merge_order members sites) s3) []) []
    /\ indel_lines s'
       = indel_lines s
         ++ map (fun ii => IndelLine (indel_record_text (_chrom s) ii [ii])) members
    /\ Forall2
         (fun ii ii' =>
            ii_pos ii' = ii_pos ii
            /\ test_filter VCF_FILTERS.IndelConflict (imod_filters (imod ii')) = true
            /\ cigar (imod ii') = get_hap_cigar (ik ii) 1 0)
         (_indel_buffer s) members
    /\ Forall2
         (fun si si' =>
            smod_filters (smod si')
            = set_filter VCF_FILTERS.IndelConflict (smod_filters (smod si))
            /\ dgt si' = dgt si
            /\ smod_max_gt (smod si') = smod_max_gt (smod si)
            /\ smod_gqx (smod si') = smod_gqx (smod si)
            /\ smod_modified_gt (smod si') = smod_modified_gt (smod si))
         (_site_buffer s) sites.
Proof.
  intros Hhd Hsz Hsimple Hov Hsites members sites s3.
  eexists. split; [| split; [reflexivity |]].
  - unfold process_overlaps.
    destruct (Nat.eqb_spec (_indel_buffer_size s) 0) as [Z0 | _]; [lia |].
    destruct (Nat.eqb_spec (_indel_buffer_size s) 1) as [Z1 | _]; [lia |].
    rewrite Hsimple. unfold modify_conflict_indel_record.
    replace (Nat.ltb 1 (_indel_buffer_size s)) with true
      by (symmetry; apply Nat.ltb_lt; lia).
    cbn [assert_ok bind]. fold members.
    assert (H0 : nth_error members 0 = Some (conflict_indel_record (_opt s) ii0)).
    { subst members. destruct (_indel_buffer s); [discriminate |].
      injection Hhd as ->. reflexivity. }
    cbn [_indel_buffer with_indel_buffer emit with_os _opt _site_buffer].
    rewrite H0. cbn [bind].
    rewrite adjust_sites_conflict.
    2:{ destruct (conflict_indel_record_fields (_opt s) ii0) as (-> & _). exact Hsites. }
    cbn [bind]. fold sites.
    change (_indel_buffer_size (with_indel_buffer s members)) with (List.length members).
    fold s3.
    rewrite write_merged_conflict.
    + reflexivity.
    + change (_indel_buffer s3) with members. subst members.
      apply Forall_map. apply Forall_forall. intros ii Hin.
      destruct (conflict_indel_record_fields (_opt s) ii) as (_ & -> & _).
      apply (proj1 (Forall_forall _ _) Hov ii Hin).
    + lia.
  - split; [| split].
    + unfold indel_lines. cbn [_os with_site_buffer with_indel_buffer].
      fold (indel_lines (fold_left emit_conflict_event (merge_order members sites) s3)).
      rewrite fold_conflict_indel_lines, lefts_merge_order.
      subst s3. unfold indel_lines, emit. cbn. rewrite filter_app. cbn.
      rewrite app_nil_r. reflexivity.
    + subst members. clear.
      induction (_indel_buffer s) as [| ii rest IH]; constructor.
      * destruct (conflict_indel_record_fields (_opt s) ii) as (P & _ & F & C).
        repeat split; assumption.
      * exact IH.
    + subst sites. clear. induction (_site_buffer s) as [| si rest IH]; constructor.
      * repeat split.
      * exact IH.
Qed.

End Emission.

(** ** The loops have fuel enough *)

Section Fuel.

Context {hdr : gvcf_header}.

Lemma write_block_site_record_buffers (s : gvcf_aggregator) :
  same_buffers s (write_block_site_record s).
Proof.
  unfold write_block_site_record.
  destruct (count (_block s) <=? 0); repeat split.
Qed.

Lemma queue_site_record_buffers (s : gvcf_aggregator) (si : site_info) :
  same_buffers s (queue_site_record s si).
Proof.
  unfold queue_site_record, write_block_site_record.
  destruct (negb (is_site_record_blockable (_opt s) si));
    [destruct (count (_block s) <=? 0) |];
    match goal with
    | |- context [if negb (block_test ?b si) then _ else _] =>
        destruct (negb (block_test b si))
    end;
    try match goal with
      | |- context [if ?c <=? 0 then _ else _] => destruct (c <=? 0)
      end;
    repeat split.
Qed.

Lemma write_indel_record_buffers (s s' : gvcf_aggregator) (i : nat) :
  write_indel_record s i = Some s' -> same_buffers s s'.
Proof.
  unfold write_indel_record.
  destruct (assert_ok _); [| discriminate]. cbn [bind]. cbv zeta.
  destruct (nth_error _ i); [| discriminate]. cbn [bind].
  destruct (indel_range _ _ _); [| discriminate]. cbn [bind].
  intros [= <-]. destruct (write_block_site_record_buffers s) as (B & S & H).
  repeat split; assumption.
Qed.

(** Past [_indel_buffer_size + _site_buffer_size] minus the two indices, the
    result of the merging loop does not depend on the fuel. *)
Lemma write_merged_fuel (fuel1 fuel2 : nat) (c : bool) (i j : nat) (s : gvcf_aggregator) :
  ((_indel_buffer_size s - i) + (_site_buffer_size s - j) <= fuel1)%nat ->
  ((_indel_buffer_size s - i) + (_site_buffer_size s - j) <= fuel2)%nat ->
  write_merged fuel1 c i j s = write_merged fuel2 c i j s.
Proof.
  revert fuel2 i j s. induction fuel1 as [| fuel1 IH]; intros fuel2 i j s H1 H2.
  - assert (Hb : negb (Nat.ltb i (_indel_buffer_size s)
                       || Nat.ltb j (_site_buffer_size s)) = true).
    { replace (Nat.ltb i (_indel_buffer_size s)) with false
        by (symmetry; apply Nat.ltb_ge; lia).
      replace (Nat.ltb j (_site_buffer_size s)) with false
        by (symmetry; apply Nat.ltb_ge; lia).
      reflexivity. }
    destruct fuel2; [reflexivity |]. rewrite write_merged_step, Hb.
    cbn [write_merged]. rewrite Hb. reflexivity.
  - destruct fuel2 as [| fuel2].
    + assert (Hb : negb (Nat.ltb i (_indel_buffer_size s)
                         || Nat.ltb j (_site_buffer_size s)) = true).
      { replace (Nat.ltb i (_indel_buffer_size s)) with false
          by (symmetry; apply Nat.ltb_ge; lia).
        replace (Nat.ltb j (_site_buffer_size s)) with false
          by (symmetry; apply Nat.ltb_ge; lia).
        reflexivity. }
      rewrite write_merged_step, Hb. cbn [write_merged]. rewrite Hb. reflexivity.
    + rewrite !write_merged_step.
      destruct (Nat.ltb_spec i (_indel_buffer_size s)) as [Li | Li];
        destruct (Nat.ltb_spec j (_site_buffer_size s)) as [Lj | Lj];
        cbn [orb negb andb]; try reflexivity.
      * destruct (match nth_error (_indel_buffer s) i with
                  | Some ii =>
                      match nth_error (_site_buffer s) j with
                      | Some si => ii_pos ii <=? si_pos si
                      | None => false
                      end
                  | None => false
                  end).
        -- destruct (write_indel_record s i) as [s1 |] eqn:E1; [| reflexivity].
           cbn [bind].
           destruct (write_indel_record_buffers s s1 i E1) as (B & S & _).
           unfold _indel_buffer_size, _site_buffer_size in *.
           apply IH; rewrite ?B, ?S; destruct c; lia.
        -- destruct (nth_error (_site_buffer s) j) as [si |]; [| reflexivity].
           cbn [bind].
           destruct (queue_site_record_buffers s si) as (B & S & _).
           unfold _indel_buffer_size, _site_buffer_size in *.
           apply IH; rewrite ?B, ?S; lia.
      * destruct (write_indel_record s i) as [s1 |] eqn:E1; [| reflexivity].
        cbn [bind].
        destruct (write_indel_record_buffers s s1 i E1) as (B & S & _).
        unfold _indel_buffer_size, _site_buffer_size in *.
        apply IH; rewrite ?B, ?S; destruct c; lia.
      * destruct (nth_error (_site_buffer s) j) as [si |]; [| reflexivity].
        cbn [bind].
        destruct (queue_site_record_buffers s si) as (B & S & _).
        unfold _indel_buffer_size, _site_buffer_size in *.
        apply IH; rewrite ?B, ?S; lia.
Qed.

Lemma write_merged_head (fuel : nat) (c : bool) (i j : nat) (s s' : gvcf_aggregator) :
  write_merged fuel c i j s = Some s' -> _head_pos s' = _head_pos s.
Proof.
  revert i j s. induction fuel as [| fuel IH]; intros i j s.
  - cbn [write_merged]. destruct (negb _); [| discriminate]. intros [= <-]. reflexivity.
  - rewrite write_merged_step. destruct (negb _); [intros [= <-]; reflexivity |].
    destruct (_ && _).
    + destruct (write_indel_record s i) as [s1 |] eqn:E1; [| discriminate].
      cbn [bind]. intros E. apply IH in E. rewrite E.
      apply (write_indel_record_buffers s s1 i E1).
    + destruct (nth_error (_site_buffer s) j) as [si |]; [| discriminate].
      cbn [bind]. intros E. apply IH in E. rewrite E.
      apply (queue_site_record_buffers s si).
Qed.

Lemma modify_single_indel_record_head (s s1 : gvcf_aggregator) :
  modify_single_indel_record s = Some s1 -> _head_pos s1 = _head_pos s.
Proof.
  unfold modify_single_indel_record.
  destruct (assert_ok _); [| discriminate]. cbn [bind].
  destruct (_indel_buffer s); [discriminate |].
  intros [= <-]. reflexivity.
Qed.

Lemma modify_overlap_indel_record_head (s s1 : gvcf_aggregator) :
  modify_overlap_indel_record s = Some s1 -> _head_pos s1 = _head_pos s.
Proof.
  unfold modify_overlap_indel_record.
  destruct (assert_ok _); [| discriminate]. cbn [bind].
  destruct (_indel_buffer s) as [| a [| b rest]]; try discriminate.
  cbv zeta.
  destruct (resize _ _); [| discriminate]. cbn [bind].
  destruct (add_cigar_to_ploidy _ _); [| discriminate]. cbn [bind].
  destruct (add_cigar_to_ploidy _ _); [| discriminate]. cbn [bind].
  intros [= <-]. reflexivity.
Qed.

Lemma modify_conflict_indel_record_head (s s1 : gvcf_aggregator) :
  modify_conflict_indel_record s = Some s1 -> _head_pos s1 = _head_pos s.
Proof.
  unfold modify_conflict_indel_record.
  destruct (assert_ok _); [| discriminate]. cbn [bind].
  intros [= <-]. reflexivity.
Qed.

Lemma process_overlaps_head (s s' : gvcf_aggregator) :
  process_overlaps s = Some s' -> _head_pos s' = _head_pos s.
Proof.
  unfold process_overlaps.
  destruct (Nat.eqb (_indel_buffer_size s) 0); [intros [= <-]; reflexivity |].
  assert (Tail : forall (s1 : gvcf_aggregator) (c : bool),
             _head_pos s1 = _head_pos s ->
             (let '(s1, is_conflict_print) := (s1, c) in
              let s2 :=
                emit s1
                  (OtherLine
                     ("INDEL_SIZE: " ++ show_Z (Z.of_nat (_indel_buffer_size s1)) ++ NL)%string) in
              ii0 <- nth_error (_indel_buffer s2) 0 ;;
              sites <- adjust_sites (_opt s2) is_conflict_print ii0 (_site_buffer s2) ;;
              let s3 := with_site_buffer s2 sites in
              s4 <- write_merged (_indel_buffer_size s3 + _site_buffer_size s3)
                      is_conflict_print 0 0 s3 ;;
              Some (with_site_buffer (with_indel_buffer s4 []) [])) = Some s' ->
             _head_pos s' = _head_pos s).
  { intros s1 c H1. cbv zeta.
    destruct (nth_error _ 0); [| discriminate]. cbn [bind].
    destruct (adjust_sites _ _ _ _); [| discriminate]. cbn [bind].
    destruct (write_merged _ _ _ _ _) as [s4 |] eqn:E4; [| discriminate]. cbn [bind].
    intros [= <-]. apply write_merged_head in E4.
    cbn [_head_pos with_site_buffer with_indel_buffer]. rewrite E4. exact H1. }
  destruct (Nat.eqb (_indel_buffer_size s) 1);
    [| destruct (is_simple_indel_overlap _ _)].
  - destruct (modify_single_indel_record s) as [s1 |] eqn:E; [| discriminate].
    cbn [bind]. apply Tail. apply modify_single_indel_record_head. exact E.
  - destruct (modify_overlap_indel_record s) as [s1 |] eqn:E; [| discriminate].
    cbn [bind]. apply Tail. apply modify_overlap_indel_record_head. exact E.
  - destruct (modify_conflict_indel_record s) as [s1 |] eqn:E; [| discriminate].
    cbn [bind]. apply Tail. apply modify_conflict_indel_record_head. exact E.
Qed.

Lemma add_site_internal_head (s s' : gvcf_aggregator) (si : site_info) :
  add_site_internal s si = Some s' -> _head_pos s' = si_pos si + 1.
Proof.
  unfold add_site_internal. cbv zeta.
  destruct (negb _).
  - destruct (_ >=? _).
    + destruct (process_overlaps _) as [s1 |] eqn:E1; [| discriminate].
      cbn [bind]. intros [= <-].
      destruct (queue_site_record_buffers s1 si) as (_ & _ & ->).
      apply process_overlaps_head in E1. rewrite E1. reflexivity.
    + intros [= <-]. reflexivity.
  - intros [= <-].
    destruct (queue_site_record_buffers (with_head_pos s (si_pos si + 1)) si)
      as (_ & _ & ->). reflexivity.
Qed.

(** Past [target_pos - _head_pos], the result of the filling loop does not
    depend on the fuel. *)
Lemma skip_to_pos_loop_fuel (fuel1 fuel2 : nat) (s : gvcf_aggregator) (target_pos : pos_t) :
  (Z.to_nat (target_pos - _head_pos s) <= fuel1)%nat ->
  (Z.to_nat (target_pos - _head_pos s) <= fuel2)%nat ->
  skip_to_pos_loop fuel1 s target_pos = skip_to_pos_loop fuel2 s target_pos.
Proof.
  revert fuel2 s. induction fuel1 as [| fuel1 IH]; intros fuel2 s H1 H2.
  - destruct fuel2; cbn [skip_to_pos_loop];
      destruct (Z.ltb_spec (_head_pos s) target_pos); try reflexivity; lia.
  - destruct fuel2 as [| fuel2]; cbn [skip_to_pos_loop];
      destruct (Z.ltb_spec (_head_pos s) target_pos) as [Lt | Ge];
      try reflexivity; [lia |].
    destruct (add_site_internal s (get_empty_site s (_head_pos s))) as [s1 |] eqn:E1;
      [| reflexivity].
    cbn [bind]. apply add_site_internal_head in E1. cbn in E1.
    destruct (negb _).
    + apply IH; rewrite E1; lia.
    + destruct (assert_ok _); [| reflexivity]. cbn [bind].
      apply IH; cbn [_head_pos with_head_pos]; lia.
Qed.

End Fuel.

(** ** The properties on the example inputs *)

Ltac forall_by tac :=
  vm_compute; repeat (apply Forall_cons; [vm_compute; tac |]); apply Forall_nil.

Lemma adjustableb_sound {hdr : gvcf_header} (ii0 : indel_info) (sites : list site_info) :
  forallb (adjustableb ii0) sites = true -> Forall (adjustable ii0) sites.
Proof.
  intros H. apply Forall_forall. intros si Hin.
  rewrite forallb_forall in H. specialize (H si Hin).
  unfold adjustableb in H. apply andb_prop in H as [H1 H2].
  split; [apply Z.leb_le; exact H1 |].
  apply orb_prop in H2 as [H2 | H2]; apply N.eqb_eq in H2; [left | right]; exact H2.
Qed.


Lemma ex_pair_is_overlap_pair : overlap_pair ex_pair_state ex_a ex_b.
Proof.
  unfold overlap_pair.
  repeat split; vm_compute; first [reflexivity | discriminate].
Defined.

Lemma ex_pair_sites_adjustable :
  Forall (adjustable ex_merged) (_site_buffer ex_pair_state).
Proof. apply adjustableb_sound. vm_compute. reflexivity. Defined.

Lemma modify_overlap_indel_record_ploidy_witness :
  overlap_pair ex_pair_state ex_a ex_b
  /\ exists a' b',
       modify_overlap_indel_record ex_pair_state
       = Some (with_indel_buffer ex_pair_state [a'; b'])
       /\ cigar (imod a')
          = get_hap_cigar (ik ex_a) 1
              (Z.to_N (_indel_end_pos ex_pair_state - right_pos (ik ex_a)))
       /\ cigar (imod b')
          = get_hap_cigar (ik ex_b) (Z.to_N (ii_pos ex_b - ii_pos ex_a + 1))
              (Z.to_N (_indel_end_pos ex_pair_state - right_pos (ik ex_b)))
       /\ List.length (ploidy (imod a'))
          = Z.to_nat (_indel_end_pos ex_pair_state - ii_pos ex_a)
       /\ forall p : pos_t,
            ii_pos ex_a <= p < _indel_end_pos ex_pair_state ->
            nth (Z.to_nat (p - ii_pos ex_a)) (ploidy (imod a')) 0%N
            = (hap_ploidy (cigar (imod a')) (p - ii_pos ex_a)
               + hap_ploidy (cigar (imod b')) (p - ii_pos ex_a))%N
            /\ hap_ploidy (cigar (imod a')) (p - ii_pos ex_a)
               = (if in_deletion ex_a p then 0%N else 1%N)
            /\ hap_ploidy (cigar (imod b')) (p - ii_pos ex_a)
               = (if in_deletion ex_b p then 0%N else 1%N).
Proof.
  split; [exact ex_pair_is_overlap_pair |].
  exact (modify_overlap_indel_record_ploidy ex_pair_state ex_a ex_b
           ex_pair_is_overlap_pair).
Defined.

(** ** What the code does where it departs from the specification *)

Lemma append_assoc (a b c : string) : ((a ++ b) ++ c = a ++ (b ++ c))%string.
Proof. induction a as [| ch a IH]; cbn; [reflexivity | rewrite IH; reflexivity]. Qed.

Lemma suffix_after (x r t : string) :
  (exists pre, r = pre ++ t)%string -> (exists pre, x ++ r = pre ++ t)%string.
Proof.
  intros [pre ->]. exists (x ++ pre)%string. symmetry. apply append_assoc.
Qed.

(** C1. Finalization writes a pending indel group but not the block that is
    open when it ends.  On the region 0 to 10 with one pending heterozygous
    deletion at 5, the destructor writes the block before the deletion and
    the deletion, and ends with the block of positions 5 to 10 still open;
    with no call at all it writes nothing and ends with the block of the
    whole region open. *)
Theorem destructor_leaves_block_open :
  observe
    (s1 <- add_indel ex_aggregator 5 (ex_key 5 3) (ex_het 60 50) (ex_iri "A") ex_isri ;;
     destruct_aggregator s1)
  = Some
      ([],
       [OtherLine ("INDEL_SIZE: 1" ++ NL)%string;
        SiteLine (tsv ["chr1"; "1"; "."; "N"; "."; "."; "LowGQX";
                       "END=5;BLOCKAVG_min30p3a"; "GT:GQX"; "0/0;."]%string);
        IndelLine (tsv ["chr1"; "5"; "."; "AAAA"; "A"; "60"; ".";
                        "CIGAR=1M3D"; "GT:GQX"; "0/1:50"]%string)],
       5, 6)
  /\ observe (destruct_aggregator ex_aggregator) = Some ([], [], 0, 11).
Proof. split; vm_compute; reflexivity. Qed.

Section Departures.

Context {hdr : gvcf_header}.

Lemma queue_site_record_unblockable (s : gvcf_aggregator) (si : site_info) :
  is_site_record_blockable (_opt s) si = false ->
  0 <= count (_block s) ->
  _os (queue_site_record s si)
  = _os (write_block_site_record s)
    ++ [SiteLine (site_record_text (write_block_site_record s) si)]
  /\ count (_block (queue_site_record s si)) = 1
  /\ record (_block (queue_site_record s si))
     = with_smod si (smod_with_block (smod si) true).
Proof.
  intros Hb Hc. unfold queue_site_record. rewrite Hb. cbn [negb].
  assert (H0 : count (_block (write_site_record (write_block_site_record s) si)) = 0).
  { unfold write_block_site_record.
    destruct (Z.leb_spec (count (_block s)) 0); cbn; [lia | reflexivity]. }
  unfold block_test. rewrite H0. cbn [Z.eqb orb negb].
  cbn [_os with_block _block block_join count record]. rewrite H0.
  repeat split.
Qed.

Lemma queue_site_record_count (s : gvcf_aggregator) (si : site_info) :
  0 <= count (_block s) -> 1 <= count (_block (queue_site_record s si)).
Proof.
  intros Hc. unfold queue_site_record.
  assert (Hf : forall s0, 0 <= count (_block s0) ->
                          0 <= count (_block (write_block_site_record s0))).
  { intros s0 H0. unfold write_block_site_record.
    destruct (count (_block s0) <=? 0); cbn; lia. }
  remember (if negb (is_site_record_blockable (_opt s) si)
            then write_site_record (write_block_site_record s) si else s)
    as s1 eqn:E1.
  assert (H1 : 0 <= count (_block s1)).
  { subst s1. destruct (negb _); [| exact Hc]. apply (Hf s Hc). }
  clear E1.
  destruct (negb (block_test (_block s1) si)); cbn [_block with_block block_join count].
  - specialize (Hf s1 H1). lia.
  - lia.
Qed.

(** With no indel pending and the cursor inside the region, finalization
    writes what queueing one filler site writes and ends with a block open. *)
Lemma destruct_aggregator_open_block (s : gvcf_aggregator) :
  _indel_buffer s = [] ->
  _head_pos s <= snd (_report_range s) ->
  0 <= count (_block s) ->
  exists s',
    destruct_aggregator s = Some s'
    /\ 0 < count (_block s')
    /\ _os s'
       = _os (queue_site_record (with_head_pos s (_head_pos s + 1))
                (get_empty_site s (_head_pos s))).
Proof.
  intros Hbuf Hhead Hc.
  unfold destruct_aggregator, skip_to_pos.
  destruct (Z.to_nat (snd (_report_range s) + 1 - _head_pos s)) as [| fuel] eqn:Ef;
    [lia |].
  cbn [skip_to_pos_loop].
  destruct (Z.ltb_spec (_head_pos s) (snd (_report_range s) + 1)) as [_ | Ge]; [| lia].
  unfold add_site_internal. cbv zeta.
  cbn [_indel_buffer_size with_head_pos _indel_buffer]. unfold _indel_buffer_size.
  cbn [with_head_pos _indel_buffer]. rewrite Hbuf. cbn [List.length Nat.eqb negb bind].
  cbn [get_empty_site with_pos si_pos].
  set (q := queue_site_record (with_head_pos s (_head_pos s + 1))
              (get_empty_site s (_head_pos s))).
  destruct (queue_site_record_buffers (with_head_pos s (_head_pos s + 1))
              (get_empty_site s (_head_pos s))) as (Bq & _ & Hq).
  fold q in Bq, Hq. cbn [with_head_pos _indel_buffer _head_pos] in Bq, Hq.
  rewrite Bq, Hbuf. cbn [List.length Nat.eqb negb].
  pose proof (queue_site_record_count (with_head_pos s (_head_pos s + 1))
                (get_empty_site s (_head_pos s)) Hc) as Cq.
  fold q in Cq.
  replace (count (_block q) =? 0) with false by (symmetry; apply Z.eqb_neq; lia).
  cbn [negb assert_ok bind].
  set (s2 := with_head_pos _ _).
  assert (E2 : skip_to_pos_loop fuel s2 (snd (_report_range s) + 1) = Some s2).
  { destruct fuel; cbn [skip_to_pos_loop]; subst s2; cbn [_head_pos with_head_pos];
      rewrite Z.ltb_irrefl; reflexivity. }
  rewrite E2. cbn [bind]. unfold process_overlaps, _indel_buffer_size.
  subst s2. cbn [_indel_buffer with_head_pos with_block]. rewrite Bq, Hbuf.
  cbn [List.length Nat.eqb]. eexists. split; [reflexivity |].
  cbn [_block with_head_pos with_block block_with_count count _os].
  split; [rewrite Hq; lia | reflexivity].
Qed.

Lemma add_indel_end_pos (s s' : gvcf_aggregator) (pos : pos_t) (k : indel_key)
  (d : starling_diploid_indel_core) (r : starling_indel_report_info)
  (sr : starling_indel_sample_report_info) :
  is_breakpoint k = false ->
  is_no_indel d = false ->
  add_indel s pos k d r sr = Some s' ->
  _indel_end_pos s' = right_pos k.
Proof.
  intros Hk Hd. unfold add_indel. rewrite Hk, Hd.
  destruct (skip_to_pos s pos) as [s1 |]; [| discriminate]. cbn [bind].
  destruct (if negb _ then _ else _) as [s2 |]; [| discriminate]. cbn [bind].
  intros [= <-]. reflexivity.
Qed.

Lemma site_record_text_sample (s : gvcf_aggregator) (si : site_info) :
  exists pre q : string,
    site_record_text s si
    = (pre ++ "GT:GQX" ++ TAB ++ site_get_gt si ++ ";" ++ q ++ NL)%string.
Proof.
  assert (H : exists pre : string,
             site_record_text s si
             = (pre ++ ("GT:GQX" ++ TAB ++ site_sample_field s si ++ NL))%string).
  { unfold site_record_text.
    repeat (first [exists EmptyString; reflexivity | apply suffix_after]). }
  destruct H as [pre H]. exists pre. eexists. rewrite H.
  unfold site_sample_field.
  rewrite (append_assoc (site_get_gt si) _ NL).
  f_equal. f_equal. f_equal. f_equal.
  apply (append_assoc ";" _ NL).
Qed.

End Departures.

(** C2. A site that is not blockable is written as its own record and joined
    into the block all the same.  The heterozygous site at position 0 is
    written, opens a block of one position that holds it, and the next flush
    writes that block as a second record of the same position. *)
Theorem queue_site_record_joins_unblockable_site :
  let si := add_site_modifiers ex_opt (ex_site 0 4 50 5) in
  let s' := queue_site_record ex_aggregator si in
  is_site_record_blockable ex_opt si = false
  /\ _os s'
     = [SiteLine (tsv ["chr1"; "1"; "."; "A"; "C"; "50"; "."; "."; "GT:GQX"; "0/1;50"]%string)]
  /\ count (_block s') = 1
  /\ record (_block s') = with_smod si (smod_with_block (smod si) true)
  /\ _os (write_block_site_record s')
     = [SiteLine (tsv ["chr1"; "1"; "."; "A"; "C"; "50"; "."; "."; "GT:GQX"; "0/1;50"]%string);
        SiteLine (tsv ["chr1"; "1"; "."; "A"; "."; "."; ".";
                       "END=1;BLOCKAVG_min30p3a"; "GT:GQX"; "0/1;50"]%string)].
Proof. cbv zeta. repeat split; vm_compute; reflexivity. Qed.

Lemma incr_at_out_of_range (i : nat) (v : list N) :
  (List.length v <= i)%nat -> incr_at i v = None.
Proof.
  revert i. induction v as [| x v IH]; intros i Hi; [destruct i; reflexivity |].
  destruct i as [| i]; [cbn in Hi; lia |].
  cbn [incr_at]. rewrite IH by (cbn in Hi; lia). reflexivity.
Qed.

(** A descriptor whose deletion alone is longer than the vector runs out of
    the vector at its trailing match. *)
Lemma add_cigar_to_ploidy_short (k : indel_key) (trail : N) (pl : list N) :
  Z.of_nat (List.length pl) < Z.of_N (delete_length k) ->
  trail <> 0%N ->
  add_cigar_to_ploidy (get_hap_cigar k 1 trail) pl = None.
Proof.
  intros Hd Ht. unfold add_cigar_to_ploidy, get_hap_cigar.
  cbn [N.eqb app].
  destruct (N.eqb_spec (delete_length k) 0) as [E | _]; [lia |].
  destruct (N.eqb_spec trail 0) as [E | _]; [contradiction |].
  assert (Last : forall off,
             off = Z.of_N (delete_length k) ->
             add_cigar_from [path_segment_of ALIGNPATH.MATCH trail] off pl = None).
  { intros off ->. cbn [add_cigar_from path_segment_of ALIGNPATH.type ALIGNPATH.length].
    destruct (N.to_nat trail) as [| m] eqn:Em; [lia |].
    cbn [add_match_to_ploidy].
    replace (0 <=? Z.of_N (delete_length k)) with true by (symmetry; apply Z.leb_le; lia).
    rewrite incr_at_out_of_range by lia. reflexivity. }
  destruct (insert_length k =? 0)%N;
    cbn [app add_cigar_from path_segment_of ALIGNPATH.type ALIGNPATH.length
         N.to_nat Pos.to_nat Pos.iter_op Nat.add add_match_to_ploidy Z.leb Z.compare
         bind fst snd];
    apply Last; cbn [fst]; lia.
Qed.

(** When the right bound is short of the first member's right boundary, the
    trailing length of the first haplotype wraps around and the merge runs
    out of the ploidy vector. *)
Lemma modify_overlap_indel_record_short_bound (s : gvcf_aggregator) (a b : indel_info) :
  _indel_buffer s = [a; b] ->
  ploidy (imod a) = [] ->
  ii_pos a <= _indel_end_pos s < right_pos (ik a) ->
  right_pos (ik a) = ii_pos a + Z.of_N (delete_length (ik a)) ->
  right_pos (ik a) - _indel_end_pos s < 2 ^ 32 ->
  modify_overlap_indel_record s = None.
Proof.
  intros Hbuf Hpl Hr Ra Hw.
  unfold modify_overlap_indel_record, _indel_buffer_size. rewrite Hbuf.
  cbn [List.length Nat.eqb assert_ok bind].
  cbn [ii_pos with_imod with_iri imod imod_with_overlap imod_with_ploidy ploidy].
  rewrite Hpl. unfold resize.
  destruct (Z.ltb_spec (_indel_end_pos s - ii_pos a) 0) as [Neg | Pos]; [lia |].
  cbn [bind]. rewrite firstn_nil. cbn [app List.length]. rewrite Nat.sub_0_r.
  set (a3 := with_imod _ _).
  assert (Ca : exists trail,
             trail <> 0%N
             /\ cigar (imod (extend_haplotype s (ii_pos a - 1) a3))
                = get_hap_cigar (ik a) 1 trail).
  { exists (to_unsigned (_indel_end_pos s - right_pos (ik a))). split.
    - unfold to_unsigned.
      pose proof (Z.mod_pos_bound (_indel_end_pos s - right_pos (ik a)) (2 ^ 32)
                    ltac:(lia)) as Hm.
      assert (Hne : (_indel_end_pos s - right_pos (ik a)) mod 2 ^ 32 <> 0).
      { intros E0. apply Z.mod_divide in E0; [| lia].
        destruct E0 as [q Eq]. nia. }
      lia.
    - unfold extend_haplotype. subst a3.
      cbn [cigar imod with_imod imod_with_cigar ik with_iri ii_pos].
      rewrite !get_substring_length. f_equal.
      + replace (ii_pos a - (ii_pos a - 1) - 1) with 0 by lia. reflexivity.
      + assert (HU : 0 <= Z.of_N (to_unsigned (_indel_end_pos s - right_pos (ik a)))
                     < 2 ^ 32).
        { pose proof (Z.mod_pos_bound (_indel_end_pos s - right_pos (ik a)) (2 ^ 32)
                        ltac:(lia)) as Hm.
          unfold to_unsigned. rewrite Z2N.id by lia. exact Hm. }
        rewrite Z2Nat.id by lia. unfold to_unsigned at 1.
        rewrite Z.mod_small by exact HU. apply N2Z.id. }
  destruct Ca as (trail & Ht & Ca).
  assert (Pa : ploidy (imod (extend_haplotype s (ii_pos a - 1) a3))
               = repeat 0%N (Z.to_nat (_indel_end_pos s - ii_pos a))) by reflexivity.
  rewrite Pa, Ca.
  rewrite add_cigar_to_ploidy_short; [reflexivity | | exact Ht].
  rewrite repeat_length. lia.
Qed.

(** On the two deletions of the example the bound is 5, the first member
    reaches 10, and merging the pair has no result: the increments of the
    first haplotype fall outside the ploidy vector. *)
Lemma ex_short_state_aborts :
  _indel_end_pos ex_short_state = 5
  /\ map (fun ii => right_pos (ik ii)) (_indel_buffer ex_short_state) = [10; 5]
  /\ modify_overlap_indel_record ex_short_state = None.
Proof.
  split; [vm_compute; reflexivity |]. split; [vm_compute; reflexivity |].
  apply (modify_overlap_indel_record_short_bound ex_short_state
           (init 2 (ex_key 2 8) (ex_het 60 50) (ex_iri "A") ex_isri)
           (init 4 (ex_key 4 1) (ex_het 60 50) (ex_iri "A") ex_isri));
    vm_compute; try reflexivity; split; first [reflexivity | discriminate].
Qed.

(** C3. After an accepted [add_indel] the right bound is the right boundary
    of the call just stored, whatever the buffer held.  With a deletion of
    positions 2 to 9 buffered (right bound 10), a deletion of position 4
    brings the bound down to 5. *)
Theorem add_indel_right_bound_is_last :
  option_map _indel_end_pos
    (add_indel ex_aggregator 2 (ex_key 2 8) (ex_het 60 50) (ex_iri "A") ex_isri)
  = Some 10
  /\ option_map
       (fun s => (map (fun ii => right_pos (ik ii)) (_indel_buffer s), _indel_end_pos s))
       (s1 <- add_indel ex_aggregator 2 (ex_key 2 8) (ex_het 60 50) (ex_iri "A") ex_isri ;;
        add_indel s1 4 (ex_key 4 1) (ex_het 60 50) (ex_iri "A") ex_isri)
     = Some ([10; 5], 5).
Proof. split; vm_compute; reflexivity. Qed.

(** C4. The stream holds a line that is no record, and a site record's
    sample column joins genotype and quality with a semicolon.  Finalizing
    one pending insertion and writing one heterozygous site gives the three
    lines below. *)
Theorem output_lines_of_one_indel_and_one_site :
  option_map _os
    (s1 <- add_indel ex_aggregator 0 (ex_key 0 0) (ex_het 60 50) (ex_iri "AC") ex_isri ;;
     add_site s1 (ex_site 0 4 50 5))
  = Some
      [OtherLine ("INDEL_SIZE: 1" ++ NL)%string;
       IndelLine (tsv ["chr1"; "0"; "."; "AAAA"; "AC"; "60"; ".";
                       "CIGAR=1M1I"; "GT:GQX"; "0/1:50"]%string);
       SiteLine (tsv ["chr1"; "1"; "."; "A"; "C"; "50"; "."; ".";
                      "GT:GQX"; "0/1;50"]%string)].
Proof. vm_compute. reflexivity. Qed.

(** * Further properties of the aggregator *)

(** ** The cursor and the filling of gaps *)

Section Cursor.

Context {hdr : gvcf_header}.

Lemma skip_to_pos_loop_head (fuel : nat) (s s' : gvcf_aggregator) (t : pos_t) :
  skip_to_pos_loop fuel s t = Some s' -> _head_pos s' = Z.max (_head_pos s) t.
Proof.
  revert s. induction fuel as [| fuel IH]; intros s; cbn [skip_to_pos_loop];
    destruct (Z.ltb_spec (_head_pos s) t) as [Lt | Ge];
    try discriminate; try (intros [= <-]; lia).
  destruct (add_site_internal s (get_empty_site s (_head_pos s))) as [s1 |] eqn:E1;
    [| discriminate].
  cbn [bind]. apply add_site_internal_head in E1. cbn in E1.
  destruct (negb _).
  - intros H. apply IH in H. lia.
  - destruct (assert_ok _); [| discriminate]. cbn [bind].
    intros H. apply IH in H. cbn [_head_pos with_head_pos] in H. lia.
Qed.

(** X1. [skip_to_pos] never moves the cursor backward: when it returns,
    [_head_pos] is the larger of its old value and the target, and a target
    at or before the cursor leaves the aggregator as it is. *)
Theorem skip_to_pos_cursor (s : gvcf_aggregator) (t : pos_t) :
  (t <= _head_pos s -> skip_to_pos s t = Some s)
  /\ (forall s', skip_to_pos s t = Some s' -> _head_pos s' = Z.max (_head_pos s) t).
Proof.
  split.
  - intros Le. unfold skip_to_pos.
    destruct (Z.to_nat (t - _head_pos s)); cbn [skip_to_pos_loop];
      destruct (Z.ltb_spec (_head_pos s) t); try reflexivity; lia.
  - intros s'. apply skip_to_pos_loop_head.
Qed.

Lemma skip_to_pos_loop_rest (fuel : nat) (s : gvcf_aggregator) (t : pos_t) :
  t <= _head_pos s -> skip_to_pos_loop fuel s t = Some s.
Proof.
  intros Le. destruct fuel; cbn [skip_to_pos_loop];
    destruct (Z.ltb_spec (_head_pos s) t); try reflexivity; lia.
Qed.

(** X2. With no indel pending, [skip_to_pos] queues one filler site, at the
    cursor, and covers the rest of the gap by adding its length to the run
    length of the block: the gap costs one queued site whatever its
    length. *)
Theorem skip_to_pos_fills_gap (s : gvcf_aggregator) (t : pos_t) :
  _indel_buffer s = [] ->
  _head_pos s < t ->
  0 <= count (_block s) ->
  let q :=
    queue_site_record (with_head_pos s (_head_pos s + 1))
      (get_empty_site s (_head_pos s)) in
  skip_to_pos s t
  = Some (with_head_pos
            (with_block q
               (block_with_count (_block q)
                  (count (_block q) + (t - (_head_pos s + 1))))) t).
Proof.
  intros Hbuf Hhead Hc q. unfold skip_to_pos.
  destruct (Z.to_nat (t - _head_pos s)) as [| fuel] eqn:Ef; [lia |].
  cbn [skip_to_pos_loop].
  destruct (Z.ltb_spec (_head_pos s) t) as [_ | Ge]; [| lia].
  unfold add_site_internal. cbv zeta. unfold _indel_buffer_size.
  cbn [with_head_pos _indel_buffer]. rewrite Hbuf. cbn [List.length Nat.eqb negb bind].
  cbn [get_empty_site with_pos si_pos]. fold (get_empty_site s (_head_pos s)). fold q.
  destruct (queue_site_record_buffers (with_head_pos s (_head_pos s + 1))
              (get_empty_site s (_head_pos s))) as (Bq & _ & Hq).
  fold q in Bq, Hq. cbn [with_head_pos _indel_buffer _head_pos] in Bq, Hq.
  rewrite Bq, Hbuf. cbn [List.length Nat.eqb negb].
  pose proof (queue_site_record_count (with_head_pos s (_head_pos s + 1))
                (get_empty_site s (_head_pos s)) Hc) as Cq.
  fold q in Cq.
  replace (count (_block q) =? 0) with false by (symmetry; apply Z.eqb_neq; lia).
  cbn [negb assert_ok bind]. rewrite Hq.
  apply skip_to_pos_loop_rest. cbn [_head_pos with_head_pos]. lia.
Qed.

Lemma positions_cons (from to : pos_t) :
  from < to -> positions from to = from :: positions (from + 1) to.
Proof.
  intros Lt. unfold positions.
  replace (Z.to_nat (to - from)) with (S (Z.to_nat (to - (from + 1)))) by lia.
  cbn [seq map]. f_equal; [lia |].
  rewrite <- seq_shift, map_map. apply map_ext. intros k. lia.
Qed.

Lemma positions_nil (from to : pos_t) : to <= from -> positions from to = [].
Proof.
  intros Le. unfold positions. replace (Z.to_nat (to - from)) with 0%nat by lia.
  reflexivity.
Qed.

Lemma pending_size (s : gvcf_aggregator) :
  _indel_buffer s <> [] -> Nat.eqb (_indel_buffer_size s) 0 = false.
Proof.
  unfold _indel_buffer_size. destruct (_indel_buffer s); [congruence | reflexivity].
Qed.

(** Under a pending indel, up to its right bound, the filling loop buffers
    one empty site per position. *)
Lemma skip_to_pos_loop_pending (fuel : nat) (s : gvcf_aggregator) (t : pos_t) :
  _indel_buffer s <> [] ->
  _head_pos s <= t <= _indel_end_pos s ->
  (Z.to_nat (t - _head_pos s) <= fuel)%nat ->
  skip_to_pos_loop fuel s t
  = Some (with_head_pos
            (with_site_buffer s
               (_site_buffer s ++ map (get_empty_site s) (positions (_head_pos s) t)))
            t).
Proof.
  revert s. induction fuel as [| fuel IH]; intros s Hp Hr Hf.
  - cbn [skip_to_pos_loop].
    destruct (Z.ltb_spec (_head_pos s) t) as [Lt | Ge]; [lia |].
    rewrite positions_nil by lia. cbn [map]. rewrite app_nil_r.
    replace t with (_head_pos s) by lia. destruct s; reflexivity.
  - cbn [skip_to_pos_loop].
    destruct (Z.ltb_spec (_head_pos s) t) as [Lt | Ge].
    + unfold add_site_internal. cbv zeta.
      change (_indel_buffer_size (with_head_pos s (si_pos (get_empty_site s (_head_pos s)) + 1)))
        with (_indel_buffer_size s).
      rewrite (pending_size s Hp). cbn [negb].
      cbn [get_empty_site with_pos si_pos with_head_pos _indel_end_pos].
      destruct (Z.geb_spec (_head_pos s) (_indel_end_pos s)) as [G | _]; [lia |].
      cbn [bind].
      set (s1 := with_site_buffer _ _).
      change (_indel_buffer_size s1) with (_indel_buffer_size s).
      rewrite (pending_size s Hp). cbn [negb].
      rewrite IH.
      * subst s1. cbn [with_site_buffer with_head_pos _site_buffer _head_pos
                       _opt _report_range _ref _os _chrom _indel_end_pos _indel_buffer
                       _block _empty_site].
        rewrite (positions_cons (_head_pos s) t Lt). cbn [map].
        rewrite <- app_assoc. reflexivity.
      * exact Hp.
      * subst s1. cbn [with_site_buffer with_head_pos _head_pos _indel_end_pos]. lia.
      * subst s1. cbn [with_site_buffer with_head_pos _head_pos]. lia.
    + rewrite positions_nil by lia. cbn [map]. rewrite app_nil_r.
      replace t with (_head_pos s) by lia. destruct s; reflexivity.
Qed.

Lemma add_site_modifiers_pos (opt : starling_options) (si : site_info) :
  si_pos (add_site_modifiers opt si) = si_pos si.
Proof. unfold add_site_modifiers. cbv zeta. rewrite set_site_filters_pos. reflexivity. Qed.

(** X3. A site submitted inside the span of a pending indel is deferred:
    [add_site] writes nothing and appends to the site buffer one empty site
    for every position from the cursor up to the site, then the site with
    its modifiers, and leaves the cursor one past the site. *)
Theorem add_site_deferred (s : gvcf_aggregator) (si : site_info) :
  _indel_buffer s <> [] ->
  _head_pos s <= si_pos si < _indel_end_pos s ->
  add_site s si
  = Some (with_head_pos
            (with_site_buffer s
               (_site_buffer s
                ++ map (get_empty_site s) (positions (_head_pos s) (si_pos si))
                ++ [add_site_modifiers (_opt s) si]))
            (si_pos si + 1)).
Proof.
  intros Hp Hr. unfold add_site, skip_to_pos.
  rewrite skip_to_pos_loop_pending by (try assumption; lia).
  cbn [bind]. unfold add_site_internal. cbv zeta.
  set (s1 := with_head_pos (with_site_buffer s _) (si_pos si)).
  change (_indel_buffer_size (with_head_pos s1 _)) with (_indel_buffer_size s).
  rewrite (pending_size s Hp). cbn [negb].
  rewrite add_site_modifiers_pos.
  change (_indel_end_pos (with_head_pos s1 (si_pos si + 1))) with (_indel_end_pos s).
  destruct (Z.geb_spec (si_pos si) (_indel_end_pos s)) as [G | _]; [lia |].
  subst s1. cbn [with_site_buffer with_head_pos _site_buffer _head_pos
                 _opt _report_range _ref _os _chrom _indel_end_pos _indel_buffer
                 _block _empty_site].
  rewrite <- app_assoc. reflexivity.
Qed.

End Cursor.

(** ** The two buffers *)

Section Buffers.

Context {hdr : gvcf_header}.

Lemma size_zero_nil (s : gvcf_aggregator) :
  Nat.eqb (_indel_buffer_size s) 0 = true -> _indel_buffer s = [].
Proof.
  unfold _indel_buffer_size. destruct (_indel_buffer s); [reflexivity | discriminate].
Qed.

Lemma size_nonzero (s : gvcf_aggregator) :
  Nat.eqb (_indel_buffer_size s) 0 = false -> _indel_buffer s <> [].
Proof.
  unfold _indel_buffer_size. destruct (_indel_buffer s); [discriminate | congruence].
Qed.

(** [process_overlaps] returns with nothing pending: either nothing was, and
    it did nothing, or it has emptied both buffers. *)
Lemma process_overlaps_buffers (s s' : gvcf_aggregator) :
  process_overlaps s = Some s' ->
  (_indel_buffer s = [] /\ s' = s)
  \/ (_indel_buffer s <> [] /\ _indel_buffer s' = [] /\ _site_buffer s' = []).
Proof.
  unfold process_overlaps.
  destruct (Nat.eqb (_indel_buffer_size s) 0) eqn:E0.
  - intros [= <-]. left. split; [apply size_zero_nil; exact E0 | reflexivity].
  - intros H. right. split; [apply size_nonzero; exact E0 |].
    destruct (if Nat.eqb (_indel_buffer_size s) 1 then _ else _) as [[s1 c] |];
      [| discriminate].
    cbn [bind] in H. cbv zeta in H.
    destruct (nth_error _ 0); [| discriminate]. cbn [bind] in H.
    destruct (adjust_sites _ _ _ _); [| discriminate]. cbn [bind] in H.
    destruct (write_merged _ _ _ _ _); [| discriminate]. cbn [bind] in H.
    injection H as <-. split; reflexivity.
Qed.

Lemma add_site_internal_consistent (s s' : gvcf_aggregator) (si : site_info) :
  buffers_consistent s -> add_site_internal s si = Some s' -> buffers_consistent s'.
Proof.
  intros Inv. unfold add_site_internal. cbv zeta.
  change (_indel_buffer_size (with_head_pos s (si_pos si + 1)))
    with (_indel_buffer_size s).
  destruct (Nat.eqb (_indel_buffer_size s) 0) eqn:E0; cbn [negb].
  - intros [= <-].
    destruct (queue_site_record_buffers (with_head_pos s (si_pos si + 1)) si)
      as (B & S & _).
    unfold buffers_consistent. rewrite B, S. exact Inv.
  - destruct (_ >=? _).
    + destruct (process_overlaps _) as [s1 |] eqn:E1; [| discriminate].
      cbn [bind]. intros [= <-].
      destruct (queue_site_record_buffers s1 si) as (B & S & _).
      unfold buffers_consistent. rewrite B, S. intros _.
      apply process_overlaps_buffers in E1.
      destruct E1 as [(N & _) | (_ & _ & Hs)]; [| exact Hs].
      apply size_nonzero in E0. contradiction.
    + intros [= <-]. intros N. cbn in N. apply size_nonzero in E0. contradiction.
Qed.

Lemma skip_to_pos_loop_consistent (fuel : nat) (s s' : gvcf_aggregator) (t : pos_t) :
  buffers_consistent s -> skip_to_pos_loop fuel s t = Some s' -> buffers_consistent s'.
Proof.
  revert s. induction fuel as [| fuel IH]; intros s Inv; cbn [skip_to_pos_loop];
    destruct (_head_pos s <? t); try discriminate;
    try (intros [= <-]; exact Inv).
  destruct (add_site_internal s (get_empty_site s (_head_pos s))) as [s1 |] eqn:E1;
    [| discriminate].
  cbn [bind]. apply add_site_internal_consistent in E1; [| exact Inv].
  destruct (negb _).
  - apply IH. exact E1.
  - destruct (assert_ok _); [| discriminate]. cbn [bind].
    apply IH. exact E1.
Qed.

(** X4. Sites are only ever buffered behind a pending indel: an aggregator
    starts with both buffers empty, and every [add_site] and [add_indel] that
    returns leaves the site buffer empty whenever the indel buffer is. *)
Theorem buffers_consistent_kept :
  (forall opt range ref, buffers_consistent (construct opt range ref))
  /\ (forall s si s',
         buffers_consistent s -> add_site s si = Some s' -> buffers_consistent s')
  /\ (forall s pos k d r sr s',
         buffers_consistent s -> add_indel s pos k d r sr = Some s' ->
         buffers_consistent s').
Proof.
  split; [| split].
  - intros opt range ref _. reflexivity.
  - intros s si s' Inv. unfold add_site.
    destruct (skip_to_pos s (si_pos si)) as [s1 |] eqn:E1; [| discriminate].
    cbn [bind]. apply add_site_internal_consistent.
    apply (skip_to_pos_loop_consistent _ _ _ _ Inv E1).
  - intros s pos k d r sr s' Inv. unfold add_indel.
    destruct (is_breakpoint k); [intros [= <-]; exact Inv |].
    destruct (is_no_indel d); [intros [= <-]; exact Inv |].
    destruct (skip_to_pos s pos) as [s1 |]; [| discriminate]. cbn [bind].
    destruct (if negb _ then _ else _) as [s2 |]; [| discriminate]. cbn [bind].
    intros [= <-]. intros N. cbn in N. destruct (_indel_buffer s2); discriminate.
Qed.

(** X5. Finalization leaves nothing pending: when the destructor returns,
    both buffers are empty, and the cursor is one past the end of the
    report range unless it already was beyond. *)
Theorem destruct_aggregator_drains (s s' : gvcf_aggregator) :
  buffers_consistent s ->
  destruct_aggregator s = Some s' ->
  _indel_buffer s' = [] /\ _site_buffer s' = []
  /\ _head_pos s' = Z.max (_head_pos s) (snd (_report_range s) + 1).
Proof.
  intros Inv. unfold destruct_aggregator.
  destruct (skip_to_pos s (snd (_report_range s) + 1)) as [s1 |] eqn:E1; [| discriminate].
  cbn [bind]. intros E2.
  pose proof (skip_to_pos_loop_consistent _ _ _ _ Inv E1) as Inv1.
  pose proof (skip_to_pos_loop_head _ _ _ _ E1) as H1.
  pose proof (process_overlaps_head _ _ E2) as H2.
  apply process_overlaps_buffers in E2.
  destruct E2 as [(N & ->) | (_ & B & S)].
  - split; [exact N |]. split; [apply Inv1; exact N | exact H1].
  - split; [exact B |]. split; [exact S | congruence].
Qed.

End Buffers.

(** ** What the operations leave alone *)

Section Frame.

Context {hdr : gvcf_header}.

Lemma same_config_refl (s : gvcf_aggregator) : same_config s s.
Proof. repeat split. Qed.

Lemma same_config_trans (s1 s2 s3 : gvcf_aggregator) :
  same_config s1 s2 -> same_config s2 s3 -> same_config s1 s3.
Proof.
  intros (A1 & B1 & C1 & D1 & E1 & F1) (A2 & B2 & C2 & D2 & E2 & F2).
  repeat split; congruence.
Qed.

Lemma write_block_site_record_config (s : gvcf_aggregator) :
  same_config s (write_block_site_record s).
Proof.
  unfold write_block_site_record.
  destruct (count (_block s) <=? 0); repeat split.
Qed.

Lemma queue_site_record_config (s : gvcf_aggregator) (si : site_info) :
  same_config s (queue_site_record s si).
Proof.
  unfold queue_site_record.
  remember (if negb (is_site_record_blockable (_opt s) si)
            then write_site_record (write_block_site_record s) si else s)
    as s1 eqn:E1.
  assert (H1 : same_config s s1).
  { subst s1. destruct (negb _); [| apply same_config_refl].
    eapply same_config_trans; [apply write_block_site_record_config |].
    repeat split. }
  clear E1.
  remember (if negb (block_test (_block s1) si)
            then write_block_site_record s1 else s1) as s2 eqn:E2.
  assert (H2 : same_config s1 s2).
  { subst s2. destruct (negb _);
      [apply write_block_site_record_config | apply same_config_refl]. }
  clear E2.
  eapply same_config_trans; [exact H1 |].
  eapply same_config_trans; [exact H2 |]. repeat split.
Qed.

Lemma write_indel_record_config (s s' : gvcf_aggregator) (i : nat) :
  write_indel_record s i = Some s' -> same_config s s'.
Proof.
  unfold write_indel_record.
  destruct (assert_ok _); [| discriminate]. cbn [bind]. cbv zeta.
  destruct (nth_error _ i); [| discriminate]. cbn [bind].
  destruct (indel_range _ _ _); [| discriminate]. cbn [bind].
  intros [= <-].
  eapply same_config_trans; [apply write_block_site_record_config |].
  repeat split.
Qed.

Lemma write_merged_config (fuel : nat) (c : bool) (i j : nat) (s s' : gvcf_aggregator) :
  write_merged fuel c i j s = Some s' -> same_config s s'.
Proof.
  revert i j s. induction fuel as [| fuel IH]; intros i j s.
  - cbn [write_merged]. destruct (negb _); [| discriminate].
    intros [= <-]. apply same_config_refl.
  - rewrite write_merged_step.
    destruct (negb _); [intros [= <-]; apply same_config_refl |].
    destruct (_ && _).
    + destruct (write_indel_record s i) as [s1 |] eqn:E1; [| discriminate].
      cbn [bind]. intros E. apply IH in E.
      eapply same_config_trans; [apply (write_indel_record_config _ _ _ E1) | exact E].
    + destruct (nth_error (_site_buffer s) j) as [si |]; [| discriminate].
      cbn [bind]. intros E. apply IH in E.
      eapply same_config_trans; [apply queue_site_record_config | exact E].
Qed.

Lemma process_overlaps_config (s s' : gvcf_aggregator) :
  process_overlaps s = Some s' -> same_config s s'.
Proof.
  unfold process_overlaps.
  destruct (Nat.eqb (_indel_buffer_size s) 0); [intros [= <-]; apply same_config_refl |].
  assert (M : forall s1 c,
             (if Nat.eqb (_indel_buffer_size s) 1
              then s1 <- modify_single_indel_record s ;; Some (s1, false)
              else if is_simple_indel_overlap (_indel_buffer s) (_indel_buffer_size s)
                   then s1 <- modify_overlap_indel_record s ;; Some (s1, false)
                   else s1 <- modify_conflict_indel_record s ;; Some (s1, true))
             = Some (s1, c) ->
             same_config s s1).
  { intros s1 c.
    destruct (Nat.eqb (_indel_buffer_size s) 1);
      [| destruct (is_simple_indel_overlap _ _)].
    - unfold modify_single_indel_record.
      destruct (assert_ok _); [| discriminate]. cbn [bind].
      destruct (_indel_buffer s); [discriminate |].
      cbn [bind]. intros [= <- _]. repeat split.
    - unfold modify_overlap_indel_record.
      destruct (assert_ok _); [| discriminate]. cbn [bind].
      destruct (_indel_buffer s) as [| a [| b rest]]; try discriminate.
      cbv zeta.
      destruct (resize _ _); [| discriminate]. cbn [bind].
      destruct (add_cigar_to_ploidy _ _); [| discriminate]. cbn [bind].
      destruct (add_cigar_to_ploidy _ _); [| discriminate]. cbn [bind].
      intros [= <- _]. repeat split.
    - unfold modify_conflict_indel_record.
      destruct (assert_ok _); [| discriminate]. cbn [bind].
      intros [= <- _]. repeat split. }
  destruct (if Nat.eqb (_indel_buffer_size s) 1 then _ else _) as [[s1 c] |];
    [| discriminate].
  specialize (M s1 c eq_refl).
  cbn [bind]. cbv zeta.
  destruct (nth_error _ 0); [| discriminate]. cbn [bind].
  destruct (adjust_sites _ _ _ _); [| discriminate]. cbn [bind].
  destruct (write_merged _ _ _ _ _) as [s4 |] eqn:E4; [| discriminate]. cbn [bind].
  intros [= <-]. apply write_merged_config in E4.
  eapply same_config_trans; [exact M |].
  eapply same_config_trans; [| eapply same_config_trans; [exact E4 |]]; repeat split.
Qed.

Lemma add_site_internal_config (s s' : gvcf_aggregator) (si : site_info) :
  add_site_internal s si = Some s' -> same_config s s'.
Proof.
  unfold add_site_internal. cbv zeta.
  destruct (negb _).
  - destruct (_ >=? _).
    + destruct (process_overlaps _) as [s1 |] eqn:E1; [| discriminate].
      cbn [bind]. intros [= <-]. apply process_overlaps_config in E1.
      eapply same_config_trans; [| apply queue_site_record_config].
      eapply same_config_trans; [| exact E1]. repeat split.
    + intros [= <-]. repeat split.
  - intros [= <-].
    eapply same_config_trans; [| apply queue_site_record_config]. repeat split.
Qed.

Lemma skip_to_pos_loop_config (fuel : nat) (s s' : gvcf_aggregator) (t : pos_t) :
  skip_to_pos_loop fuel s t = Some s' -> same_config s s'.
Proof.
  revert s. induction fuel as [| fuel IH]; intros s; cbn [skip_to_pos_loop];
    destruct (_head_pos s <? t); try discriminate;
    try (intros [= <-]; apply same_config_refl).
  destruct (add_site_internal s (get_empty_site s (_head_pos s))) as [s1 |] eqn:E1;
    [| discriminate].
  cbn [bind]. apply add_site_internal_config in E1.
  destruct (negb _).
  - intros E. apply IH in E. eapply same_config_trans; eassumption.
  - destruct (assert_ok _); [| discriminate]. cbn [bind].
    intros E. apply IH in E.
    eapply same_config_trans; [exact E1 |].
    eapply same_config_trans; [| exact E]. repeat split.
Qed.

(** The filling loop leaves the pending indels as they are or, once the
    cursor passes their right bound, writes them out. *)
Lemma skip_to_pos_loop_indels (fuel : nat) (s s' : gvcf_aggregator) (t : pos_t) :
  skip_to_pos_loop fuel s t = Some s' ->
  _indel_buffer s' = _indel_buffer s \/ _indel_buffer s' = [].
Proof.
  revert s. induction fuel as [| fuel IH]; intros s; cbn [skip_to_pos_loop];
    destruct (_head_pos s <? t); try discriminate;
    try (intros [= <-]; left; reflexivity).
  destruct (add_site_internal s (get_empty_site s (_head_pos s))) as [s1 |] eqn:E1;
    [| discriminate].
  cbn [bind].
  assert (H1 : _indel_buffer s1 = _indel_buffer s \/ _indel_buffer s1 = []).
  { revert E1. unfold add_site_internal. cbv zeta.
    destruct (negb _).
    - destruct (_ >=? _).
      + destruct (process_overlaps _) as [s0 |] eqn:E0; [| discriminate].
        cbn [bind]. intros [= <-].
        destruct (queue_site_record_buffers s0 (get_empty_site s (_head_pos s)))
          as (-> & _).
        apply process_overlaps_buffers in E0.
        destruct E0 as [(_ & ->) | (_ & -> & _)]; [left | right]; reflexivity.
      + intros [= <-]. left. reflexivity.
    - intros [= <-].
      match goal with
      | |- context [queue_site_record ?a ?b] =>
          destruct (queue_site_record_buffers a b) as (-> & _)
      end.
      left. reflexivity. }
  destruct (negb _).
  - intros E. apply IH in E. destruct E as [-> | ->]; [exact H1 | right; reflexivity].
  - destruct (assert_ok _); [| discriminate]. cbn [bind].
    intros E. apply IH in E. cbn [_indel_buffer with_head_pos with_block] in E.
    destruct E as [-> | ->]; [exact H1 | right; reflexivity].
Qed.

End Frame.

(** ** Groups of indels *)

Section Groups.

Context {hdr : gvcf_header}.

(** X6. [process_overlaps] never moves the cursor and never changes the
    settings or the right bound; with nothing pending it does nothing at
    all, and otherwise, when it returns, both buffers are empty. *)
Theorem process_overlaps_frame (s s' : gvcf_aggregator) :
  process_overlaps s = Some s' ->
  _indel_buffer s' = []
  /\ (_indel_buffer s = [] -> s' = s)
  /\ (_indel_buffer s <> [] -> _site_buffer s' = [])
  /\ _head_pos s' = _head_pos s
  /\ same_config s s'.
Proof.
  intros E.
  pose proof (process_overlaps_head _ _ E) as H.
  pose proof (process_overlaps_config _ _ E) as C.
  apply process_overlaps_buffers in E.
  destruct E as [(N & ->) | (P & B & S)].
  - split; [exact N |]. split; [reflexivity |].
    split; [intros; contradiction |]. split; assumption.
  - split; [exact B |]. split; [intros; contradiction |].
    split; [intros _; exact S |]. split; assumption.
Qed.

(** X7. [add_indel] ignores breakpoints and reference calls.  Any other
    call that returns is stored last in the indel buffer with fresh
    modifiers: behind the pending indels when there are some and the call
    starts at or before their right bound, and alone otherwise; the right
    bound becomes the call's own and the cursor does not move backward. *)
Theorem add_indel_grouping (s : gvcf_aggregator) (pos : pos_t) (k : indel_key)
  (d : starling_diploid_indel_core) (r : starling_indel_report_info)
  (sr : starling_indel_sample_report_info) :
  (is_breakpoint k = true \/ is_no_indel d = true ->
   add_indel s pos k d r sr = Some s)
  /\ (is_breakpoint k = false -> is_no_indel d = false ->
      forall s', add_indel s pos k d r sr = Some s' ->
        _indel_buffer s'
        = (if negb (Nat.eqb (_indel_buffer_size s) 0) && (pos <=? _indel_end_pos s)
           then _indel_buffer s else [])
          ++ [init pos k d r sr]
        /\ _indel_end_pos s' = right_pos k
        /\ _head_pos s' = Z.max (_head_pos s) pos).
Proof.
  split.
  - intros [Hk | Hd]; unfold add_indel.
    + rewrite Hk. reflexivity.
    + rewrite Hd. destruct (is_breakpoint k); reflexivity.
  - intros Hk Hd s'. unfold add_indel. rewrite Hk, Hd.
    destruct (skip_to_pos s pos) as [s1 |] eqn:E1; [| discriminate].
    cbn [bind].
    pose proof (skip_to_pos_loop_head _ _ _ _ E1) as H1.
    pose proof (skip_to_pos_loop_config _ _ _ _ E1) as (_ & _ & _ & _ & End1 & _).
    pose proof (skip_to_pos_loop_indels _ _ _ _ E1) as I1.
    destruct (Nat.eqb (_indel_buffer_size s) 0) eqn:E0; cbn [negb andb].
    + (* nothing pending *)
      apply size_zero_nil in E0. rewrite E0 in I1.
      assert (B1 : _indel_buffer s1 = []) by (destruct I1; assumption).
      unfold _indel_buffer_size. rewrite B1. cbn [List.length Nat.eqb negb bind].
      intros [= <-]. cbn [_indel_buffer _indel_end_pos _head_pos
                          with_indel_end_pos with_indel_buffer].
      rewrite B1. repeat split. exact H1.
    + destruct (Z.leb_spec pos (_indel_end_pos s)) as [Le | Gt].
      * (* the call joins the pending indels *)
        assert (B1 : _indel_buffer s1 = _indel_buffer s).
        { apply size_nonzero in E0. unfold skip_to_pos in E1.
          destruct (Z.le_gt_cases (_head_pos s) pos) as [Hle | Hgt].
          - rewrite skip_to_pos_loop_pending in E1 by (try assumption; lia).
            injection E1 as <-. reflexivity.
          - rewrite skip_to_pos_loop_rest in E1 by lia.
            injection E1 as <-. reflexivity. }
        unfold _indel_buffer_size. rewrite B1.
        unfold _indel_buffer_size in E0. rewrite E0. cbn [negb].
        rewrite End1.
        destruct (Z.leb_spec pos (_indel_end_pos s)) as [_ | F]; [| lia].
        cbn [bind]. intros [= <-].
        cbn [_indel_buffer _indel_end_pos _head_pos
             with_indel_end_pos with_indel_buffer].
        rewrite B1. repeat split. exact H1.
      * (* the pending indels are written first *)
        destruct (Nat.eqb (_indel_buffer_size s1) 0) eqn:E10; cbn [negb].
        -- apply size_zero_nil in E10. cbn [bind]. intros [= <-].
           cbn [_indel_buffer _indel_end_pos _head_pos
                with_indel_end_pos with_indel_buffer].
           rewrite E10. repeat split. exact H1.
        -- rewrite End1.
           destruct (Z.leb_spec pos (_indel_end_pos s)) as [F | _]; [lia |].
           destruct (process_overlaps s1) as [s2 |] eqn:E2; [| discriminate].
           cbn [bind]. intros [= <-].
           cbn [_indel_buffer _indel_end_pos _head_pos
                with_indel_end_pos with_indel_buffer].
           pose proof (process_overlaps_head _ _ E2) as H2.
           apply process_overlaps_buffers in E2.
           apply size_nonzero in E10.
           destruct E2 as [(N & _) | (_ & B2 & _)]; [contradiction |].
           rewrite B2, H2. repeat split. exact H1.
Qed.

Lemma single_indel_record_fields (opt : starling_options) (ii : indel_info) :
  ii_pos (single_indel_record opt ii) = ii_pos ii
  /\ dindel (single_indel_record opt ii) = dindel ii
  /\ iri (single_indel_record opt ii) = iri ii
  /\ cigar (imod (single_indel_record opt ii)) = get_hap_cigar (ik ii) 1 0
  /\ is_overlap (imod (single_indel_record opt ii)) = is_overlap (imod ii)
  /\ imod_gqx (imod (single_indel_record opt ii))
     = Z.min (indel_qphred (dindel ii)) (dindel_max_gt_qphred (dindel ii)).
Proof.
  unfold single_indel_record.
  set (ii1 := with_imod ii _).
  destruct (add_indel_modifiers_imod opt ii1) as (C & _ & O & G).
  destruct (add_indel_modifiers_fields opt ii1) as (P & _ & D & R & _).
  rewrite C, O, G, P, D, R. repeat split.
Qed.

(** X8. A pending indel that stands alone is written as one record of its
    own: [process_overlaps] gives it the descriptor of one match base
    followed by the indel, and the lower of its two qualities as GQX, writes
    exactly one indel record, for it, and empties both buffers. *)
Theorem process_overlaps_single (s : gvcf_aggregator) (ii : indel_info) :
  _indel_buffer s = [ii] ->
  is_overlap (imod ii) = false ->
  Forall (adjustable (single_indel_record (_opt s) ii)) (_site_buffer s) ->
  let ii1 := single_indel_record (_opt s) ii in
  exists s',
    process_overlaps s = Some s'
    /\ indel_lines s'
       = indel_lines s ++ [IndelLine (indel_record_text (_chrom s) ii1 [ii1])]
    /\ _indel_buffer s' = [] /\ _site_buffer s' = []
    /\ ii_pos ii1 = ii_pos ii /\ dindel ii1 = dindel ii /\ iri ii1 = iri ii
    /\ cigar (imod ii1) = get_hap_cigar (ik ii) 1 0
    /\ imod_gqx (imod ii1)
       = Z.min (indel_qphred (dindel ii)) (dindel_max_gt_qphred (dindel ii)).
Proof.
  intros Hbuf Hov Hsites ii1.
  destruct (single_indel_record_fields (_opt s) ii) as (P & D & R & C & O & G).
  fold ii1 in P, D, R, C, O, G, Hsites. rewrite Hov in O.
  destruct (adjust_sites_overlap_each (_opt s) ii1 (_site_buffer s) Hsites)
    as (sites' & Eadj & _).
  pose proof (adjust_sites_pos _ _ _ _ _ Eadj) as Hpos.
  set (s3 := with_site_buffer
               (emit (with_indel_buffer s [ii1])
                  (OtherLine ("INDEL_SIZE: " ++ show_Z 1 ++ NL)%string)) sites').
  destruct (write_indel_record_line s3 0 ii1) as (s4 & E4 & B4 & S4 & C4 & O4 & L4).
  { reflexivity. }
  { rewrite O. exact I. }
  destruct (write_merged_sites_only (List.length sites') false 1 0 s4)
    as (s5 & E5 & G5).
  { unfold _indel_buffer_size. rewrite B4. cbn. lia. }
  { unfold _site_buffer_size. rewrite S4. cbn. lia. }
  exists (with_site_buffer (with_indel_buffer s5 []) []).
  split.
  - assert (Hsz : _indel_buffer_size s = 1%nat)
      by (unfold _indel_buffer_size; rewrite Hbuf; reflexivity).
    unfold process_overlaps. rewrite Hsz. cbn [Nat.eqb].
    unfold modify_single_indel_record. rewrite Hsz, Hbuf.
    cbn [Nat.eqb assert_ok bind].
    fold (single_indel_record (_opt s) ii). fold ii1.
    change (_indel_buffer_size (with_indel_buffer s [ii1])) with 1%nat.
    cbn [_indel_buffer with_indel_buffer emit with_os nth_error _opt _site_buffer bind].
    rewrite Eadj. cbn [bind].
    change (Z.of_nat 1) with 1. fold s3.
    change (_indel_buffer_size s3 + _site_buffer_size s3)%nat
      with (S (List.length sites')).
    rewrite write_merged_step.
    assert (Go : negb (Nat.ltb 0 (_indel_buffer_size s3)
                       || Nat.ltb 0 (_site_buffer_size s3)) = false) by reflexivity.
    assert (First : Nat.ltb 0 (_indel_buffer_size s3)
                    && (negb (Nat.ltb 0 (_site_buffer_size s3))
                        || match nth_error (_indel_buffer s3) 0,
                                 nth_error (_site_buffer s3) 0 with
                           | Some ii, Some si => ii_pos ii <=? si_pos si
                           | _, _ => false
                           end) = true).
    { change (_indel_buffer_size s3) with 1%nat.
      change (_indel_buffer s3) with [ii1].
      change (_site_buffer_size s3) with (List.length sites').
      change (_site_buffer s3) with sites'.
      destruct sites' as [| si0' rest']; [reflexivity |]. cbn.
      destruct (_site_buffer s) as [| si0 rest]; [discriminate |].
      injection Hpos as Hp0 _. rewrite Hp0.
      apply Forall_inv in Hsites. destruct Hsites as [Off _].
      apply Z.leb_le. lia. }
    rewrite Go, First, E4. cbn [bind].
    replace (_indel_buffer_size s4) with 1%nat
      by (unfold _indel_buffer_size; rewrite B4; reflexivity).
    rewrite E5. reflexivity.
  - split.
    { unfold indel_lines. cbn [_os with_site_buffer with_indel_buffer].
      fold (indel_lines s5).
      destruct G5 as (_ & _ & _ & _ & ->). rewrite L4, O.
      subst s3. unfold indel_lines, emit. cbn. rewrite filter_app. cbn.
      rewrite app_nil_r. reflexivity. }
    repeat split; assumption.
Qed.

End Groups.

(** ** Modifiers and filters *)

Section Modifiers.

Context {hdr : gvcf_header}.

Lemma set_filter_twice (f : VCF_FILTERS.index_t) (fs : filter_set) :
  set_filter f (set_filter f fs) = set_filter f fs.
Proof.
  unfold set_filter. apply N.bits_inj. intros n.
  rewrite !N.setbit_eqb. destruct (N.eqb _ n); reflexivity.
Qed.

Lemma set_filter_comm (f g : VCF_FILTERS.index_t) (fs : filter_set) :
  set_filter f (set_filter g fs) = set_filter g (set_filter f fs).
Proof.
  unfold set_filter. apply N.bits_inj. intros n.
  rewrite !N.setbit_eqb. destruct (N.eqb _ n), (N.eqb _ n); reflexivity.
Qed.

Lemma set_site_filters_eta (opt : starling_options) (si : site_info) :
  set_site_filters opt si = with_smod si (smod (set_site_filters opt si)).
Proof.
  unfold set_site_filters.
  destruct (is_gvcf_min_gqx opt); [destruct (_ <? _) |];
    (destruct (is_gvcf_max_depth opt); [destruct (_ >? _) |]);
    destruct si as [p rf nu nn kc dg [a b c d e f g h i]]; reflexivity.
Qed.

Lemma set_site_filters_twice (opt : starling_options) (si : site_info) :
  set_site_filters opt (set_site_filters opt si) = set_site_filters opt si.
Proof.
  unfold set_site_filters.
  destruct (is_gvcf_min_gqx opt);
    [destruct (smod_gqx (smod si) <? gvcf_min_gqx opt) eqn:E1 |];
    (destruct (is_gvcf_max_depth opt);
     [destruct (Z.of_N (unsigned_add (n_used_calls si) (n_unused_calls si))
                  >? gvcf_max_depth opt) eqn:E2 |]);
    cbn [smod_set_filter with_smod smod smod_with_filters smod_filters smod_gqx
         n_used_calls n_unused_calls];
    rewrite ?E1, ?E2;
    cbn [smod_set_filter with_smod smod smod_with_filters smod_filters smod_gqx
         n_used_calls n_unused_calls];
    rewrite ?E1, ?E2;
    unfold smod_set_filter, with_smod, smod_with_filters;
    cbn [si_pos si_ref n_used_calls n_unused_calls known_counts dgt smod
         smod_is_unknown smod_is_covered smod_is_used_covered smod_is_zero_ploidy
         smod_is_block smod_modified_gt smod_max_gt smod_gqx smod_filters];
    rewrite ?E1, ?E2,
      ?(set_filter_comm VCF_FILTERS.LowGQX VCF_FILTERS.HighDepth),
      ?set_filter_twice;
    reflexivity.
Qed.

(** X9. [set_site_filters] only ever adds filters: LowGQX when the GQX
    threshold is on and the site's GQX is below it, HighDepth when the depth
    limit is on and the used and unused calls together exceed it.  It changes
    nothing else of the site, and running it again changes nothing. *)
Theorem set_site_filters_adds (opt : starling_options) (si : site_info) :
  (forall f : VCF_FILTERS.index_t,
      test_filter f (smod_filters (smod (set_site_filters opt si)))
      = test_filter f (smod_filters (smod si))
        || match f with
           | VCF_FILTERS.LowGQX =>
               is_gvcf_min_gqx opt && (smod_gqx (smod si) <? gvcf_min_gqx opt)
           | VCF_FILTERS.HighDepth =>
               is_gvcf_max_depth opt
               && (Z.of_N (unsigned_add (n_used_calls si) (n_unused_calls si))
                     >? gvcf_max_depth opt)
           | _ => false
           end)
  /\ set_site_filters opt si
     = with_smod si
         (smod_with_filters (smod si) (smod_filters (smod (set_site_filters opt si))))
  /\ set_site_filters opt (set_site_filters opt si) = set_site_filters opt si.
Proof.
  split; [apply set_site_filters_test |].
  split; [| apply set_site_filters_twice].
  rewrite <- set_site_filters_smod. apply set_site_filters_eta.
Qed.

(** X10. [add_indel_modifiers] sets the indel's GQX to the lower of its two
    qualities and only ever adds filters: LowGQX when the GQX threshold is on
    and that GQX is below it, HighDepth when the depth limit is on and the
    sample depth exceeds it; a filter already set stays set. *)
Theorem add_indel_modifiers_adds (opt : starling_options) (ii : indel_info) :
  imod_gqx (imod (add_indel_modifiers opt ii))
  = Z.min (indel_qphred (dindel ii)) (dindel_max_gt_qphred (dindel ii))
  /\ forall f : VCF_FILTERS.index_t,
       test_filter f (imod_filters (imod (add_indel_modifiers opt ii)))
       = test_filter f (imod_filters (imod ii))
         || match f with
            | VCF_FILTERS.LowGQX =>
                is_gvcf_min_gqx opt
                && (Z.min (indel_qphred (dindel ii)) (dindel_max_gt_qphred (dindel ii))
                      <? gvcf_min_gqx opt)
            | VCF_FILTERS.HighDepth =>
                is_gvcf_max_depth opt && (Z.of_N (depth (isri ii)) >? gvcf_max_depth opt)
            | _ => false
            end.
Proof.
  split; [apply add_indel_modifiers_imod |].
  intros f. unfold add_indel_modifiers.
  cbn [imod with_imod imod_with_gqx imod_gqx].
  destruct (is_gvcf_min_gqx opt); [destruct (_ <? _)|];
    (destruct (is_gvcf_max_depth opt); [destruct (_ >? _)|]);
    cbn [imod_set_filter with_imod imod imod_with_filters imod_filters
         imod_with_gqx isri andb];
    rewrite ?test_set_filter; destruct f; cbn;
    rewrite ?orb_false_r, ?orb_true_r; reflexivity.
Qed.

End Modifiers.

(** ** Sites: modifiers, block eligibility, the ALT column *)

Section Sites.

Context {hdr : gvcf_header}.

Lemma add_site_modifiers_eta (opt : starling_options) (si : site_info) :
  add_site_modifiers opt si = with_smod si (smod (add_site_modifiers opt si)).
Proof.
  unfold add_site_modifiers. cbv zeta.
  match goal with
  | |- set_site_filters opt ?x = _ => rewrite (set_site_filters_eta opt x) at 1
  end.
  reflexivity.
Qed.

(** X11. [add_site_modifiers] derives a site's modifiers from the call
    alone: the modifiers the site carried before have no influence, so it
    can be run again without effect; the only filters of the result are
    LowGQX and HighDepth, set by the two rules on the derived GQX and on the
    depth, and no block, zero-ploidy or genotype-override flag is set. *)
Theorem add_site_modifiers_fresh (opt : starling_options) (si : site_info) :
  let m' := smod (add_site_modifiers opt si) in
  (forall m, add_site_modifiers opt (with_smod si m) = add_site_modifiers opt si)
  /\ add_site_modifiers opt (add_site_modifiers opt si) = add_site_modifiers opt si
  /\ (forall f : VCF_FILTERS.index_t,
         test_filter f (smod_filters m')
         = match f with
           | VCF_FILTERS.LowGQX =>
               is_gvcf_min_gqx opt && (smod_gqx m' <? gvcf_min_gqx opt)
           | VCF_FILTERS.HighDepth =>
               is_gvcf_max_depth opt
               && (Z.of_N (unsigned_add (n_used_calls si) (n_unused_calls si))
                     >? gvcf_max_depth opt)
           | _ => false
           end)
  /\ smod_is_unknown m' = Ascii.eqb (si_ref si) "N"%char
  /\ smod_is_used_covered m' = negb (n_used_calls si =? 0)%N
  /\ smod_is_covered m'
     = negb (n_used_calls si =? 0)%N || negb (n_unused_calls si =? 0)%N
  /\ smod_is_block m' = false
  /\ smod_is_zero_ploidy m' = false
  /\ smod_modified_gt m' = MODIFIED_SITE_GT.NONE.
Proof.
  intros m'.
  assert (Fresh : forall m,
             add_site_modifiers opt (with_smod si m) = add_site_modifiers opt si)
    by (intros m; reflexivity).
  split; [exact Fresh |].
  split; [rewrite (add_site_modifiers_eta opt si) at 1; apply Fresh |].
  subst m'. unfold add_site_modifiers. cbv zeta.
  match goal with
  | |- context [set_site_filters opt ?x] =>
      set (si2 := x);
      pose proof (set_site_filters_test opt si2) as T;
      pose proof (set_site_filters_smod opt si2) as S;
      pose proof (set_site_filters_gqx opt si2) as G
  end.
  split.
  - intros f. rewrite T, G.
    replace (test_filter f (smod_filters (smod si2))) with false.
    + reflexivity.
    + subst si2. cbn [smod with_smod].
      destruct (Ascii.eqb _ _); [| destruct (negb _); [| destruct (_ <? _)]];
        destruct f; reflexivity.
  - rewrite S. subst si2. cbn [smod with_smod].
    destruct (Ascii.eqb _ _); [| destruct (negb (_ =? _)%N); [| destruct (_ <? _)]];
      repeat split; reflexivity.
Qed.

(** X12. The block eligibility test at its edges: a SNP site is never
    blockable; a site that is not a SNP is always blockable when its
    reference base is N, and also when it has no used call at all, the
    reference fraction 0/0 being no number and failing the comparison. *)
Theorem is_site_record_blockable_edges (opt : starling_options) (si : site_info) :
  (is_snp (dgt si) = true -> is_site_record_blockable opt si = false)
  /\ (is_snp (dgt si) = false -> si_ref si = "N"%char ->
      is_site_record_blockable opt si = true)
  /\ (is_snp (dgt si) = false -> n_used_calls si = 0%N ->
      nth (N.to_nat (ref_gt (dgt si))) (known_counts si) 0%N = 0%N ->
      is_site_record_blockable opt si = true).
Proof.
  unfold is_site_record_blockable. split; [| split].
  - intros ->. reflexivity.
  - intros -> ->. reflexivity.
  - intros -> -> ->. destruct (negb _); [| reflexivity].
    change (to_double 0) with 0%float. cbv zeta.
    rewrite FloatAxioms.leb_spec, FloatAxioms.add_spec.
    change (Prim2SF (0 / 0)) with S754_nan. reflexivity.
Qed.

Lemma append_empty_r (a : string) : (a ++ "")%string = a.
Proof. induction a as [| c a IH]; [reflexivity | cbn; rewrite IH; reflexivity]. Qed.

Lemma concat_alt (c : ascii) (r : list ascii) :
  String.concat "," (map show_char (c :: r)) = (show_char c ++ alt_tail r)%string.
Proof.
  revert c. induction r as [| d r IH]; intros c.
  - reflexivity.
  - change (String.concat "," (map show_char (c :: d :: r)))
      with (show_char c ++ "," ++ String.concat "," (map show_char (d :: r)))%string.
    rewrite IH. reflexivity.
Qed.

Lemma print_vcf_alt_fold (gt ref_gt : N) (l : list nat) (os : string) (p : bool) :
  let cs :=
    map (fun b => id_to_base (N.of_nat b))
      (filter (fun b => negb (N.of_nat b =? ref_gt)%N && DIGT_expect2 (N.of_nat b) gt) l) in
  fold_left (print_vcf_alt_step gt ref_gt) l (os, p)
  = ((os ++ (if p then alt_tail cs
             else match cs with
                  | [] => EmptyString
                  | c :: r => show_char c ++ alt_tail r
                  end))%string,
     p || match cs with [] => false | _ => true end).
Proof.
  revert os p. induction l as [| b l IH]; intros os p; cbv zeta.
  - cbn [fold_left filter map alt_tail]. destruct p; cbn [orb];
      rewrite append_empty_r; reflexivity.
  - cbn [fold_left filter]. unfold print_vcf_alt_step at 2.
    destruct (N.of_nat b =? ref_gt)%N; cbn [negb andb].
    + apply IH.
    + destruct (DIGT_expect2 (N.of_nat b) gt).
      * rewrite IH. cbn [map orb]. cbv zeta.
        set (cs := map _ (filter _ l)).
        set (c := id_to_base (N.of_nat b)).
        destruct p; cbn [alt_tail orb].
        -- rewrite (append_assoc os _ (alt_tail cs)).
           rewrite (append_assoc "," _ (alt_tail cs)). reflexivity.
        -- rewrite (append_assoc os _ (alt_tail cs)).
           change ("" ++ show_char c)%string with (show_char c). reflexivity.
      * apply IH.
Qed.

(** X13. The ALT column of a site record lists the bases that the genotype
    expects, the reference base left out, in the order of their codes and
    separated by commas; when there is none, it is a single dot. *)
Theorem print_vcf_alt_lists (gt ref_gt : N) :
  print_vcf_alt gt ref_gt
  = match alt_bases gt ref_gt with
    | [] => "."%string
    | l => String.concat "," (map show_char l)
    end.
Proof.
  unfold print_vcf_alt, alt_bases.
  rewrite print_vcf_alt_fold. cbv zeta.
  set (cs := map _ (filter _ (seq 0 N_BASE))).
  cbn [orb]. destruct cs as [| c r].
  - reflexivity.
  - rewrite concat_alt. reflexivity.
Qed.

(** X14. Under one remaining haplotype a site that is not heterozygous keeps
    a genotype: [modify_indel_overlap_site] makes it the haploid 0 when the
    site's genotype is the reference and the haploid 1 otherwise, adds no
    site-conflict filter, and caps the two qualities by the indel's. *)
Theorem modify_indel_overlap_site_hom (opt : starling_options) (ii : indel_info)
  (si : site_info) :
  DIGT_is_het (smod_max_gt (smod si)) = false ->
  exists si',
    modify_indel_overlap_site opt ii 1 si = Some si'
    /\ smod_modified_gt (smod si')
       = (if (smod_max_gt (smod si) =? ref_gt (dgt si))%N
          then MODIFIED_SITE_GT.ZERO else MODIFIED_SITE_GT.ONE)
    /\ test_filter VCF_FILTERS.SiteConflict (smod_filters (smod si'))
       = test_filter VCF_FILTERS.SiteConflict (smod_filters (smod si))
         && test_filter VCF_FILTERS.SiteConflict (imod_filters (imod ii))
    /\ snp_qphred (genome (dgt si'))
       = Z.min (snp_qphred (genome (dgt si))) (indel_qphred (dindel ii))
    /\ smod_gqx (smod si')
       = Z.min (smod_gqx (smod si)) (dindel_max_gt_qphred (dindel ii))
    /\ smod_max_gt (smod si') = smod_max_gt (smod si)
    /\ smod_is_zero_ploidy (smod si') = smod_is_zero_ploidy (smod si).
Proof.
  intros Hhet. unfold modify_indel_overlap_site. cbv zeta.
  cbn [N.eqb Pos.eqb smod with_smod smod_with_filters smod_with_gqx smod_with_gt
       smod_max_gt with_genome_snp_qphred dgt genome snp_qphred smod_gqx ref_gt].
  rewrite Hhet.
  destruct (smod_max_gt (smod si) =? ref_gt (dgt si))%N; cbn [bind];
    (eexists; split; [reflexivity |]);
    rewrite set_site_filters_test, set_site_filters_smod, set_site_filters_dgt;
    cbn; rewrite test_filter_land, orb_false_r; repeat split; reflexivity.
Qed.

End Sites.

(** ** Alignment descriptors and the ploidy vector *)

Section Descriptors.

(** X15. The descriptor [get_hap_cigar] builds has no empty segment; on the
    reference it takes up the leading matches, the deleted bases and the
    trailing matches, and on the haplotype the leading matches, the inserted
    bases and the trailing matches. *)
Theorem get_hap_cigar_lengths (k : indel_key) (lead trail : N) :
  Forall (fun ps => ALIGNPATH.length ps <> 0%N) (get_hap_cigar k lead trail)
  /\ ref_length (get_hap_cigar k lead trail)
     = Z.of_N lead + Z.of_N (delete_length k) + Z.of_N trail
  /\ query_length (get_hap_cigar k lead trail)
     = Z.of_N lead + Z.of_N (insert_length k) + Z.of_N trail
  /\ (List.length (get_hap_cigar k lead trail) <= 4)%nat.
Proof.
  unfold get_hap_cigar.
  destruct (N.eqb_spec lead 0), (N.eqb_spec (delete_length k) 0),
    (N.eqb_spec (insert_length k) 0), (N.eqb_spec trail 0);
    cbn [app ref_length query_length path_segment_of ALIGNPATH.type ALIGNPATH.length
         List.length];
    (split; [repeat (apply Forall_cons; [cbn; assumption |]); apply Forall_nil |]);
    repeat split; lia.
Qed.

(** X16. Adding two haplotypes to a ploidy vector that is long enough for
    both succeeds, keeps the length of the vector, and gives the same vector
    in either order. *)
Theorem add_cigar_to_ploidy_commutes (p q : ALIGNPATH.path_t) (pl : list N) :
  ref_length p - 1 <= Z.of_nat (List.length pl) ->
  ref_length q - 1 <= Z.of_nat (List.length pl) ->
  exists pl',
    (pl1 <- add_cigar_to_ploidy p pl ;; add_cigar_to_ploidy q pl1) = Some pl'
    /\ (pl1 <- add_cigar_to_ploidy q pl ;; add_cigar_to_ploidy p pl1) = Some pl'
    /\ List.length pl' = List.length pl.
Proof.
  intros Hp Hq. unfold add_cigar_to_ploidy.
  destruct (add_cigar_from_spec p (-1) pl) as (a1 & Ea1 & La1 & Na1); [lia |].
  destruct (add_cigar_from_spec q (-1) a1) as (a2 & Ea2 & La2 & Na2); [lia |].
  destruct (add_cigar_from_spec q (-1) pl) as (b1 & Eb1 & Lb1 & Nb1); [lia |].
  destruct (add_cigar_from_spec p (-1) b1) as (b2 & Eb2 & Lb2 & Nb2); [lia |].
  exists a2. rewrite Ea1, Eb1. cbn [bind]. rewrite Ea2, Eb2.
  split; [reflexivity |]. split; [| congruence].
  f_equal. apply (nth_ext _ _ 0%N 0%N); [congruence |].
  intros n _. rewrite Nb2, Nb1, Na2, Na1.
  destruct (matched_at p (-1) (Z.of_nat n)), (matched_at q (-1) (Z.of_nat n));
    reflexivity.
Qed.

End Descriptors.

(** ** The loops end *)

Section Loops.

Context {hdr : gvcf_header}.

(** X18. The filling loop of [skip_to_pos] never runs out of rounds: the
    function satisfies the equation of the [while] loop it embeds.  While
    indels are pending the loop goes on site by site; once none is, it
    extends the block to the target and stops. *)
Theorem skip_to_pos_unfold (s : gvcf_aggregator) (t : pos_t) :
  skip_to_pos s t
  = if _head_pos s <? t then
      s1 <- add_site_internal s (get_empty_site s (_head_pos s)) ;;
      if negb (Nat.eqb (_indel_buffer_size s1) 0) then skip_to_pos s1 t
      else
        _ <- assert_ok (negb (count (_block s1) =? 0)) ;;
        Some (with_head_pos
                (with_block s1
                   (block_with_count (_block s1)
                      (count (_block s1) + (t - _head_pos s1)))) t)
    else Some s.
Proof.
  unfold skip_to_pos.
  destruct (Z.ltb_spec (_head_pos s) t) as [Lt | Ge].
  - destruct (Z.to_nat (t - _head_pos s)) as [| fuel] eqn:Ef; [lia |].
    cbn [skip_to_pos_loop].
    destruct (Z.ltb_spec (_head_pos s) t) as [_ | Ge]; [| lia].
    destruct (add_site_internal s (get_empty_site s (_head_pos s))) as [s1 |] eqn:E1;
      [| reflexivity].
    cbn [bind]. pose proof (add_site_internal_head _ _ _ E1) as H1. cbn in H1.
    destruct (negb _).
    + apply skip_to_pos_loop_fuel; lia.
    + destruct (assert_ok _); [| reflexivity]. cbn [bind].
      apply skip_to_pos_loop_rest. cbn [_head_pos with_head_pos]. lia.
  - apply skip_to_pos_loop_rest. lia.
Qed.

(** X19. The merging loop of [process_overlaps] never runs out of rounds:
    started with the rounds [process_overlaps] gives it, it satisfies the
    equation of the [while(true)] loop it embeds. *)
Theorem merge_loop_unfold (c : bool) (i j : nat) (s : gvcf_aggregator) :
  write_merged (_indel_buffer_size s + _site_buffer_size s) c 0 0 s = merge_loop c 0 0 s
  /\ merge_loop c i j s
     = let is_indel := Nat.ltb i (_indel_buffer_size s) in
       let is_site := Nat.ltb j (_site_buffer_size s) in
       if negb (is_indel || is_site) then Some s
       else if is_indel
               && (negb is_site
                   || match nth_error (_indel_buffer s) i, nth_error (_site_buffer s) j with
                      | Some ii, Some si => ii_pos ii <=? si_pos si
                      | _, _ => false
                      end)
       then s1 <- write_indel_record s i ;;
            merge_loop c (if c then S i else _indel_buffer_size s1) j s1
       else si <- nth_error (_site_buffer s) j ;;
            merge_loop c i (S j) (queue_site_record s si).
Proof.
  split.
  - unfold merge_loop. rewrite !Nat.sub_0_r. reflexivity.
  - unfold merge_loop. cbv zeta.
    destruct ((_indel_buffer_size s - i) + (_site_buffer_size s - j))%nat
      as [| fuel] eqn:Ef.
    + cbn [write_merged].
      replace (Nat.ltb i (_indel_buffer_size s)) with false
        by (symmetry; apply Nat.ltb_ge; lia).
      replace (Nat.ltb j (_site_buffer_size s)) with false
        by (symmetry; apply Nat.ltb_ge; lia).
      reflexivity.
    + rewrite write_merged_step.
      destruct (negb _); [reflexivity |].
      destruct (Nat.ltb_spec i (_indel_buffer_size s)) as [Li | Li]; cbn [andb].
      * destruct (_ || _).
        -- destruct (write_indel_record s i) as [s1 |] eqn:E1; [| reflexivity].
           cbn [bind].
           destruct (write_indel_record_buffers s s1 i E1) as (B & S & _).
           unfold _indel_buffer_size, _site_buffer_size in *.
           apply write_merged_fuel;
             unfold _indel_buffer_size, _site_buffer_size; rewrite ?B, ?S;
             destruct c; lia.
        -- destruct (nth_error (_site_buffer s) j) as [si |] eqn:Ej; [| reflexivity].
           cbn [bind].
           assert (Lj : (j < List.length (_site_buffer s))%nat)
             by (apply nth_error_Some; congruence).
           destruct (queue_site_record_buffers s si) as (B & S & _).
           unfold _indel_buffer_size, _site_buffer_size in *.
           apply write_merged_fuel;
             unfold _indel_buffer_size, _site_buffer_size; rewrite ?B, ?S; lia.
      * destruct (nth_error (_site_buffer s) j) as [si |] eqn:Ej; [| reflexivity].
        cbn [bind].
        assert (Lj : (j < List.length (_site_buffer s))%nat)
          by (apply nth_error_Some; congruence).
        destruct (queue_site_record_buffers s si) as (B & S & _).
        unfold _indel_buffer_size, _site_buffer_size in *.
        apply write_merged_fuel;
          unfold _indel_buffer_size, _site_buffer_size; rewrite ?B, ?S; lia.
Qed.

(** X20. A site at or past the right bound of the pending indels closes
    their group: when [add_site] returns, both buffers are empty, the cursor
    is one past the site, and the settings and the right bound are those
    from before. *)
Theorem add_site_closes_group (s s' : gvcf_aggregator) (si : site_info) :
  buffers_consistent s ->
  _indel_end_pos s <= si_pos si ->
  add_site s si = Some s' ->
  _indel_buffer s' = [] /\ _site_buffer s' = []
  /\ _head_pos s' = si_pos si + 1
  /\ same_config s s'.
Proof.
  intros Inv Hend. unfold add_site.
  destruct (skip_to_pos s (si_pos si)) as [s1 |] eqn:E1; [| discriminate].
  cbn [bind]. intros E2.
  pose proof (skip_to_pos_loop_consistent _ _ _ _ Inv E1) as Inv1.
  pose proof (skip_to_pos_loop_config _ _ _ _ E1) as C1.
  pose proof (add_site_internal_head _ _ _ E2) as H2.
  pose proof (add_site_internal_config _ _ _ E2) as C2.
  rewrite add_site_modifiers_pos in H2.
  assert (B : _indel_buffer s' = [] /\ _site_buffer s' = []).
  { revert E2. unfold add_site_internal. cbv zeta.
    rewrite add_site_modifiers_pos.
    change (_indel_buffer_size (with_head_pos s1 (si_pos si + 1)))
      with (_indel_buffer_size s1).
    change (_indel_end_pos (with_head_pos s1 (si_pos si + 1)))
      with (_indel_end_pos s1).
    destruct C1 as (_ & _ & _ & _ & End1 & _). rewrite End1.
    destruct (Z.geb_spec (si_pos si) (_indel_end_pos s)) as [_ | F]; [| lia].
    destruct (Nat.eqb (_indel_buffer_size s1) 0) eqn:E0; cbn [negb].
    - intros [= <-].
      match goal with
      | |- context [queue_site_record ?a ?b] =>
          destruct (queue_site_record_buffers a b) as (-> & -> & _)
      end.
      apply size_zero_nil in E0. cbn [_indel_buffer _site_buffer with_head_pos].
      split; [exact E0 | apply Inv1; exact E0].
    - destruct (process_overlaps _) as [s2 |] eqn:Ep; [| discriminate].
      cbn [bind]. intros [= <-].
      destruct (queue_site_record_buffers s2 (add_site_modifiers (_opt s1) si))
        as (-> & -> & _).
      apply process_overlaps_buffers in Ep.
      destruct Ep as [(N & _) | (_ & Bi & Bs)]; [| split; assumption].
      apply size_nonzero in E0. contradiction. }
  destruct B as (Bi & Bs).
  split; [exact Bi |]. split; [exact Bs |]. split; [exact H2 |].
  eapply same_config_trans; eassumption.
Qed.

End Loops.

(** ** Streams out of order, and streams of sites alone *)

Section Streams.

Context {hdr : gvcf_header}.

Lemma adjust_sites_before_indel (opt : starling_options) (c : bool)
  (ii0 : indel_info) (sites : list site_info) :
  Exists (fun si => si_pos si < ii_pos ii0) sites ->
  adjust_sites opt c ii0 sites = None.
Proof.
  induction 1 as [si rest Lt | si rest _ IH]; cbn [adjust_sites]; cbv zeta.
  - destruct (Z.leb_spec 0 (si_pos si - ii_pos ii0)); [lia | reflexivity].
  - destruct (assert_ok _); [| reflexivity]. cbn [bind].
    destruct (if negb c then _ else _); [| reflexivity]. cbn [bind].
    rewrite IH. reflexivity.
Qed.

(** The three ways [process_overlaps] adjusts the buffered indels leave the
    site buffer and the position of the first indel as they are. *)
Lemma adjusted_indels_first (s s1 : gvcf_aggregator) (c : bool)
  (ii : indel_info) (rest : list indel_info) :
  _indel_buffer s = ii :: rest ->
  (if Nat.eqb (_indel_buffer_size s) 1
   then s1 <- modify_single_indel_record s ;; Some (s1, false)
   else if is_simple_indel_overlap (_indel_buffer s) (_indel_buffer_size s)
        then s1 <- modify_overlap_indel_record s ;; Some (s1, false)
        else s1 <- modify_conflict_indel_record s ;; Some (s1, true))
  = Some (s1, c) ->
  _site_buffer s1 = _site_buffer s
  /\ exists ii1 rest1, _indel_buffer s1 = ii1 :: rest1 /\ ii_pos ii1 = ii_pos ii.
Proof.
  intros Hbuf.
  destruct (Nat.eqb (_indel_buffer_size s) 1);
    [| destruct (is_simple_indel_overlap _ _)].
  - unfold modify_single_indel_record.
    destruct (assert_ok _); [| discriminate]. cbn [bind]. rewrite Hbuf.
    cbn [bind]. intros [= <- _]. split; [reflexivity |].
    eexists _, _. split; [reflexivity |].
    match goal with
    | |- ii_pos (add_indel_modifiers ?o ?x) = _ =>
        rewrite (proj1 (add_indel_modifiers_fields o x))
    end.
    reflexivity.
  - unfold modify_overlap_indel_record.
    destruct (assert_ok _); [| discriminate]. cbn [bind]. rewrite Hbuf.
    destruct rest as [| other rest]; [discriminate |].
    cbv zeta.
    destruct (resize _ _); [| discriminate]. cbn [bind].
    destruct (add_cigar_to_ploidy _ _); [| discriminate]. cbn [bind].
    destruct (add_cigar_to_ploidy _ _); [| discriminate]. cbn [bind].
    intros [= <- _]. split; [reflexivity |].
    eexists _, _. split; [reflexivity |].
    match goal with
    | |- ii_pos (add_indel_modifiers ?o ?x) = _ =>
        rewrite (proj1 (add_indel_modifiers_fields o x))
    end.
    reflexivity.
  - unfold modify_conflict_indel_record.
    destruct (assert_ok _); [| discriminate]. cbn [bind]. rewrite Hbuf.
    intros [= <- _]. split; [reflexivity |].
    eexists _, _. split; [reflexivity |].
    apply (proj1 (conflict_indel_record_fields (_opt s) ii)).
Qed.

(** X21. A buffered site in front of the first pending indel stops the run:
    [process_overlaps] fails its assertion on the site's offset, whatever
    the group is, and writes no record of it. *)
Theorem process_overlaps_site_before_indel (s : gvcf_aggregator) (ii : indel_info)
  (rest : list indel_info) :
  _indel_buffer s = ii :: rest ->
  Exists (fun si => si_pos si < ii_pos ii) (_site_buffer s) ->
  process_overlaps s = None.
Proof.
  intros Hbuf Hex. unfold process_overlaps.
  replace (Nat.eqb (_indel_buffer_size s) 0) with false
    by (unfold _indel_buffer_size; rewrite Hbuf; reflexivity).
  destruct (if Nat.eqb (_indel_buffer_size s) 1 then _ else _) as [[s1 c] |] eqn:E;
    [| reflexivity].
  destruct (adjusted_indels_first s s1 c ii rest Hbuf E) as (S1 & ii1 & rest1 & B1 & P1).
  cbn [bind]. cbv zeta.
  cbn [emit with_os _indel_buffer _site_buffer _opt]. rewrite B1, S1.
  cbn [nth_error bind].
  rewrite adjust_sites_before_indel; [reflexivity |].
  rewrite P1. exact Hex.
Qed.

(** X22. A stream of sites alone never stops the run: with no indel
    pending and the run length of the block not negative, [add_site]
    returns, still with no indel pending and with a block open, so that the
    next site can follow; in particular the assertion of [skip_to_pos] on
    the run length holds. *)
Theorem add_site_without_indels (s : gvcf_aggregator) (si : site_info) :
  _indel_buffer s = [] ->
  0 <= count (_block s) ->
  exists s',
    add_site s si = Some s'
    /\ _indel_buffer s' = []
    /\ 0 < count (_block s')
    /\ _head_pos s' = si_pos si + 1.
Proof.
  intros Hbuf Hc.
  assert (Skip : exists s1,
             skip_to_pos s (si_pos si) = Some s1
             /\ _indel_buffer s1 = [] /\ 0 <= count (_block s1)).
  { destruct (Z.lt_ge_cases (_head_pos s) (si_pos si)) as [Lt | Ge].
    - rewrite (skip_to_pos_fills_gap s (si_pos si) Hbuf Lt Hc).
      eexists. split; [reflexivity |].
      cbn [_indel_buffer _block with_head_pos with_block block_with_count count].
      pose proof (queue_site_record_count (with_head_pos s (_head_pos s + 1))
                    (get_empty_site s (_head_pos s)) Hc) as Cq.
      destruct (queue_site_record_buffers (with_head_pos s (_head_pos s + 1))
                  (get_empty_site s (_head_pos s))) as (Bq & _).
      split; [rewrite Bq; exact Hbuf | lia].
    - exists s. split; [| split; assumption].
      unfold skip_to_pos. apply skip_to_pos_loop_rest. lia. }
  destruct Skip as (s1 & E1 & B1 & C1).
  unfold add_site. rewrite E1. cbn [bind].
  unfold add_site_internal. cbv zeta. unfold _indel_buffer_size.
  cbn [_indel_buffer with_head_pos]. rewrite B1. cbn [List.length Nat.eqb negb].
  eexists. split; [reflexivity |].
  match goal with
  | |- context [queue_site_record ?a ?b] =>
      destruct (queue_site_record_buffers a b) as (Bq & _ & Hq);
      pose proof (queue_site_record_count a b C1) as Cq
  end.
  split; [rewrite Bq; exact B1 |]. split; [lia |].
  rewrite Hq. cbn [_head_pos with_head_pos]. apply f_equal2; [| reflexivity].
  apply add_site_modifiers_pos.
Qed.

End Streams.

(** ** The further properties on the example inputs *)

Lemma skip_to_pos_cursor_witness :
  skip_to_pos ex_single_state 3 = Some ex_single_state
  /\ _head_pos ex_single_final = Z.max (_head_pos ex_single_state) 11.
Proof.
  split.
  - apply (proj1 (skip_to_pos_cursor ex_single_state 3)). vm_compute. discriminate.
  - apply (proj2 (skip_to_pos_cursor ex_single_state 11) ex_single_final).
    vm_compute. reflexivity.
Defined.

Lemma skip_to_pos_fills_gap_witness :
  _indel_buffer ex_aggregator = []
  /\ _head_pos ex_aggregator < 5
  /\ 0 <= count (_block ex_aggregator)
  /\ option_map (fun s => (_os s, count (_block s), _head_pos s))
       (skip_to_pos ex_aggregator 5)
     = Some ([], 5, 5).
Proof.
  assert (H1 : _indel_buffer ex_aggregator = []) by reflexivity.
  assert (H2 : _head_pos ex_aggregator < 5) by reflexivity.
  assert (H3 : 0 <= count (_block ex_aggregator)) by (vm_compute; discriminate).
  repeat (split; [assumption |]).
  rewrite (skip_to_pos_fills_gap ex_aggregator 5 H1 H2 H3).
  vm_compute. reflexivity.
Defined.

Lemma add_site_deferred_witness :
  _indel_buffer ex_single_state <> []
  /\ _head_pos ex_single_state <= si_pos (ex_site 6 0 40 10)
       < _indel_end_pos ex_single_state
  /\ option_map (fun s => (_os s, map si_pos (_site_buffer s), _head_pos s))
       (add_site ex_single_state (ex_site 6 0 40 10))
     = Some ([], [5; 6], 7).
Proof.
  assert (H1 : _indel_buffer ex_single_state <> []) by (vm_compute; discriminate).
  assert (H2 : _head_pos ex_single_state <= si_pos (ex_site 6 0 40 10)
               < _indel_end_pos ex_single_state)
    by (vm_compute; split; [discriminate | reflexivity]).
  repeat (split; [assumption |]).
  rewrite (add_site_deferred ex_single_state (ex_site 6 0 40 10) H1 H2).
  vm_compute. reflexivity.
Defined.

Lemma ex_single_consistent : buffers_consistent ex_single_state.
Proof. intros H. vm_compute in H. discriminate. Defined.

Lemma buffers_consistent_kept_witness :
  buffers_consistent ex_aggregator
  /\ buffers_consistent ex_single_state
  /\ buffers_consistent ex_single_inside
  /\ buffers_consistent ex_single_joined.
Proof.
  assert (H0 : buffers_consistent ex_aggregator) by (intros _; reflexivity).
  split; [exact H0 |]. split; [exact ex_single_consistent |]. split.
  - apply (proj1 (proj2 buffers_consistent_kept) ex_single_state (ex_site 6 0 40 10));
      [exact ex_single_consistent | vm_compute; reflexivity].
  - apply (proj2 (proj2 buffers_consistent_kept) ex_single_state 6 (ex_key 6 3)
             (ex_het 45 70) (ex_iri "A") ex_isri);
      [exact ex_single_consistent | vm_compute; reflexivity].
Defined.

Lemma destruct_aggregator_drains_witness :
  buffers_consistent ex_single_state
  /\ destruct_aggregator ex_single_state = Some ex_single_final
  /\ _indel_buffer ex_single_final = []
  /\ _site_buffer ex_single_final = []
  /\ _head_pos ex_single_final
     = Z.max (_head_pos ex_single_state) (snd (_report_range ex_single_state) + 1).
Proof.
  assert (E : destruct_aggregator ex_single_state = Some ex_single_final)
    by (vm_compute; reflexivity).
  split; [exact ex_single_consistent |]. split; [exact E |].
  exact (destruct_aggregator_drains ex_single_state ex_single_final
           ex_single_consistent E).
Defined.

Lemma process_overlaps_frame_witness :
  process_overlaps ex_single_state = Some ex_single_processed
  /\ _indel_buffer ex_single_processed = []
  /\ _head_pos ex_single_processed = _head_pos ex_single_state
  /\ same_config ex_single_state ex_single_processed.
Proof.
  assert (E : process_overlaps ex_single_state = Some ex_single_processed)
    by (vm_compute; reflexivity).
  split; [exact E |].
  destruct (process_overlaps_frame ex_single_state ex_single_processed E)
    as (B & _ & _ & H & C).
  split; [exact B |]. split; [exact H | exact C].
Defined.

Lemma add_indel_grouping_witness :
  add_indel ex_single_state 6 (ex_key 6 3) (ex_dindel STAR_DIINDEL.NOINDEL 45 70)
    (ex_iri "A") ex_isri
  = Some ex_single_state
  /\ _indel_buffer ex_single_joined
     = _indel_buffer ex_single_state
       ++ [init 6 (ex_key 6 3) (ex_het 45 70) (ex_iri "A") ex_isri]
  /\ _indel_end_pos ex_single_joined = 9.
Proof.
  split.
  - apply (proj1 (add_indel_grouping ex_single_state 6 (ex_key 6 3)
                    (ex_dindel STAR_DIINDEL.NOINDEL 45 70) (ex_iri "A") ex_isri)).
    right. reflexivity.
  - destruct (proj2 (add_indel_grouping ex_single_state 6 (ex_key 6 3)
                       (ex_het 45 70) (ex_iri "A") ex_isri)
                eq_refl eq_refl ex_single_joined) as (B & E & _).
    + vm_compute. reflexivity.
    + split; [exact B | exact E].
Defined.

Lemma ex_single_inside_adjustable :
  Forall (adjustable (single_indel_record (_opt ex_single_inside) ex_a))
    (_site_buffer ex_single_inside).
Proof. apply adjustableb_sound. vm_compute. reflexivity. Defined.

Lemma process_overlaps_single_witness :
  _indel_buffer ex_single_inside = [ex_a]
  /\ is_overlap (imod ex_a) = false
  /\ Forall (adjustable (single_indel_record (_opt ex_single_inside) ex_a))
       (_site_buffer ex_single_inside)
  /\ exists s',
       process_overlaps ex_single_inside = Some s'
       /\ indel_lines s'
          = indel_lines ex_single_inside
            ++ [IndelLine
                  (indel_record_text (_chrom ex_single_inside)
                     (single_indel_record (_opt ex_single_inside) ex_a)
                     [single_indel_record (_opt ex_single_inside) ex_a])]
       /\ _indel_buffer s' = [] /\ _site_buffer s' = [].
Proof.
  assert (H1 : _indel_buffer ex_single_inside = [ex_a]) by (vm_compute; reflexivity).
  assert (H2 : is_overlap (imod ex_a) = false) by reflexivity.
  split; [exact H1 |]. split; [exact H2 |].
  split; [exact ex_single_inside_adjustable |].
  destruct (process_overlaps_single ex_single_inside ex_a H1 H2
              ex_single_inside_adjustable) as (s' & E & L & Bi & Bs & _).
  exists s'. repeat split; assumption.
Defined.

Lemma modify_indel_overlap_site_hom_witness :
  DIGT_is_het (smod_max_gt (smod (add_site_modifiers ex_opt (ex_site 6 0 40 10)))) = false
  /\ exists si',
       modify_indel_overlap_site ex_opt ex_a 1
         (add_site_modifiers ex_opt (ex_site 6 0 40 10)) = Some si'
       /\ smod_modified_gt (smod si') = MODIFIED_SITE_GT.ZERO
       /\ smod_gqx (smod si') = 40.
Proof.
  assert (H : DIGT_is_het
                (smod_max_gt (smod (add_site_modifiers ex_opt (ex_site 6 0 40 10))))
              = false) by reflexivity.
  split; [exact H |].
  destruct (modify_indel_overlap_site_hom ex_opt ex_a
              (add_site_modifiers ex_opt (ex_site 6 0 40 10)) H)
    as (si' & E & M & _ & _ & G & _).
  exists si'. split; [exact E |]. split; [exact M | exact G].
Defined.

Lemma add_cigar_to_ploidy_commutes_witness :
  ref_length (get_hap_cigar (ex_key 5 3) 1 0) - 1 <= Z.of_nat (List.length [0; 0; 0]%N)
  /\ ref_length (get_hap_cigar (ex_key 6 1) 2 1) - 1 <= Z.of_nat (List.length [0; 0; 0]%N)
  /\ exists pl',
       (pl1 <- add_cigar_to_ploidy (get_hap_cigar (ex_key 5 3) 1 0) [0; 0; 0]%N ;;
        add_cigar_to_ploidy (get_hap_cigar (ex_key 6 1) 2 1) pl1) = Some pl'
       /\ (pl1 <- add_cigar_to_ploidy (get_hap_cigar (ex_key 6 1) 2 1) [0; 0; 0]%N ;;
           add_cigar_to_ploidy (get_hap_cigar (ex_key 5 3) 1 0) pl1) = Some pl'
       /\ List.length pl' = List.length [0; 0; 0]%N.
Proof.
  assert (H1 : ref_length (get_hap_cigar (ex_key 5 3) 1 0) - 1
               <= Z.of_nat (List.length [0; 0; 0]%N)) by (vm_compute; discriminate).
  assert (H2 : ref_length (get_hap_cigar (ex_key 6 1) 2 1) - 1
               <= Z.of_nat (List.length [0; 0; 0]%N)) by (vm_compute; discriminate).
  split; [exact H1 |]. split; [exact H2 |].
  exact (add_cigar_to_ploidy_commutes _ _ _ H1 H2).
Defined.

Lemma add_site_closes_group_witness :
  buffers_consistent ex_single_state
  /\ _indel_end_pos ex_single_state <= si_pos (ex_site 8 0 40 10)
  /\ add_site ex_single_state (ex_site 8 0 40 10) = Some ex_single_past
  /\ _indel_buffer ex_single_past = [] /\ _site_buffer ex_single_past = []
  /\ _head_pos ex_single_past = si_pos (ex_site 8 0 40 10) + 1
  /\ same_config ex_single_state ex_single_past.
Proof.
  assert (H : _indel_end_pos ex_single_state <= si_pos (ex_site 8 0 40 10))
    by (vm_compute; discriminate).
  assert (E : add_site ex_single_state (ex_site 8 0 40 10) = Some ex_single_past)
    by (vm_compute; reflexivity).
  split; [exact ex_single_consistent |]. split; [exact H |]. split; [exact E |].
  exact (add_site_closes_group ex_single_state ex_single_past (ex_site 8 0 40 10)
           ex_single_consistent H E).
Defined.

Lemma process_overlaps_site_before_indel_witness :
  _indel_buffer ex_single_behind = [ex_a]
  /\ Exists (fun si => si_pos si < ii_pos ex_a) (_site_buffer ex_single_behind)
  /\ process_overlaps ex_single_behind = None.
Proof.
  assert (H1 : _indel_buffer ex_single_behind = [ex_a]) by (vm_compute; reflexivity).
  assert (H2 : Exists (fun si => si_pos si < ii_pos ex_a) (_site_buffer ex_single_behind))
    by (vm_compute; apply Exists_cons_hd; reflexivity).
  split; [exact H1 |]. split; [exact H2 |].
  exact (process_overlaps_site_before_indel ex_single_behind ex_a [] H1 H2).
Defined.

Lemma add_site_without_indels_witness :
  _indel_buffer ex_aggregator = []
  /\ 0 <= count (_block ex_aggregator)
  /\ exists s',
       add_site ex_aggregator (ex_site 3 0 40 10) = Some s'
       /\ _indel_buffer s' = []
       /\ 0 < count (_block s')
       /\ _head_pos s' = si_pos (ex_site 3 0 40 10) + 1.
Proof.
  assert (H1 : _indel_buffer ex_aggregator = []) by reflexivity.
  assert (H2 : 0 <= count (_block ex_aggregator)) by (vm_compute; discriminate).
  split; [exact H1 |]. split; [exact H2 |].
  exact (add_site_without_indels ex_aggregator (ex_site 3 0 40 10) H1 H2).
Defined.

(** * The records of a finalized group *)

Section Columns.

Context {hdr : gvcf_header}.

Lemma tsv_cons (c d : string) (rest : list string) :
  tsv (c :: d :: rest) = (c ++ TAB ++ tsv (d :: rest))%string.
Proof.
  unfold tsv. change (String.concat TAB (c :: d :: rest))
    with (c ++ TAB ++ String.concat TAB (d :: rest))%string.
  rewrite (append_assoc c _ NL). rewrite (append_assoc TAB _ NL). reflexivity.
Qed.

Lemma tsv_one (c : string) : tsv [c] = (c ++ NL)%string.
Proof. reflexivity. Qed.

Lemma indel_record_text_columns (chrom : string) (ii : indel_info)
  (members : list indel_info) :
  indel_record_text chrom ii members = tsv (indel_columns chrom ii members).
Proof.
  unfold indel_columns. rewrite !tsv_cons, tsv_one. unfold indel_record_text.
  do 7 (apply f_equal; apply f_equal).
  rewrite (append_assoc "CIGAR=" _ _).
  do 2 (apply f_equal; apply f_equal).
  rewrite (append_assoc (indel_get_gt ii) _ NL).
  apply f_equal. rewrite (append_assoc ":" _ NL). reflexivity.
Qed.

Lemma site_record_text_columns (s : gvcf_aggregator) (si : site_info) :
  site_record_text s si = tsv (site_columns s si).
Proof.
  unfold site_columns. rewrite !tsv_cons, tsv_one.
  unfold site_record_text, site_sample_field.
  do 9 (apply f_equal; apply f_equal).
  rewrite (append_assoc (site_get_gt si) _ NL).
  apply f_equal. rewrite (append_assoc ";" _ NL). reflexivity.
Qed.

End Columns.

(** ** A group that is not a conflict, from [process_overlaps] to the stream *)

Section GroupRecords.

Context {hdr : gvcf_header}.

(** Once the indels are out, the merging loop queues the remaining sites in
    their order. *)
Lemma write_merged_sites_fold (fuel : nat) (c : bool) (i j : nat) (s : gvcf_aggregator) :
  (_indel_buffer_size s <= i)%nat ->
  (_site_buffer_size s - j <= fuel)%nat ->
  write_merged fuel c i j s
  = Some (fold_left queue_site_record (skipn j (_site_buffer s)) s).
Proof.
  revert j s. induction fuel as [| fuel IH]; intros j s Hi Hf.
  - cbn [write_merged].
    replace (Nat.ltb i (_indel_buffer_size s)) with false
      by (symmetry; apply Nat.ltb_ge; lia).
    replace (Nat.ltb j (_site_buffer_size s)) with false
      by (symmetry; apply Nat.ltb_ge; lia).
    cbn [orb negb]. rewrite skipn_past by (unfold _site_buffer_size in Hf; lia).
    reflexivity.
  - rewrite write_merged_step.
    replace (Nat.ltb i (_indel_buffer_size s)) with false
      by (symmetry; apply Nat.ltb_ge; lia).
    destruct (Nat.ltb_spec j (_site_buffer_size s)) as [Lt | Ge]; cbn [orb negb andb].
    + unfold _site_buffer_size in Lt.
      destruct (nth_error (_site_buffer s) j) as [si |] eqn:Ej;
        [| apply nth_error_None in Ej; lia].
      cbn [bind]. rewrite (skipn_nth_error _ _ _ Ej). cbn [fold_left].
      destruct (queue_site_record_buffers s si) as (B & S & _).
      rewrite IH.
      * rewrite S. reflexivity.
      * unfold _indel_buffer_size in *. rewrite B. exact Hi.
      * unfold _site_buffer_size in *. rewrite S. lia.
    + rewrite skipn_past by (unfold _site_buffer_size in Ge; lia). reflexivity.
Qed.

Lemma adjusted_group_shape (s s1 : gvcf_aggregator) :
  adjusted_group s s1 ->
  s1 = with_indel_buffer s (_indel_buffer s1)
  /\ (if Nat.eqb (_indel_buffer_size s) 0 then None
      else if Nat.eqb (_indel_buffer_size s) 1 then
             s1 <- modify_single_indel_record s ;; Some (s1, false)
           else if is_simple_indel_overlap (_indel_buffer s) (_indel_buffer_size s) then
                  s1 <- modify_overlap_indel_record s ;; Some (s1, false)
                else s1 <- modify_conflict_indel_record s ;; Some (s1, true))
     = Some (s1, false).
Proof.
  intros [(Sz & E) | (Simple & E)].
  - split.
    + revert E. unfold modify_single_indel_record.
      destruct (assert_ok _); [| discriminate]. cbn [bind].
      destruct (_indel_buffer s); [discriminate |]. intros [= <-]. reflexivity.
    + rewrite Sz. cbn [Nat.eqb]. rewrite E. reflexivity.
  - assert (Sz : _indel_buffer_size s = 2%nat).
    { revert Simple. unfold is_simple_indel_overlap.
      destruct (_indel_buffer s) as [| a [| b r]]; try discriminate.
      destruct (Nat.eqb_spec (_indel_buffer_size s) 2); [intros _; assumption |].
      discriminate. }
    split.
    + revert E. unfold modify_overlap_indel_record.
      destruct (assert_ok _); [| discriminate]. cbn [bind].
      destruct (_indel_buffer s) as [| a [| b rest]]; try discriminate.
      cbv zeta.
      destruct (resize _ _); [| discriminate]. cbn [bind].
      destruct (add_cigar_to_ploidy _ _); [| discriminate]. cbn [bind].
      destruct (add_cigar_to_ploidy _ _); [| discriminate]. cbn [bind].
      intros [= <-]. reflexivity.
    + rewrite Simple, Sz. cbn [Nat.eqb]. rewrite E. reflexivity.
Qed.

(** What [process_overlaps] does with a group that is not a conflict once
    its indels are adjusted: it adjusts every buffered site against the
    first record, writes that record, and queues the adjusted sites. *)
Lemma process_overlaps_group (s s1 : gvcf_aggregator) (ii0 : indel_info)
  (rest : list indel_info) (sites' : list site_info) :
  adjusted_group s s1 ->
  _indel_buffer s1 = ii0 :: rest ->
  (is_overlap (imod ii0) = true -> rest <> []) ->
  Forall (fun si => ii_pos ii0 <= si_pos si) (_site_buffer s) ->
  adjust_sites (_opt s) false ii0 (_site_buffer s) = Some sites' ->
  process_overlaps s = Some (group_result s1 ii0 rest sites').
Proof.
  intros Hg Hbuf Hov Hsites Eadj.
  destruct (adjusted_group_shape s s1 Hg) as (Shape & Route).
  pose proof (adjust_sites_pos _ _ _ _ _ Eadj) as Hpos.
  unfold process_overlaps.
  destruct (Nat.eqb (_indel_buffer_size s) 0); [discriminate |].
  rewrite Route. cbn [bind]. cbv zeta.
  assert (O1 : _opt s1 = _opt s) by (rewrite Shape; reflexivity).
  assert (S1 : _site_buffer s1 = _site_buffer s) by (rewrite Shape; reflexivity).
  cbn [emit with_os _indel_buffer _site_buffer _opt]. rewrite Hbuf, O1, S1.
  cbn [nth_error bind]. rewrite Eadj. cbn [bind].
  set (s3 := with_site_buffer _ sites').
  assert (B3 : _indel_buffer s3 = ii0 :: rest) by exact Hbuf.
  assert (St3 : _site_buffer s3 = sites') by reflexivity.
  destruct (write_indel_record s3 0) as [s4 |] eqn:E4.
  2:{ exfalso.
      destruct (write_indel_record_line s3 0 ii0) as (s4 & E & _).
      - rewrite B3. reflexivity.
      - rewrite B3. destruct (is_overlap (imod ii0)) eqn:Ov; [| exact I].
        destruct rest; [exfalso; apply Hov; reflexivity | discriminate].
      - congruence. }
  assert (X4 : s4 = group_head s1 ii0 rest sites').
  { revert E4. unfold write_indel_record.
    destruct (assert_ok _); [| discriminate]. cbn [bind]. cbv zeta.
    destruct (write_block_site_record_same s3) as (Hb & _ & Hc & _).
    rewrite Hb, B3. cbn [nth_error bind].
    unfold group_head. cbv zeta. fold s3.
    rewrite Hc. change (_chrom s3) with (_chrom s1).
    rewrite <- indel_record_text_columns.
    destruct (is_overlap (imod ii0)).
    - cbn [indel_range nth_error bind].
      destruct rest as [| jj rest']; [discriminate |].
      cbn [nth_error bind firstn]. intros [= <-]. reflexivity.
    - cbn [indel_range nth_error bind Nat.sub]. intros [= <-]. reflexivity. }
  destruct (write_indel_record_buffers s3 s4 0 E4) as (B4 & S4 & _).
  assert (First : Nat.ltb 0 (_indel_buffer_size s3)
                  && (negb (Nat.ltb 0 (_site_buffer_size s3))
                      || match nth_error (_indel_buffer s3) 0,
                               nth_error (_site_buffer s3) 0 with
                         | Some ii, Some si => ii_pos ii <=? si_pos si
                         | _, _ => false
                         end) = true).
  { unfold _indel_buffer_size, _site_buffer_size. rewrite B3, St3.
    cbn [List.length Nat.ltb Nat.leb andb nth_error].
    destruct sites' as [| si0' rest']; [reflexivity |]. cbn.
    destruct (_site_buffer s) as [| si0 rest0]; [discriminate |].
    injection Hpos as Hp0 _. rewrite Hp0.
    apply Forall_inv in Hsites. apply Z.leb_le. exact Hsites. }
  assert (Fuel : (_indel_buffer_size s3 + _site_buffer_size s3)%nat
                 = S (List.length rest + List.length sites')).
  { unfold _indel_buffer_size, _site_buffer_size. rewrite B3, St3. reflexivity. }
  rewrite Fuel, write_merged_step.
  replace (negb (Nat.ltb 0 (_indel_buffer_size s3) || Nat.ltb 0 (_site_buffer_size s3)))
    with false
    by (unfold _indel_buffer_size; rewrite B3; reflexivity).
  rewrite First, E4. cbn [bind].
  rewrite write_merged_sites_fold.
  - cbn [bind skipn]. rewrite S4, St3. unfold group_result. rewrite X4. reflexivity.
  - lia.
  - unfold _site_buffer_size. rewrite S4, St3. lia.
Qed.

Lemma process_overlaps_group_abort (s s1 : gvcf_aggregator) (ii0 : indel_info)
  (rest : list indel_info) :
  adjusted_group s s1 ->
  _indel_buffer s1 = ii0 :: rest ->
  adjust_sites (_opt s) false ii0 (_site_buffer s) = None ->
  process_overlaps s = None.
Proof.
  intros Hg Hbuf Eadj.
  destruct (adjusted_group_shape s s1 Hg) as (Shape & Route).
  unfold process_overlaps.
  destruct (Nat.eqb (_indel_buffer_size s) 0); [discriminate |].
  rewrite Route. cbn [bind]. cbv zeta.
  assert (O1 : _opt s1 = _opt s) by (rewrite Shape; reflexivity).
  assert (S1 : _site_buffer s1 = _site_buffer s) by (rewrite Shape; reflexivity).
  cbn [emit with_os _indel_buffer _site_buffer _opt]. rewrite Hbuf, O1, S1.
  cbn [nth_error bind]. rewrite Eadj. reflexivity.
Qed.

Lemma write_block_site_record_closed (s : gvcf_aggregator) :
  count (_block (write_block_site_record s)) <= 0.
Proof.
  unfold write_block_site_record.
  destruct (Z.leb_spec (count (_block s)) 0); [assumption |].
  cbn. lia.
Qed.

(** A site that is not blockable is written by [queue_site_record], behind
    the block that was open. *)
Lemma queue_site_record_writes (s : gvcf_aggregator) (si : site_info) :
  is_site_record_blockable (_opt s) si = false ->
  _os (queue_site_record s si)
  = _os (write_block_site_record s)
    ++ [SiteLine (site_record_text (write_block_site_record s) si)].
Proof.
  intros Hb. unfold queue_site_record. rewrite Hb. cbn [negb].
  remember (write_site_record (write_block_site_record s) si) as s1 eqn:D1.
  assert (C1 : count (_block s1) <= 0)
    by (subst s1; apply write_block_site_record_closed).
  assert (W1 : write_block_site_record s1 = s1).
  { unfold write_block_site_record.
    destruct (Z.leb_spec (count (_block s1)) 0); [reflexivity | lia]. }
  assert (O1 : _os s1
               = _os (write_block_site_record s)
                 ++ [SiteLine (site_record_text (write_block_site_record s) si)])
    by (subst s1; reflexivity).
  clear D1.
  destruct (negb (block_test (_block s1) si)); rewrite ?W1; exact O1.
Qed.

Lemma write_block_site_record_os (s : gvcf_aggregator) :
  exists more, _os (write_block_site_record s) = _os s ++ more.
Proof.
  unfold write_block_site_record.
  destruct (count (_block s) <=? 0).
  - exists []. symmetry. apply app_nil_r.
  - eexists. reflexivity.
Qed.

Lemma queue_site_record_os (s : gvcf_aggregator) (si : site_info) :
  exists more, _os (queue_site_record s si) = _os s ++ more.
Proof.
  unfold queue_site_record.
  remember (if negb (is_site_record_blockable (_opt s) si)
            then write_site_record (write_block_site_record s) si else s)
    as s1 eqn:D1.
  assert (H1 : exists more, _os s1 = _os s ++ more).
  { subst s1. destruct (negb _).
    - destruct (write_block_site_record_os s) as (m & E).
      exists (m ++ [SiteLine (site_record_text (write_block_site_record s) si)]).
      unfold write_site_record, emit. cbn [_os with_os]. rewrite E.
      symmetry. apply app_assoc.
    - exists []. symmetry. apply app_nil_r. }
  clear D1. destruct H1 as (m1 & E1).
  destruct (negb (block_test (_block s1) si)); cbn [_os with_block].
  - destruct (write_block_site_record_os s1) as (m & E).
    exists (m1 ++ m). rewrite E, E1. symmetry. apply app_assoc.
  - exists m1. exact E1.
Qed.

Lemma fold_queue_os (sites : list site_info) (s : gvcf_aggregator) :
  exists more, _os (fold_left queue_site_record sites s) = _os s ++ more.
Proof.
  revert s. induction sites as [| si sites IH]; intros s; cbn [fold_left].
  - exists []. symmetry. apply app_nil_r.
  - destruct (IH (queue_site_record s si)) as (m & E).
    destruct (queue_site_record_os s si) as (m0 & E0).
    exists (m0 ++ m). rewrite E, E0. symmetry. apply app_assoc.
Qed.

(** Every queued site that is not blockable has its record in the stream,
    with the columns of [write_site_record]. *)
Lemma fold_queue_writes (sites : list site_info) (s : gvcf_aggregator)
  (si : site_info) :
  In si sites ->
  is_site_record_blockable (_opt s) si = false ->
  exists st,
    _chrom st = _chrom s
    /\ In (SiteLine (tsv (site_columns st si)))
         (_os (fold_left queue_site_record sites s)).
Proof.
  revert s. induction sites as [| x sites IH]; intros s Hin Hb; [contradiction |].
  cbn [fold_left]. destruct Hin as [-> | Hin].
  - exists (write_block_site_record s). split.
    + apply (write_block_site_record_same s).
    + destruct (fold_queue_os sites (queue_site_record s si)) as (m & E).
      rewrite E, (queue_site_record_writes s si Hb), <- site_record_text_columns.
      apply in_or_app. left. apply in_or_app. right. left. reflexivity.
  - destruct (queue_site_record_same s x) as (_ & _ & Hc & Ho & _).
    destruct (IH (queue_site_record s x) Hin) as (st & C & I).
    + rewrite Ho. exact Hb.
    + exists st. split; [congruence | exact I].
Qed.

Lemma group_head_settings (s1 : gvcf_aggregator) (ii0 : indel_info)
  (rest : list indel_info) (sites' : list site_info) :
  _opt (group_head s1 ii0 rest sites') = _opt s1
  /\ _chrom (group_head s1 ii0 rest sites') = _chrom s1.
Proof.
  unfold group_head. cbv zeta.
  match goal with
  | |- context [write_block_site_record ?x] =>
      destruct (write_block_site_record_same x) as (_ & _ & Hc & Ho & _)
  end.
  split; [exact Ho | exact Hc].
Qed.

Lemma group_result_writes (s1 : gvcf_aggregator) (ii0 : indel_info)
  (rest : list indel_info) (sites' : list site_info) (si' : site_info) :
  In si' sites' ->
  is_site_record_blockable (_opt s1) si' = false ->
  exists st,
    _chrom st = _chrom s1
    /\ In (SiteLine (tsv (site_columns st si'))) (_os (group_result s1 ii0 rest sites')).
Proof.
  intros Hin Hb. unfold group_result.
  cbn [_os with_site_buffer with_indel_buffer].
  destruct (group_head_settings s1 ii0 rest sites') as (Ho & Hc).
  destruct (fold_queue_writes sites' (group_head s1 ii0 rest sites') si' Hin)
    as (st & C & I).
  - rewrite Ho. exact Hb.
  - exists st. split; [congruence | exact I].
Qed.

Lemma group_result_indel_line (s1 : gvcf_aggregator) (ii0 : indel_info)
  (rest : list indel_info) (sites' : list site_info) :
  indel_lines (group_result s1 ii0 rest sites')
  = indel_lines s1
    ++ [IndelLine
          (tsv (indel_columns (_chrom s1) ii0
                  (ii0 :: if is_overlap (imod ii0) then firstn 1 rest else [])))].
Proof.
  unfold group_result, indel_lines at 1.
  cbn [_os with_site_buffer with_indel_buffer].
  fold (indel_lines (fold_left queue_site_record sites' (group_head s1 ii0 rest sites'))).
  assert (F : forall l st, indel_lines (fold_left queue_site_record l st) = indel_lines st).
  { induction l as [| x l IH]; intros st; cbn [fold_left]; [reflexivity |].
    rewrite IH. apply (queue_site_record_same st x). }
  rewrite F. unfold group_head. cbv zeta.
  unfold indel_lines at 1, emit at 1. cbn [_os with_os]. rewrite filter_app.
  cbn [filter is_indel_line].
  match goal with
  | |- filter is_indel_line (_os (write_block_site_record ?x)) ++ _ = _ =>
      fold (indel_lines (write_block_site_record x));
      destruct (write_block_site_record_same x) as (_ & _ & _ & _ & ->)
  end.
  unfold indel_lines, emit. cbn [_os with_os with_site_buffer].
  rewrite filter_app. cbn [filter is_indel_line]. rewrite app_nil_r. reflexivity.
Qed.

End GroupRecords.

Section GroupSites.

Context {hdr : gvcf_header}.

Lemma adjustable_not_before (ii0 : indel_info) (sites : list site_info) :
  Forall (adjustable ii0) sites -> Forall (fun si => ii_pos ii0 <= si_pos si) sites.
Proof.
  intros H. eapply Forall_impl; [| exact H]. intros si (Off & _). lia.
Qed.

(** C7. In a group that is not a conflict, once its indels are adjusted,
    [process_overlaps] adjusts every buffered site against the first record
    and queues the adjusted sites behind that record: a site whose looked-up
    ploidy is 1 and whose own genotype is heterozygous is queued with output
    genotype "unknown", the site-conflict filter, and quality and genotype
    quality no higher than the indel's; at ploidy 0 it is queued with output
    genotype "unknown" and the zero-ploidy flag; every queued site that is
    not blockable is in the stream with these values in its columns; and a
    site with any other ploidy fails the assertion, so that nothing is
    returned. *)
Theorem process_overlaps_adjusts_sites (s s1 : gvcf_aggregator) (ii0 : indel_info)
  (rest : list indel_info) :
  adjusted_group s s1 ->
  _indel_buffer s1 = ii0 :: rest ->
  (is_overlap (imod ii0) = true -> rest <> []) ->
  (Exists (fun si => site_ploidy ii0 si <> 0%N /\ site_ploidy ii0 si <> 1%N)
     (_site_buffer s) ->
   process_overlaps s = None)
  /\ (Forall (adjustable ii0) (_site_buffer s) ->
      exists sites',
        process_overlaps s = Some (group_result s1 ii0 rest sites')
        /\ Forall2
             (fun si si' =>
                (site_ploidy ii0 si = 1%N ->
                 DIGT_is_het (smod_max_gt (smod si)) = true ->
                 smod_modified_gt (smod si') = MODIFIED_SITE_GT.UNKNOWN
                 /\ test_filter VCF_FILTERS.SiteConflict (smod_filters (smod si')) = true
                 /\ snp_qphred (genome (dgt si')) <= indel_qphred (dindel ii0)
                 /\ snp_qphred (genome (dgt si')) <= snp_qphred (genome (dgt si))
                 /\ smod_gqx (smod si') <= dindel_max_gt_qphred (dindel ii0)
                 /\ smod_gqx (smod si') <= smod_gqx (smod si))
                /\ (site_ploidy ii0 si = 0%N ->
                    smod_modified_gt (smod si') = MODIFIED_SITE_GT.UNKNOWN
                    /\ smod_is_zero_ploidy (smod si') = true))
             (_site_buffer s) sites'
        /\ forall si',
             In si' sites' ->
             is_site_record_blockable (_opt s) si' = false ->
             exists st,
               _chrom st = _chrom s
               /\ In (SiteLine (tsv (site_columns st si')))
                    (_os (group_result s1 ii0 rest sites'))).
Proof.
  intros Hg Hbuf Hov.
  destruct (adjusted_group_shape s s1 Hg) as (Shape & _).
  assert (O1 : _opt s1 = _opt s) by (rewrite Shape; reflexivity).
  assert (C1 : _chrom s1 = _chrom s) by (rewrite Shape; reflexivity).
  split.
  - intros Hex. apply (process_overlaps_group_abort s s1 ii0 rest Hg Hbuf).
    apply adjust_sites_overlap_abort. exact Hex.
  - intros Hsites.
    destruct (proj2 (adjust_sites_ploidy (_opt s) ii0 (_site_buffer s)) Hsites)
      as (sites' & Eadj & F).
    exists sites'. split; [| split; [exact F |]].
    + apply process_overlaps_group; try assumption.
      apply adjustable_not_before. exact Hsites.
    + intros si' Hin Hb. rewrite <- C1.
      apply group_result_writes; [exact Hin | rewrite O1; exact Hb].
Qed.

(** C8. In a group that is not a conflict, once its indels are adjusted,
    [process_overlaps] queues every buffered site with the filter set it
    computes from the first record: a filter of the site survives only if
    that record carries it too (the bitwise AND of the two sets), and the
    site-conflict filter and the filters of the re-run quality and depth
    rules are added after that intersection, whatever the record carries;
    every queued site that is not blockable is in the stream with that set
    in its FILTER column. *)
Theorem process_overlaps_inherits_filters (s s1 : gvcf_aggregator) (ii0 : indel_info)
  (rest : list indel_info) :
  adjusted_group s s1 ->
  _indel_buffer s1 = ii0 :: rest ->
  (is_overlap (imod ii0) = true -> rest <> []) ->
  Forall (adjustable ii0) (_site_buffer s) ->
  exists sites',
    process_overlaps s = Some (group_result s1 ii0 rest sites')
    /\ Forall2
         (fun si si' =>
            forall f : VCF_FILTERS.index_t,
              test_filter f (smod_filters (smod si'))
              = (test_filter f (smod_filters (smod si))
                 && test_filter f (imod_filters (imod ii0)))
                || added_after_inherit (_opt s) (site_ploidy ii0 si) si
                     (smod_gqx (smod si')) f)
         (_site_buffer s) sites'
    /\ forall si',
         In si' sites' ->
         is_site_record_blockable (_opt s) si' = false ->
         exists st,
           _chrom st = _chrom s
           /\ In (SiteLine (tsv (site_columns st si')))
                (_os (group_result s1 ii0 rest sites')).
Proof.
  intros Hg Hbuf Hov Hsites.
  destruct (adjusted_group_shape s s1 Hg) as (Shape & _).
  assert (O1 : _opt s1 = _opt s) by (rewrite Shape; reflexivity).
  assert (C1 : _chrom s1 = _chrom s) by (rewrite Shape; reflexivity).
  destruct (adjust_sites_inherits_filters (_opt s) ii0 (_site_buffer s) Hsites)
    as (sites' & Eadj & F).
  exists sites'. split; [| split; [exact F |]].
  - apply process_overlaps_group; try assumption.
    apply adjustable_not_before. exact Hsites.
  - intros si' Hin Hb. rewrite <- C1.
    apply group_result_writes; [exact Hin | rewrite O1; exact Hb].
Qed.

End GroupSites.

(** ** A conflict group, from [process_overlaps] to the stream *)

Section ConflictRecords.

Context {hdr : gvcf_header}.

Lemma conflict_group_not_simple (s : gvcf_aggregator) :
  conflict_group s ->
  is_simple_indel_overlap (_indel_buffer s) (_indel_buffer_size s) = false.
Proof.
  intros (H2 & H). unfold is_simple_indel_overlap, _indel_buffer_size in *.
  destruct (_indel_buffer s) as [| a [| b r]]; try reflexivity.
  destruct H as [H3 | Hex].
  - destruct r; [cbn in H3; lia | reflexivity].
  - destruct r; [| reflexivity]. cbn [List.length Nat.eqb andb].
    apply Exists_cons in Hex as [Ha | Hex]; [rewrite Ha; reflexivity |].
    apply Exists_cons in Hex as [Hb | Hex]; [rewrite Hb; apply andb_false_r |].
    inversion Hex.
Qed.

Lemma write_conflict_event_eq (s : gvcf_aggregator) (x : indel_info + site_info) :
  write_conflict_event s x = emit_conflict_event s x.
Proof.
  destruct x as [ii | si]; [| reflexivity].
  unfold write_conflict_event, emit_conflict_event.
  rewrite indel_record_text_columns. reflexivity.
Qed.

Lemma fold_write_conflict_event (evs : list (indel_info + site_info))
  (s : gvcf_aggregator) :
  fold_left write_conflict_event evs s = fold_left emit_conflict_event evs s.
Proof.
  revert s. induction evs as [| x evs IH]; intros s; cbn [fold_left]; [reflexivity |].
  rewrite write_conflict_event_eq. apply IH.
Qed.

Lemma emit_conflict_event_opt (s : gvcf_aggregator) (x : indel_info + site_info) :
  _opt (emit_conflict_event s x) = _opt s.
Proof.
  destruct x as [ii | si]; cbn [emit_conflict_event].
  - apply (write_block_site_record_same s).
  - apply (queue_site_record_same s si).
Qed.

Lemma emit_conflict_event_os (s : gvcf_aggregator) (x : indel_info + site_info) :
  exists more, _os (emit_conflict_event s x) = _os s ++ more.
Proof.
  destruct x as [ii | si]; cbn [emit_conflict_event].
  - destruct (write_block_site_record_os s) as (m & E).
    exists (m ++ [IndelLine (indel_record_text (_chrom s) ii [ii])]).
    unfold emit. cbn [_os with_os]. rewrite E. symmetry. apply app_assoc.
  - apply queue_site_record_os.
Qed.

Lemma fold_conflict_os (evs : list (indel_info + site_info)) (s : gvcf_aggregator) :
  exists more, _os (fold_left emit_conflict_event evs s) = _os s ++ more.
Proof.
  revert s. induction evs as [| x evs IH]; intros s; cbn [fold_left].
  - exists []. symmetry. apply app_nil_r.
  - destruct (IH (emit_conflict_event s x)) as (m & E).
    destruct (emit_conflict_event_os s x) as (m0 & E0).
    exists (m0 ++ m). rewrite E, E0. symmetry. apply app_assoc.
Qed.

Lemma fold_conflict_writes (evs : list (indel_info + site_info)) (s : gvcf_aggregator)
  (si : site_info) :
  In (inr si) evs ->
  is_site_record_blockable (_opt s) si = false ->
  exists st,
    _chrom st = _chrom s
    /\ In (SiteLine (tsv (site_columns st si)))
         (_os (fold_left emit_conflict_event evs s)).
Proof.
  revert s. induction evs as [| x evs IH]; intros s Hin Hb; [contradiction |].
  cbn [fold_left]. destruct Hin as [-> | Hin].
  - exists (write_block_site_record s). split.
    + apply (write_block_site_record_same s).
    + destruct (fold_conflict_os evs (emit_conflict_event s (inr si))) as (m & E).
      rewrite E. cbn [emit_conflict_event].
      rewrite (queue_site_record_writes s si Hb), <- site_record_text_columns.
      apply in_or_app. left. apply in_or_app. right. left. reflexivity.
  - destruct (emit_conflict_event_same s x) as (_ & _ & Hc).
    destruct (IH (emit_conflict_event s x) Hin) as (st & C & I).
    + rewrite emit_conflict_event_opt. exact Hb.
    + exists st. split; [congruence | exact I].
Qed.

Lemma in_merge_order_site (indels : list indel_info) (sites : list site_info)
  (si : site_info) :
  In si sites -> In (inr si) (merge_order indels sites).
Proof.
  revert sites. induction indels as [| ii indels IHi]; intros sites Hin.
  - cbn [merge_order]. apply in_map. exact Hin.
  - induction sites as [| x sites IHs]; [contradiction |].
    rewrite merge_order_cons. destruct (ii_pos ii <=? si_pos x).
    + right. apply IHi. exact Hin.
    + destruct Hin as [-> | Hin]; [left; reflexivity | right; apply IHs; exact Hin].
Qed.

Lemma conflict_indel_record_keeps (opt : starling_options) (ii : indel_info) :
  dindel (conflict_indel_record opt ii) = dindel ii
  /\ iri (conflict_indel_record opt ii) = iri ii
  /\ imod_gqx (imod (conflict_indel_record opt ii))
     = Z.min (indel_qphred (dindel ii)) (dindel_max_gt_qphred (dindel ii)).
Proof.
  unfold conflict_indel_record.
  match goal with
  | |- context [add_indel_modifiers opt ?x] =>
      destruct (add_indel_modifiers_fields opt x) as (_ & _ & D & R & _);
      destruct (add_indel_modifiers_imod opt x) as (_ & _ & _ & G)
  end.
  rewrite D, R, G. repeat split.
Qed.

(** C9. A pending group of three or more indels, or of two of which one is
    not heterozygous, does not stop the run: [process_overlaps] writes
    every member as a record of its own, listing itself alone, in the merged
    position order of the indels and the sites with an indel before a site
    of the same position; the record has the member's own position,
    reference and alt allele and quality, the indel-conflict filter in the
    set of its FILTER column, and the descriptor built from its own key;
    every buffered site is queued with the indel-conflict filter added and
    its genotype and qualities unchanged, and is in the stream with these
    values when it is not blockable. *)
Theorem process_overlaps_conflict_records (s : gvcf_aggregator) (ii0 : indel_info) :
  hd_error (_indel_buffer s) = Some ii0 ->
  conflict_group s ->
  Forall (fun ii => is_overlap (imod ii) = false) (_indel_buffer s) ->
  Forall (fun si => ii_pos ii0 <= si_pos si) (_site_buffer s) ->
  let members := map (conflict_indel_record (_opt s)) (_indel_buffer s) in
  let sites := map modify_indel_conflict_site (_site_buffer s) in
  let s3 :=
    with_site_buffer
      (emit (with_indel_buffer s members)
         (OtherLine ("INDEL_SIZE: " ++ show_Z (Z.of_nat (List.length members)) ++ NL)%string))
      sites in
  exists s',
    process_overlaps s = Some s'
    /\ s' = with_site_buffer
              (with_indel_buffer
                 (fold_left write_conflict_event (merge_order members sites) s3) []) []
    /\ indel_lines s'
       = indel_lines s
         ++ map (fun ii' => IndelLine (tsv (indel_columns (_chrom s) ii' [ii']))) members
    /\ Forall2
         (fun ii ii' =>
            ii_pos ii' = ii_pos ii
            /\ dindel ii' = dindel ii
            /\ iri ii' = iri ii
            /\ test_filter VCF_FILTERS.IndelConflict (imod_filters (imod ii')) = true
            /\ cigar (imod ii') = get_hap_cigar (ik ii) 1 0
            /\ imod_gqx (imod ii')
               = Z.min (indel_qphred (dindel ii)) (dindel_max_gt_qphred (dindel ii)))
         (_indel_buffer s) members
    /\ Forall2
         (fun si si' =>
            smod_filters (smod si')
            = set_filter VCF_FILTERS.IndelConflict (smod_filters (smod si))
            /\ dgt si' = dgt si
            /\ smod_max_gt (smod si') = smod_max_gt (smod si)
            /\ smod_gqx (smod si') = smod_gqx (smod si)
            /\ smod_modified_gt (smod si') = smod_modified_gt (smod si))
         (_site_buffer s) sites
    /\ forall si',
         In si' sites ->
         is_site_record_blockable (_opt s) si' = false ->
         exists st,
           _chrom st = _chrom s
           /\ In (SiteLine (tsv (site_columns st si'))) (_os s').
Proof.
  intros Hhd Hg Hov Hsites members sites s3.
  destruct (process_overlaps_conflict s ii0 Hhd (proj1 Hg)
              (conflict_group_not_simple s Hg) Hov Hsites)
    as (s' & E & X & L & _ & Fs).
  fold members in X, L. fold sites in X, Fs. fold s3 in X.
  exists s'. split; [exact E |].
  split; [rewrite fold_write_conflict_event; exact X |].
  split.
  { rewrite L. f_equal. apply map_ext. intros ii'.
    rewrite indel_record_text_columns. reflexivity. }
  split.
  { subst members. clear.
    induction (_indel_buffer s) as [| ii rest IH]; constructor; [| exact IH].
    destruct (conflict_indel_record_fields (_opt s) ii) as (P & _ & F & C).
    destruct (conflict_indel_record_keeps (_opt s) ii) as (D & R & G).
    repeat split; assumption. }
  split; [exact Fs |].
  intros si' Hin Hb. rewrite X.
  cbn [_os with_site_buffer with_indel_buffer].
  destruct (fold_conflict_writes (merge_order members sites) s3 si') as (st & C & I).
  - apply in_merge_order_site. exact Hin.
  - exact Hb.
  - exists st. split; [exact C | exact I].
Qed.

End ConflictRecords.

(** ** Writing an indel record, and the record of a merged pair *)

Section PairRecord.

Context {hdr : gvcf_header}.

(** X17. For an index inside the indel buffer and, when the record there
    is marked as an overlap, with the next index inside it too,
    [write_indel_record] returns: the open block, if any, is written first,
    then one record, the last line of the stream, with the ten columns of
    the record and, in the ALT column and in the descriptor, the record
    itself followed for an overlap by the next one; the buffers and the
    cursor stay as they are and no block is open behind the record. *)
Theorem write_indel_record_writes (s : gvcf_aggregator) (i : nat) (ii : indel_info) :
  nth_error (_indel_buffer s) i = Some ii ->
  (is_overlap (imod ii) = true -> (S i < _indel_buffer_size s)%nat) ->
  exists s',
    write_indel_record s i = Some s'
    /\ _os s'
       = _os (write_block_site_record s)
         ++ [IndelLine
               (tsv (indel_columns (_chrom s) ii
                       (ii :: if is_overlap (imod ii)
                              then firstn 1 (skipn (S i) (_indel_buffer s)) else [])))]
    /\ same_buffers s s'
    /\ count (_block s') <= 0.
Proof.
  intros Hi Hnext. unfold write_indel_record.
  assert (Hlen : Nat.ltb 0 (_indel_buffer_size s) = true).
  { apply Nat.ltb_lt. unfold _indel_buffer_size.
    destruct (_indel_buffer s); [destruct i; discriminate | cbn; lia]. }
  rewrite Hlen. cbn [assert_ok bind]. cbv zeta.
  destruct (write_block_site_record_same s) as (Hb & _ & Hc & _).
  destruct (write_block_site_record_buffers s) as (Bb & Bs & Bh).
  pose proof (write_block_site_record_closed s) as Cl.
  rewrite Hb, Hi, Hc. cbn [bind]. rewrite <- indel_record_text_columns.
  destruct (is_overlap (imod ii)) eqn:Ov.
  - replace (S (S i) - i)%nat with 2%nat by lia. cbn [indel_range].
    rewrite Hi. cbn [bind].
    destruct (nth_error (_indel_buffer s) (S i)) as [jj |] eqn:Ej.
    2:{ apply nth_error_None in Ej. specialize (Hnext eq_refl).
        unfold _indel_buffer_size in Hnext. lia. }
    cbn [bind]. rewrite (skipn_nth_error _ _ _ Ej). cbn [firstn].
    eexists. split; [reflexivity |].
    split; [reflexivity |]. split; [| exact Cl].
    repeat split; assumption.
  - replace (S i - i)%nat with 1%nat by lia. cbn [indel_range].
    rewrite Hi. cbn [bind].
    eexists. split; [reflexivity |].
    split; [reflexivity |]. split; [| exact Cl].
    repeat split; assumption.
Qed.

(** X25. Two heterozygous pending indels whose right bound is at or past the
    right boundary of both (and which are stored as [add_indel] stores
    them, with every buffered site adjustable against the merged record) are
    written as one record: [process_overlaps] writes exactly one indel
    record, at the first member's position, with the reference of the
    merged span, both extended alleles and both descriptors joined by a
    comma, the lower of the two qualities as QUAL and the lower of the
    resulting two qualities as GQX, and queues the adjusted sites behind
    it. *)
Theorem process_overlaps_pair_record (s : gvcf_aggregator) (a b : indel_info) :
  overlap_pair s a b ->
  is_het_indel (dindel a) = true ->
  is_het_indel (dindel b) = true ->
  (forall a' b',
      modify_overlap_indel_record s = Some (with_indel_buffer s [a'; b']) ->
      Forall (adjustable a') (_site_buffer s)) ->
  exists a' b' sites' s',
    modify_overlap_indel_record s = Some (with_indel_buffer s [a'; b'])
    /\ adjust_sites (_opt s) false a' (_site_buffer s) = Some sites'
    /\ process_overlaps s = Some s'
    /\ s' = group_result (with_indel_buffer s [a'; b']) a' [b'] sites'
    /\ indel_lines s'
       = indel_lines s
         ++ [IndelLine
               (tsv [_chrom s;
                     show_Z (ii_pos a);
                     ".";
                     get_substring (_ref s) (ii_pos a - 1)
                       (_indel_end_pos s - (ii_pos a - 1));
                     vcf_indel_seq (iri (extend_haplotype s (ii_pos a - 1) a)) ++ ","
                     ++ vcf_indel_seq (iri (extend_haplotype s (ii_pos a - 1) b));
                     show_Z (Z.min (indel_qphred (dindel a)) (indel_qphred (dindel b)));
                     write_filters (imod_filters (imod a'));
                     "CIGAR="
                     ++ show_path
                          (get_hap_cigar (ik a) 1
                             (Z.to_N (_indel_end_pos s - right_pos (ik a))))
                     ++ ","
                     ++ show_path
                          (get_hap_cigar (ik b) (Z.to_N (ii_pos b - ii_pos a + 1))
                             (Z.to_N (_indel_end_pos s - right_pos (ik b))));
                     "GT:GQX";
                     indel_get_gt a' ++ ":"
                     ++ show_Z
                          (Z.min
                             (Z.min (indel_qphred (dindel a)) (indel_qphred (dindel b)))
                             (Z.min (dindel_max_gt_qphred (dindel a))
                                (dindel_max_gt_qphred (dindel b))))]%string)].
Proof.
  intros Hp Ha Hb Hsites.
  destruct (modify_overlap_indel_record_result s a b Hp)
    as (a' & b' & E & Eb' & Pa & Rs & Is & Ov & Qi & Qg & Gq & Ca & Cb & _).
  specialize (Hsites a' b' E).
  destruct (adjust_sites_overlap_each (_opt s) a' (_site_buffer s) Hsites)
    as (sites' & Eadj & _).
  destruct Hp as (Hbuf & _).
  assert (Hg : adjusted_group s (with_indel_buffer s [a'; b'])).
  { right. split; [| exact E].
    unfold _indel_buffer_size. rewrite Hbuf.
    cbn [is_simple_indel_overlap List.length Nat.eqb andb]. rewrite Ha, Hb. reflexivity. }
  exists a', b', sites', (group_result (with_indel_buffer s [a'; b']) a' [b'] sites').
  split; [exact E |]. split; [exact Eadj |].
  split.
  { apply (process_overlaps_group s _ a' [b'] sites' Hg);
      [reflexivity | intros _; discriminate | | exact Eadj].
    eapply Forall_impl; [| exact Hsites]. intros si (Off & _). lia. }
  split; [reflexivity |].
  rewrite group_result_indel_line, Ov.
  cbn [firstn indel_lines _os with_indel_buffer _chrom].
  unfold indel_columns. cbn [map String.concat].
  rewrite Pa, Rs, Is, Eb', Qi, Ca, Gq, Qi, Qg.
  replace (cigar (imod (extend_haplotype s (ii_pos a - 1) b)))
    with (get_hap_cigar (ik b) (Z.to_N (ii_pos b - ii_pos a + 1))
            (Z.to_N (_indel_end_pos s - right_pos (ik b))))
    by (rewrite <- Eb'; symmetry; exact Cb).
  reflexivity.
Qed.

End PairRecord.

(** ** The pair whose right bound is short of its first member *)

(** C5. Two heterozygous deletions, of positions 2 to 9 and of position 4,
    are buffered as one group that [process_overlaps] takes for a simple
    overlap; the right bound of the group is 5, the right boundary of the
    member stored last, and the reference allele that
    [modify_overlap_indel_record] gives the combined record is read from
    position 1 up to that bound: four bases, where the first member alone
    takes up nine, and its trailing length is the difference 5 - 10 taken
    as unsigned. *)
Theorem short_pair_record_misses_first_member :
  map (fun ii => (ii_pos ii, right_pos (ik ii), delete_length (ik ii),
                  is_het_indel (dindel ii)))
    (_indel_buffer ex_short_state)
  = [(2, 10, 8%N, true); (4, 5, 1%N, true)]
  /\ _indel_end_pos ex_short_state = 5
  /\ is_simple_indel_overlap (_indel_buffer ex_short_state)
       (_indel_buffer_size ex_short_state) = true
  /\ get_substring (_ref ex_short_state) (2 - 1) (_indel_end_pos ex_short_state - (2 - 1))
     = "AAAA"%string
  /\ to_unsigned (_indel_end_pos ex_short_state - 10) = 4294967291%N.
Proof. repeat split; vm_compute; reflexivity. Qed.

(** C6. For the same two deletions [modify_overlap_indel_record] sizes the
    ploidy vector by the right bound 5: three entries, for the positions 2
    to 4, where the first member deletes the eight positions 2 to 9 and its
    descriptor, before any trailing match, takes up nine. *)
Theorem short_pair_ploidy_vector_too_short :
  option_map (fun ii => (ii_pos ii, ploidy (imod ii))) (hd_error (_indel_buffer ex_short_state))
  = Some (2, [])
  /\ resize (_indel_end_pos ex_short_state - 2) [] = Some [0; 0; 0]%N
  /\ option_map (fun ii => map (in_deletion ii) [2; 3; 4; 5; 6; 7; 8; 9])
       (hd_error (_indel_buffer ex_short_state))
     = Some [true; true; true; true; true; true; true; true]
  /\ option_map (fun ii => ref_length (get_hap_cigar (ik ii) 1 0))
       (hd_error (_indel_buffer ex_short_state))
     = Some 9.
Proof. repeat split; vm_compute; reflexivity. Qed.

(** ** The records on the example inputs *)

Lemma ex_pair_adjusted_group : adjusted_group ex_pair_state ex_pair_adjusted.
Proof. right. split; vm_compute; reflexivity. Defined.

Lemma ex_pair_adjusted_buffer :
  _indel_buffer ex_pair_adjusted = ex_merged :: tl (_indel_buffer ex_pair_adjusted).
Proof. vm_compute. reflexivity. Defined.

Lemma ex_pair_adjusted_next :
  is_overlap (imod ex_merged) = true -> tl (_indel_buffer ex_pair_adjusted) <> [].
Proof. intros _. vm_compute. discriminate. Defined.

Lemma process_overlaps_adjusts_sites_witness :
  process_overlaps ex_diploid_state = None
  /\ exists sites',
       process_overlaps ex_pair_state
       = Some (group_result ex_pair_adjusted ex_merged
                 (tl (_indel_buffer ex_pair_adjusted)) sites')
       /\ _os (group_result ex_pair_adjusted ex_merged
                 (tl (_indel_buffer ex_pair_adjusted)) sites')
          = [OtherLine ("INDEL_SIZE: 2" ++ NL)%string;
             SiteLine (tsv ["chr1"; "1"; "."; "N"; "."; "."; "LowGQX";
                            "END=5;BLOCKAVG_min30p3a"; "GT:GQX"; "0/0;."]%string);
             IndelLine (tsv ["chr1"; "5"; "."; "AAAAA"; "AA,AA"; "45"; ".";
                             "CIGAR=1M3D1M,2M3D"; "GT:GQX"; "1/2:45"]%string);
             SiteLine (tsv ["chr1"; "6"; "."; "N"; "."; "."; "LowGQX";
                            "END=8;BLOCKAVG_min30p3a"; "GT:GQX"; "0;."]%string);
             SiteLine (tsv ["chr1"; "9"; "."; "A"; "C"; "45"; "SiteConflict"; ".";
                            "GT:GQX"; ".;50"]%string)].
Proof.
  split.
  - apply (proj1 (process_overlaps_adjusts_sites ex_diploid_state ex_diploid_adjusted
                    (single_indel_record ex_opt ex_diploid) []
                    (or_introl (conj eq_refl eq_refl)) eq_refl
                    (fun H => False_ind _ (Bool.diff_false_true H)))).
    apply Exists_cons_hd. vm_compute. split; discriminate.
  - destruct (proj2 (process_overlaps_adjusts_sites ex_pair_state ex_pair_adjusted
                       ex_merged (tl (_indel_buffer ex_pair_adjusted))
                       ex_pair_adjusted_group ex_pair_adjusted_buffer
                       ex_pair_adjusted_next)
                ex_pair_sites_adjustable) as (sites' & E & _).
    exists sites'. split; [exact E |].
    assert (Ec : option_map _os (process_overlaps ex_pair_state)
                 = Some
                     [OtherLine ("INDEL_SIZE: 2" ++ NL)%string;
                      SiteLine (tsv ["chr1"; "1"; "."; "N"; "."; "."; "LowGQX";
                                     "END=5;BLOCKAVG_min30p3a"; "GT:GQX"; "0/0;."]%string);
                      IndelLine (tsv ["chr1"; "5"; "."; "AAAAA"; "AA,AA"; "45"; ".";
                                      "CIGAR=1M3D1M,2M3D"; "GT:GQX"; "1/2:45"]%string);
                      SiteLine (tsv ["chr1"; "6"; "."; "N"; "."; "."; "LowGQX";
                                     "END=8;BLOCKAVG_min30p3a"; "GT:GQX"; "0;."]%string);
                      SiteLine (tsv ["chr1"; "9"; "."; "A"; "C"; "45"; "SiteConflict"; ".";
                                     "GT:GQX"; ".;50"]%string)])
      by (vm_compute; reflexivity).
    rewrite E in Ec. injection Ec as Ec. exact Ec.
Defined.

Lemma ex_filtered_adjusted_group : adjusted_group ex_filtered_state ex_filtered_adjusted.
Proof. right. split; vm_compute; reflexivity. Defined.

Lemma ex_filtered_adjustable :
  Forall (adjustable (hd ex_a (_indel_buffer ex_filtered_adjusted)))
    (_site_buffer ex_filtered_state).
Proof. apply adjustableb_sound. vm_compute. reflexivity. Defined.

Lemma process_overlaps_inherits_filters_witness :
  map (fun si => smod_filters (smod si)) (_site_buffer ex_filtered_state)
  = [set_filter VCF_FILTERS.SiteConflict (set_filter VCF_FILTERS.HighDepth 0%N)]
  /\ imod_filters (imod (hd ex_a (_indel_buffer ex_filtered_adjusted)))
     = set_filter VCF_FILTERS.SiteConflict 0%N
  /\ exists sites',
       process_overlaps ex_filtered_state
       = Some (group_result ex_filtered_adjusted
                 (hd ex_a (_indel_buffer ex_filtered_adjusted))
                 (tl (_indel_buffer ex_filtered_adjusted)) sites')
       /\ _os (group_result ex_filtered_adjusted
                 (hd ex_a (_indel_buffer ex_filtered_adjusted))
                 (tl (_indel_buffer ex_filtered_adjusted)) sites')
          = [OtherLine ("INDEL_SIZE: 2" ++ NL)%string;
             SiteLine (tsv ["chr1"; "1"; "."; "N"; "."; "."; "LowGQX";
                            "END=5;BLOCKAVG_min30p3a"; "GT:GQX"; "0/0;."]%string);
             IndelLine (tsv ["chr1"; "5"; "."; "AAAAA"; "AA,AA"; "45"; "SiteConflict";
                             "CIGAR=1M3D1M,2M3D"; "GT:GQX"; "1/2:45"]%string);
             SiteLine (tsv ["chr1"; "9"; "."; "A"; "C"; "40"; "SiteConflict"; ".";
                            "GT:GQX"; "1;40"]%string)].
Proof.
  split; [vm_compute; reflexivity |]. split; [vm_compute; reflexivity |].
  destruct (process_overlaps_inherits_filters ex_filtered_state ex_filtered_adjusted
              (hd ex_a (_indel_buffer ex_filtered_adjusted))
              (tl (_indel_buffer ex_filtered_adjusted))
              ex_filtered_adjusted_group)
    as (sites' & E & _).
  - vm_compute. reflexivity.
  - intros _. vm_compute. discriminate.
  - exact ex_filtered_adjustable.
  - exists sites'. split; [exact E |].
    assert (Ec : option_map _os (process_overlaps ex_filtered_state)
                 = Some
                     [OtherLine ("INDEL_SIZE: 2" ++ NL)%string;
                      SiteLine (tsv ["chr1"; "1"; "."; "N"; "."; "."; "LowGQX";
                                     "END=5;BLOCKAVG_min30p3a"; "GT:GQX"; "0/0;."]%string);
                      IndelLine (tsv ["chr1"; "5"; "."; "AAAAA"; "AA,AA"; "45";
                                      "SiteConflict"; "CIGAR=1M3D1M,2M3D"; "GT:GQX";
                                      "1/2:45"]%string);
                      SiteLine (tsv ["chr1"; "9"; "."; "A"; "C"; "40"; "SiteConflict"; ".";
                                     "GT:GQX"; "1;40"]%string)])
      by (vm_compute; reflexivity).
    rewrite E in Ec. injection Ec as Ec. exact Ec.
Defined.

Lemma process_overlaps_conflict_records_witness :
  hd_error (_indel_buffer ex_conflict_state) = Some ex_hom
  /\ conflict_group ex_conflict_state
  /\ exists s',
       process_overlaps ex_conflict_state = Some s'
       /\ _os s'
          = [OtherLine ("INDEL_SIZE: 2" ++ NL)%string;
             SiteLine (tsv ["chr1"; "1"; "."; "N"; "."; "."; "LowGQX";
                            "END=5;BLOCKAVG_min30p3a"; "GT:GQX"; "0/0;."]%string);
             IndelLine (tsv ["chr1"; "5"; "."; "AAAA"; "A"; "60"; "IndelConflict";
                             "CIGAR=1M3D"; "GT:GQX"; "1/1:50"]%string);
             SiteLine (tsv ["chr1"; "6"; "."; "N"; "."; "."; "IndelConflict;LowGQX";
                            "END=6;BLOCKAVG_min30p3a"; "GT:GQX"; "0/0;."]%string);
             IndelLine (tsv ["chr1"; "6"; "."; "AAAA"; "A"; "45"; "IndelConflict";
                             "CIGAR=1M3D"; "GT:GQX"; "0/1:45"]%string);
             SiteLine (tsv ["chr1"; "7"; "."; "N"; "."; "."; "IndelConflict;LowGQX";
                            "END=8;BLOCKAVG_min30p3a"; "GT:GQX"; "0/0;."]%string);
             SiteLine (tsv ["chr1"; "9"; "."; "A"; "C"; "50"; "IndelConflict"; ".";
                            "GT:GQX"; "0/1;50"]%string)].
Proof.
  assert (H1 : hd_error (_indel_buffer ex_conflict_state) = Some ex_hom)
    by (vm_compute; reflexivity).
  assert (H2 : conflict_group ex_conflict_state).
  { split; [vm_compute; repeat constructor |].
    right. vm_compute. apply Exists_cons_hd. reflexivity. }
  assert (H4 : Forall (fun ii => is_overlap (imod ii) = false)
                 (_indel_buffer ex_conflict_state))
    by (forall_by reflexivity).
  assert (H5 : Forall (fun si => ii_pos ex_hom <= si_pos si)
                 (_site_buffer ex_conflict_state))
    by (forall_by discriminate).
  split; [exact H1 |]. split; [exact H2 |].
  destruct (process_overlaps_conflict_records ex_conflict_state ex_hom H1 H2 H4 H5)
    as (s' & E & _).
  exists s'. split; [exact E |].
  assert (Ec : option_map _os (process_overlaps ex_conflict_state)
               = Some
                   [OtherLine ("INDEL_SIZE: 2" ++ NL)%string;
                    SiteLine (tsv ["chr1"; "1"; "."; "N"; "."; "."; "LowGQX";
                                   "END=5;BLOCKAVG_min30p3a"; "GT:GQX"; "0/0;."]%string);
                    IndelLine (tsv ["chr1"; "5"; "."; "AAAA"; "A"; "60"; "IndelConflict";
                                    "CIGAR=1M3D"; "GT:GQX"; "1/1:50"]%string);
                    SiteLine (tsv ["chr1"; "6"; "."; "N"; "."; "."; "IndelConflict;LowGQX";
                                   "END=6;BLOCKAVG_min30p3a"; "GT:GQX"; "0/0;."]%string);
                    IndelLine (tsv ["chr1"; "6"; "."; "AAAA"; "A"; "45"; "IndelConflict";
                                    "CIGAR=1M3D"; "GT:GQX"; "0/1:45"]%string);
                    SiteLine (tsv ["chr1"; "7"; "."; "N"; "."; "."; "IndelConflict;LowGQX";
                                   "END=8;BLOCKAVG_min30p3a"; "GT:GQX"; "0/0;."]%string);
                    SiteLine (tsv ["chr1"; "9"; "."; "A"; "C"; "50"; "IndelConflict"; ".";
                                   "GT:GQX"; "0/1;50"]%string)])
    by (vm_compute; reflexivity).
  rewrite E in Ec. injection Ec as Ec. exact Ec.
Defined.

Lemma write_indel_record_writes_witness :
  nth_error (_indel_buffer ex_pair_adjusted) 0 = Some ex_merged
  /\ exists s',
       write_indel_record ex_pair_adjusted 0 = Some s'
       /\ _os s'
          = [SiteLine (tsv ["chr1"; "1"; "."; "N"; "."; "."; "LowGQX";
                            "END=5;BLOCKAVG_min30p3a"; "GT:GQX"; "0/0;."]%string);
             IndelLine (tsv ["chr1"; "5"; "."; "AAAAA"; "AA,AA"; "45"; ".";
                             "CIGAR=1M3D1M,2M3D"; "GT:GQX"; "1/2:45"]%string)]
       /\ count (_block s') <= 0.
Proof.
  assert (H1 : nth_error (_indel_buffer ex_pair_adjusted) 0 = Some ex_merged)
    by (vm_compute; reflexivity).
  split; [exact H1 |].
  destruct (write_indel_record_writes ex_pair_adjusted 0 ex_merged H1)
    as (s' & E & _ & _ & C).
  - intros _. vm_compute. repeat constructor.
  - exists s'. split; [exact E |]. split; [| exact C].
    assert (Ec : option_map _os (write_indel_record ex_pair_adjusted 0)
                 = Some
                     [SiteLine (tsv ["chr1"; "1"; "."; "N"; "."; "."; "LowGQX";
                                     "END=5;BLOCKAVG_min30p3a"; "GT:GQX"; "0/0;."]%string);
                      IndelLine (tsv ["chr1"; "5"; "."; "AAAAA"; "AA,AA"; "45"; ".";
                                      "CIGAR=1M3D1M,2M3D"; "GT:GQX"; "1/2:45"]%string)])
      by (vm_compute; reflexivity).
    rewrite E in Ec. injection Ec as Ec. exact Ec.
Defined.

Lemma ex_pair_sites_adjustable_after_merge (a' b' : indel_info) :
  modify_overlap_indel_record ex_pair_state
  = Some (with_indel_buffer ex_pair_state [a'; b']) ->
  Forall (adjustable a') (_site_buffer ex_pair_state).
Proof.
  intros E.
  assert (Ha : ex_merged = a') by (unfold ex_merged; rewrite E; reflexivity).
  rewrite <- Ha. exact ex_pair_sites_adjustable.
Defined.

Lemma process_overlaps_pair_record_witness :
  overlap_pair ex_pair_state ex_a ex_b
  /\ is_het_indel (dindel ex_a) = true
  /\ is_het_indel (dindel ex_b) = true
  /\ exists s',
       process_overlaps ex_pair_state = Some s'
       /\ indel_lines s'
          = [IndelLine (tsv ["chr1"; "5"; "."; "AAAAA"; "AA,AA"; "45"; ".";
                             "CIGAR=1M3D1M,2M3D"; "GT:GQX"; "1/2:45"]%string)].
Proof.
  split; [exact ex_pair_is_overlap_pair |].
  split; [vm_compute; reflexivity |]. split; [vm_compute; reflexivity |].
  destruct (process_overlaps_pair_record ex_pair_state ex_a ex_b
              ex_pair_is_overlap_pair eq_refl eq_refl
              ex_pair_sites_adjustable_after_merge)
    as (a' & b' & sites' & s' & _ & _ & E & _).
  exists s'. split; [exact E |].
  assert (Ec : option_map indel_lines (process_overlaps ex_pair_state)
               = Some
                   [IndelLine (tsv ["chr1"; "5"; "."; "AAAAA"; "AA,AA"; "45"; ".";
                                    "CIGAR=1M3D1M,2M3D"; "GT:GQX"; "1/2:45"]%string)])
    by (vm_compute; reflexivity).
  rewrite E in Ec. injection Ec as Ec. exact Ec.
Defined.
